(** * Sprite generator: canvases, faction tint and driver

    A shallow embedding of [tools/generate_sprites.py].  Python numbers are
    unbounded integers and IEEE-754 binary64 floats (the executable
    specification [SpecFloat] of the standard library, at precision 53);
    images are objects of a store addressed by references, since the code
    copies an image and then writes into the copy through [pixels[x, y]].
    The raster library the script draws with is a collaborator, not part of
    the program: which pixels a shape covers is a parameter [covers]. *)

From Stdlib Require Import ZArith Lia Bool List.
From Stdlib Require Import Floats.SpecFloat.
From stdpp Require Import base option list gmap strings.

Local Open Scope Z_scope.

(** ** Python numbers *)

Module Py.

(** binary64: 53 bits of precision, infinities at exponent 1024. *)
Definition prec : Z := 53.
Definition emax : Z := 1024.

Definition fadd := SFadd prec emax.
Definition fsub := SFsub prec emax.
Definition fmul := SFmul prec emax.
Definition fdiv := SFdiv prec emax.

Inductive number :=
| PyInt (z : Z)
| PyFloat (f : spec_float).

(** [float(z)]: correctly rounded, [OverflowError] when out of range. *)
Definition float_of_int (z : Z) : option spec_float :=
  match binary_normalize prec emax z 0 false with
  | S754_infinity _ => None
  | f => Some f
  end.

(** [int(f)] on a float: truncation toward zero; [ValueError] on NaN,
    [OverflowError] on an infinity. *)
Definition float_int (f : spec_float) : option Z :=
  match f with
  | S754_zero _ => Some 0
  | S754_finite s m e => Some (cond_Zopp s (Z.shiftl (Zpos m) e))
  | _ => None
  end.

(** binary arithmetic: two ints stay ints, otherwise the int operand is
    converted to float first. *)
Definition arith (iop : Z -> Z -> Z)
    (fop : spec_float -> spec_float -> spec_float)
    (a b : number) : option number :=
  match a, b with
  | PyInt x, PyInt y => Some (PyInt (iop x y))
  | PyInt x, PyFloat g =>
      match float_of_int x with
      | Some f => Some (PyFloat (fop f g))
      | None => None
      end
  | PyFloat f, PyInt y =>
      match float_of_int y with
      | Some g => Some (PyFloat (fop f g))
      | None => None
      end
  | PyFloat f, PyFloat g => Some (PyFloat (fop f g))
  end.

Definition add := arith Z.add fadd.
Definition sub := arith Z.sub fsub.
Definition mul := arith Z.mul fmul.

Definition int (x : number) : option Z :=
  match x with
  | PyInt z => Some z
  | PyFloat f => float_int f
  end.

(** A decimal literal [n/d] (as [0.35] is [35/100]) denotes the float
    nearest to it. *)
Definition literal (n d : Z) : spec_float :=
  fdiv (binary_normalize prec emax n 0 false)
       (binary_normalize prec emax d 0 false).

Definition float_zero : spec_float := S754_zero false.
Definition float_one : spec_float := S754_finite false 4503599627370496 (-52).

(** [0 <= f <= 1] on a float of the binary64 format *)
Definition unit_float (f : spec_float) : bool :=
  valid_binary prec emax f && SFleb float_zero f && SFleb f float_one.

(** [0 <= x <= 1] *)
Definition unit_interval (x : number) : bool :=
  match x with
  | PyInt z => (0 <=? z) && (z <=? 1)
  | PyFloat f => unit_float f
  end.

End Py.

Import Py.

(** ** Exact values of floats, for the rounding bounds

    [scaled_value scale f] is the value of a non-negative [f] times
    [2^scale]; [fnonneg f] says that [f] is a zero or a positive finite
    float whose exponent is in the format. *)
Definition scaled_value (scale : Z) (f : spec_float) : Z :=
  match f with
  | S754_finite false m e => Zpos m * 2 ^ (e + scale)
  | _ => 0
  end.

Definition fnonneg (f : spec_float) : Prop :=
  match f with
  | S754_zero _ => True
  | S754_finite false _ e => emin prec emax <= e
  | _ => False
  end.

(** what [k] right shifts of mantissa [m] have produced *)
Definition shr_inv (m k : Z) (mrs : shr_record) : Prop :=
  shr_m mrs = m / 2 ^ k /\
  (m mod 2 ^ k = 0 -> shr_r mrs = false /\ shr_s mrs = false).

(** ** Images and the object store *)

Definition pixel : Type := Z * Z * Z * Z.
Definition rgb : Type := Z * Z * Z.

(** An RGBA image: [data] holds the rows one after the other. *)
Record Image := { width : Z; height : Z; data : list pixel }.

Definition offset (im : Image) (x y : Z) : nat := Z.to_nat (y * width im + x).

Definition in_bounds (im : Image) (x y : Z) : bool :=
  (0 <=? x) && (x <? width im) && (0 <=? y) && (y <? height im).

Definition pixel_at (im : Image) (x y : Z) : option pixel :=
  if in_bounds im x y then data im !! offset im x y else None.

Definition set_pixel (im : Image) (x y : Z) (p : pixel) : Image :=
  {| width := width im; height := height im;
     data := <[offset im x y := p]> (data im) |}.

Definition channel (v : Z) : bool := (0 <=? v) && (v <=? 255).

Definition pixel_ok (p : pixel) : bool :=
  let '(r, g, b, a) := p in channel r && channel g && channel b && channel a.

Definition rgb_ok (c : rgb) : bool :=
  let '(r, g, b) := c in channel r && channel g && channel b.

(** a well-formed 8-bit RGBA raster *)
Definition Image_wf (im : Image) : Prop :=
  0 <= width im /\ 0 <= height im /\
  length (data im) = Z.to_nat (width im * height im) /\
  Forall (fun p => pixel_ok p = true) (data im).

(** The world of a run: the image objects, and the files written. *)
Record World := { objects : gmap positive Image; files : gmap string Image }.

Definition empty_world : World := {| objects := ∅; files := ∅ |}.

(** Computations: a result or a raised exception, and the world after. *)
Definition M (A : Type) : Type := World -> option A * World.

Definition ret {A} (a : A) : M A := fun w => (Some a, w).
Definition raise {A} : M A := fun w => (None, w).
Definition bind {A B} (m : M A) (k : A -> M B) : M B :=
  fun w => match m w with
           | (Some a, w') => k a w'
           | (None, w') => (None, w')
           end.
Definition lift {A} (o : option A) : M A :=
  match o with Some a => ret a | None => raise end.

Notation "x <- m ;; k" := (bind m (fun x => k))
  (at level 100, m at next level, right associativity).
Notation "m ;;; k" := (bind m (fun _ => k))
  (at level 100, right associativity).

(** [for x in l: body] *)
Fixpoint for_each {A} (l : list A) (body : A -> M unit) : M unit :=
  match l with
  | [] => ret tt
  | x :: l' => body x ;;; for_each l' body
  end.

(** [range(n)] *)
Definition range (n : Z) : list Z := seqZ 0 n.

Definition alloc (im : Image) : M positive := fun w =>
  let r := fresh (dom (objects w)) in
  (Some r, {| objects := <[r := im]> (objects w); files := files w |}).

Definition read (r : positive) : M Image := fun w =>
  match objects w !! r with
  | Some im => (Some im, w)
  | None => (None, w)
  end.

Definition write (r : positive) (im : Image) : M unit := fun w =>
  (Some tt, {| objects := <[r := im]> (objects w); files := files w |}).

(** *** The raster library *)

(** [Image.new("RGBA", (w, h), fill)]; a negative size is a [ValueError]. *)
Definition Image_new (w h : Z) (fill : pixel) : M positive :=
  if (w <? 0) || (h <? 0) then raise
  else alloc {| width := w; height := h;
                data := replicate (Z.to_nat (w * h)) fill |}.

(** [img.copy()] *)
Definition Image_copy (img : positive) : M positive :=
  im <- read img ;; alloc im.

Definition Image_width (img : positive) : M Z := im <- read img ;; ret (width im).
Definition Image_height (img : positive) : M Z := im <- read img ;; ret (height im).

(** Pixel access [pixels[x, y]]: a negative index counts from the end, an
    index outside the image is an [IndexError]. *)
Definition wrap (n i : Z) : Z := if i <? 0 then n + i else i.

Definition getpixel (img : positive) (x y : Z) : M pixel :=
  im <- read img ;;
  lift (pixel_at im (wrap (width im) x) (wrap (height im) y)).

(** [pixels[x, y] = p].  The channels are stored as they are written: the
    raster library keeps a channel within 0..255, which is where the tint
    writes whenever the intensity is in [0, 1]; what the library would store
    for a channel beyond that range is not modelled. *)
Definition putpixel (img : positive) (x y : Z) (p : pixel) : M unit :=
  im <- read img ;;
  let x' := wrap (width im) x in
  let y' := wrap (height im) y in
  if in_bounds im x' y' then write img (set_pixel im x' y' p) else raise.

(** [img.save(path)] *)
Definition save (img : positive) (path : string) : M unit := fun w =>
  match objects w !! img with
  | Some im => (Some tt, {| objects := objects w; files := <[path := im]> (files w) |})
  | None => (None, w)
  end.

(** The shapes of [ImageDraw]. *)
Inductive shape :=
| Ellipse (x0 y0 x1 y1 : Z)
| Rectangle (x0 y0 x1 y1 : Z)
| Polygon (points : list (Z * Z))
| Line (x0 y0 x1 y1 : Z) (w : Z)
| Arc (x0 y0 x1 y1 : Z) (start stop : Z) (w : Z).

(** ** The program *)

Section Program.

(** [covers s x y]: drawing the shape [s] paints the pixel [(x, y)].  This
    is the raster library's rasteriser. *)
Variable covers : shape -> Z -> Z -> bool.

(** The directory the sprites are written to. *)
Variable OUTPUT_DIR : string.

(** Drawing writes the ink into every covered pixel of the image. *)
Definition paint (im : Image) (s : shape) (fill : pixel) : Image :=
  {| width := width im; height := height im;
     data := imap (fun i p =>
                     if covers s (Z.of_nat i mod width im) (Z.of_nat i / width im)
                     then fill else p) (data im) |}.

Definition draw_shape (draw : positive) (s : shape) (fill : pixel) : M unit :=
  im <- read draw ;; write draw (paint im s fill).

(** [ImageDraw.Draw(img)]: the drawing context draws into [img] itself. *)
Definition ImageDraw_Draw (img : positive) : M positive := ret img.

(** A shape given by its box, [[x0, y0, x1, y1]], is refused when the
    corners are not in order: [x1 < x0] or [y1 < y0] is a [ValueError]. *)
Definition ordered (x0 y0 x1 y1 : Z) : bool := (x0 <=? x1) && (y0 <=? y1).

Definition ellipse draw (x0 y0 x1 y1 : Z) fill : M unit :=
  if ordered x0 y0 x1 y1 then draw_shape draw (Ellipse x0 y0 x1 y1) fill else raise.
Definition rectangle draw (x0 y0 x1 y1 : Z) fill : M unit :=
  if ordered x0 y0 x1 y1 then draw_shape draw (Rectangle x0 y0 x1 y1) fill else raise.
Definition polygon draw (points : list (Z * Z)) fill := draw_shape draw (Polygon points) fill.
Definition line draw (x0 y0 x1 y1 : Z) fill (w : Z) := draw_shape draw (Line x0 y0 x1 y1 w) fill.
Definition arc draw (x0 y0 x1 y1 start stop : Z) fill (w : Z) : M unit :=
  if ordered x0 y0 x1 y1 then draw_shape draw (Arc x0 y0 x1 y1 start stop w) fill else raise.

Definition transparent : pixel := (0, 0, 0, 0).

Definition CONTINUITY_BLUE : rgb := (51, 102, 204).
Definition COLLEGIUM_GOLD : rgb := (204, 153, 51).

Definition create_infantry_sprite (size : Z) : M positive :=
  img <- Image_new size size transparent ;;
  draw <- ImageDraw_Draw img ;;
  let cx := size / 2 in
  let cy := size / 2 in
  let head_r := size / 8 in
  ellipse draw (cx - head_r) 4 (cx + head_r) (4 + head_r * 2) (200, 200, 200, 255) ;;;
  let body_top := 4 + head_r * 2 in
  let body_bottom := cy + size / 4 in
  rectangle draw (cx - size / 6) body_top (cx + size / 6) body_bottom (100, 100, 100, 255) ;;;
  let leg_w := size / 10 in
  rectangle draw (cx - size / 5) body_bottom (cx - size / 5 + leg_w) (size - 4) (80, 80, 80, 255) ;;;
  rectangle draw (cx + size / 5 - leg_w) body_bottom (cx + size / 5) (size - 4) (80, 80, 80, 255) ;;;
  rectangle draw (cx - size / 4) (body_top + 2) (cx - size / 6) (body_bottom - 4) (100, 100, 100, 255) ;;;
  rectangle draw (cx + size / 6) (body_top + 2) (cx + size / 4) (body_bottom - 4) (100, 100, 100, 255) ;;;
  line draw (cx + size / 4) (body_top + 4) (cx + size / 3 + 4) (body_top - 4) (60, 60, 60, 255) 2 ;;;
  ret img.

Definition create_ranger_sprite (size : Z) : M positive :=
  img <- Image_new size size transparent ;;
  draw <- ImageDraw_Draw img ;;
  let cx := size / 2 in
  let head_r := size / 10 in
  ellipse draw (cx - head_r - 1) 2 (cx + head_r + 1) (2 + head_r * 2 + 2) (60, 80, 60, 255) ;;;
  ellipse draw (cx - head_r) 3 (cx + head_r) (3 + head_r * 2) (180, 160, 140, 255) ;;;
  let body_top := 3 + head_r * 2 in
  polygon draw [(cx, body_top); (cx - size / 4, size - 6); (cx + size / 4, size - 6)]
    (50, 70, 50, 255) ;;;
  line draw (cx - 2) (body_top + 4) (cx + size / 2 - 2) 0 (40, 40, 40, 255) 3 ;;;
  ellipse draw (cx + size / 4 - 1) 2 (cx + size / 4 + 2) 5 (100, 200, 255, 255) ;;;
  ret img.

Definition create_harvester_sprite (size : Z) : M positive :=
  img <- Image_new size size transparent ;;
  draw <- ImageDraw_Draw img ;;
  let body_margin := 4 in
  rectangle draw body_margin (size / 3) (size - body_margin) (size - 6) (180, 140, 60, 255) ;;;
  let cab_w := size / 3 in
  let cx := size / 2 in
  rectangle draw (cx - cab_w / 2) 6 (cx + cab_w / 2) (size / 3 + 2) (160, 120, 40, 255) ;;;
  rectangle draw (cx - cab_w / 4) 8 (cx + cab_w / 4) (size / 4) (100, 180, 220, 255) ;;;
  polygon draw [(2, size - 8); (body_margin, size / 2); (body_margin + size / 4, size / 2);
                (body_margin + size / 4 + 2, size - 8)] (120, 100, 40, 255) ;;;
  let track_y := size - 5 in
  ellipse draw body_margin (track_y - 3) (body_margin + 8) (track_y + 3) (40, 40, 40, 255) ;;;
  ellipse draw (size - body_margin - 8) (track_y - 3) (size - body_margin) (track_y + 3)
    (40, 40, 40, 255) ;;;
  for_each (range 3) (fun i =>
    let y := size / 2 + 4 + i * 4 in
    line draw (body_margin + 4) y (size - body_margin - 4) y (140, 100, 40, 255) 1) ;;;
  ret img.

Definition create_depot_sprite (size : Z) : M positive :=
  img <- Image_new size size transparent ;;
  draw <- ImageDraw_Draw img ;;
  let margin := 4 in
  rectangle draw margin (size / 4) (size - margin) (size - margin) (100, 110, 130, 255) ;;;
  polygon draw [(margin, size / 4); (size / 2, margin); (size - margin, size / 4)]
    (70, 80, 100, 255) ;;;
  let win_color := (80, 160, 200, 255) in
  let win_size := 6 in
  for_each (range 2) (fun row =>
    for_each (range 4) (fun col =>
      let wx := margin + 8 + col * 12 in
      let wy := size / 4 + 8 + row * 14 in
      rectangle draw wx wy (wx + win_size) (wy + win_size) win_color)) ;;;
  let door_w := 12 in
  let door_h := 16 in
  let cx := size / 2 in
  rectangle draw (cx - door_w / 2) (size - margin - door_h) (cx + door_w / 2) (size - margin)
    (60, 50, 40, 255) ;;;
  line draw (size - margin - 8) (margin + 4) (size - margin - 8) (size / 4) (80, 80, 80, 255) 2 ;;;
  ellipse draw (size - margin - 11) (margin + 1) (size - margin - 5) (margin + 7)
    (255, 100, 100, 255) ;;;
  ret img.

Definition create_barracks_sprite (size : Z) : M positive :=
  img <- Image_new size size transparent ;;
  draw <- ImageDraw_Draw img ;;
  let margin := 3 in
  rectangle draw margin (size / 5) (size - margin) (size - margin) (90, 85, 80, 255) ;;;
  rectangle draw (margin - 1) (size / 5 - 3) (size - margin + 1) (size / 5 + 2) (70, 65, 60, 255) ;;;
  for_each (range 3) (fun i =>
    let wx := margin + 8 + i * 12 in
    rectangle draw wx (size / 3) (wx + 8) (size / 3 + 4) (40, 60, 80, 255)) ;;;
  let door_w := 20 in
  let cx := size / 2 in
  rectangle draw (cx - door_w / 2) (size / 2) (cx + door_w / 2) (size - margin) (50, 50, 50, 255) ;;;
  line draw cx (size / 2) cx (size - margin) (40, 40, 40, 255) 1 ;;;
  let star_cx := size - margin - 10 in
  let star_cy := size / 3 + 8 in
  polygon draw [(star_cx, star_cy - 5); (star_cx + 2, star_cy - 1); (star_cx + 5, star_cy);
                (star_cx + 2, star_cy + 1); (star_cx, star_cy + 5); (star_cx - 2, star_cy + 1);
                (star_cx - 5, star_cy); (star_cx - 2, star_cy - 1)] (180, 50, 50, 255) ;;;
  ret img.

Definition create_supply_depot_sprite (size : Z) : M positive :=
  img <- Image_new size size transparent ;;
  draw <- ImageDraw_Draw img ;;
  let margin := 2 in
  rectangle draw margin (size / 3) (size - margin) (size - margin) (140, 130, 110, 255) ;;;
  polygon draw [(margin, size / 3); (size / 2, margin + 2); (size - margin, size / 3)]
    (120, 80, 60, 255) ;;;
  let door_w := size - 8 in
  rectangle draw 4 (size / 2) (size - 4) (size - margin) (100, 90, 70, 255) ;;;
  rectangle draw 6 (size / 2 + 4) 12 (size - 4) (180, 140, 80, 255) ;;;
  rectangle draw 14 (size / 2 + 6) 20 (size - 4) (160, 120, 60, 255) ;;;
  rectangle draw 22 (size / 2 + 4) 28 (size - 4) (170, 130, 70, 255) ;;;
  ret img.

Definition create_tech_lab_sprite (size : Z) : M positive :=
  img <- Image_new size size transparent ;;
  draw <- ImageDraw_Draw img ;;
  let margin := 3 in
  let cx := size / 2 in
  rectangle draw margin (size / 4) (size - margin) (size - margin) (80, 70, 120, 255) ;;;
  ellipse draw (cx - size / 4) margin (cx + size / 4) (size / 3) (100, 90, 150, 255) ;;;
  let win_color := (100, 200, 255, 255) in
  for_each (range 2) (fun i =>
    for_each (range 2) (fun j =>
      let wx := margin + 6 + i * 16 in
      let wy := size / 3 + 4 + j * 10 in
      ellipse draw wx wy (wx + 8) (wy + 6) win_color)) ;;;
  ellipse draw (cx - 4) (size / 5) (cx + 4) (size / 5 + 8) (150, 100, 255, 255) ;;;
  arc draw (size - margin - 12) margin (size - margin) (margin + 10) 180 360
    (150, 150, 150, 255) 2 ;;;
  line draw (size - margin - 6) (margin + 5) (size - margin - 6) (margin + 12)
    (100, 100, 100, 255) 1 ;;;
  ret img.

Definition create_turret_sprite (size : Z) : M positive :=
  img <- Image_new size size transparent ;;
  draw <- ImageDraw_Draw img ;;
  let cx := size / 2 in
  let cy := size / 2 in
  let base_r := size / 3 in
  ellipse draw (cx - base_r) (size - 8) (cx + base_r) (size - 2) (80, 80, 80, 255) ;;;
  let col_w := 4 in
  rectangle draw (cx - col_w) cy (cx + col_w) (size - 6) (100, 100, 100, 255) ;;;
  let head_r := size / 4 in
  ellipse draw (cx - head_r) (cy - head_r + 2) (cx + head_r) (cy + head_r + 2)
    (120, 120, 120, 255) ;;;
  rectangle draw (cx - 2) 2 (cx + 2) cy (60, 60, 60, 255) ;;;
  ellipse draw (cx - 3) 0 (cx + 3) 5 (255, 200, 100, 200) ;;;
  ret img.

Definition create_resource_node_sprite (size : Z) (permanent : bool) : M positive :=
  img <- Image_new size size transparent ;;
  draw <- ImageDraw_Draw img ;;
  let cx := size / 2 in
  let cy := size / 2 in
  (if permanent then
     let color := (60, 200, 100, 255) in
     polygon draw [(cx, 4); (cx + 10, cy - 4); (cx + 8, size - 8); (cx - 8, size - 8);
                   (cx - 10, cy - 4)] color ;;;
     polygon draw [(6, cy); (14, 8); (16, cy + 6)] (80, 220, 120, 255) ;;;
     polygon draw [(size - 6, cy); (size - 14, 10); (size - 16, cy + 4)] (50, 180, 90, 255) ;;;
     ellipse draw (cx - 6) (cy - 2) (cx + 6) (cy + 8) (100, 255, 150, 100)
   else
     let color := (220, 180, 60, 255) in
     ellipse draw 4 (size / 2) (size - 4) (size - 4) (180, 140, 40, 255) ;;;
     for_each (range 5) (fun i =>
       let ox := 8 + (i mod 3) * 10 + (i / 3) * 5 in
       let oy := size / 3 + (i mod 2) * 8 in
       let chunk_size := 8 + (i mod 3) * 2 in
       ellipse draw ox oy (ox + chunk_size) (oy + chunk_size) color) ;;;
     ellipse draw (cx - 2) (cy - 4) (cx + 2) cy (255, 240, 180, 255) ;;;
     ellipse draw (cx + 6) (cy + 2) (cx + 9) (cy + 5) (255, 230, 160, 255)) ;;;
  ret img.

Definition create_terrain_sprite (size : Z) : M positive :=
  img <- Image_new size 60 transparent ;;
  draw <- ImageDraw_Draw img ;;
  polygon draw [(10, 55); (5, 35); (15, 15); (35, 8); (55, 12); (70, 20); (75, 40); (70, 55)]
    (100, 95, 85, 255) ;;;
  polygon draw [(20, 45); (18, 30); (30, 18); (45, 20); (48, 35)] (120, 115, 105, 255) ;;;
  polygon draw [(50, 50); (55, 25); (68, 30); (70, 50)] (80, 75, 65, 255) ;;;
  ret img.

(** *** The tint *)

(** [int(r * (1 - intensity) + faction_color[i] * intensity)] *)
Definition blend (r c : Z) (intensity : number) : option Z :=
  match sub (PyInt 1) intensity with
  | Some k =>
      match mul (PyInt r) k, mul (PyInt c) intensity with
      | Some a, Some b =>
          match add a b with
          | Some s => int s
          | None => None
          end
      | _, _ => None
      end
  | None => None
  end.

Definition apply_faction_tint (img : positive) (faction_color : rgb)
    (intensity : number) : M positive :=
  result <- Image_copy img ;;
  let pixels := result in
  h <- Image_height result ;;
  for_each (range h) (fun y =>
    w <- Image_width result ;;
    for_each (range w) (fun x =>
      p <- getpixel pixels x y ;;
      let '(r, g, b, a) := p in
      if 0 <? a then
        nr <- lift (blend r (faction_color.1.1) intensity) ;;
        ng <- lift (blend g (faction_color.1.2) intensity) ;;
        nb <- lift (blend b (faction_color.2) intensity) ;;
        putpixel pixels x y (nr, ng, nb, a)
      else ret tt)) ;;;
  ret result.

(** The default of the parameter [intensity]. *)
Definition default_intensity : number := PyFloat (literal 4 10).

Definition apply_faction_tint_default (img : positive) (faction_color : rgb) : M positive :=
  apply_faction_tint img faction_color default_intensity.

(** *** The driver *)

Definition path_join (dir name : string) : string := dir +:+ "/" +:+ name.

(** [d[key]] on a dict kept in insertion order; a missing key is a
    [KeyError]. *)
Fixpoint dict_get {A} (d : list (string * A)) (key : string) : option A :=
  match d with
  | [] => None
  | (k, v) :: d' => if String.eqb k key then Some v else dict_get d' key
  end.

Definition main : M unit :=
  infantry <- create_infantry_sprite 32 ;;
  ranger <- create_ranger_sprite 32 ;;
  harvester <- create_harvester_sprite 36 ;;
  depot <- create_depot_sprite 64 ;;
  barracks <- create_barracks_sprite 48 ;;
  supply_depot <- create_supply_depot_sprite 32 ;;
  tech_lab <- create_tech_lab_sprite 40 ;;
  turret <- create_turret_sprite 24 ;;
  resource_temp <- create_resource_node_sprite 40 false ;;
  resource_perm <- create_resource_node_sprite 40 true ;;
  terrain <- create_terrain_sprite 80 ;;
  let sprites :=
    [("infantry", infantry); ("ranger", ranger); ("harvester", harvester);
     ("depot", depot); ("barracks", barracks); ("supply_depot", supply_depot);
     ("tech_lab", tech_lab); ("turret", turret); ("resource_temp", resource_temp);
     ("resource_perm", resource_perm); ("terrain", terrain)]%string in
  for_each sprites (fun '(name, img) =>
    let path := path_join OUTPUT_DIR (name +:+ ".png") in
    save img path) ;;;
  let factions :=
    [("continuity", CONTINUITY_BLUE); ("collegium", COLLEGIUM_GOLD)]%string in
  let unit_sprites := ["infantry"; "ranger"; "harvester"]%string in
  let building_sprites :=
    ["depot"; "barracks"; "supply_depot"; "tech_lab"; "turret"]%string in
  for_each factions (fun '(faction_name, faction_color) =>
    let faction_dir := path_join OUTPUT_DIR faction_name in
    for_each (unit_sprites ++ building_sprites) (fun sprite_name =>
      img <- lift (dict_get sprites sprite_name) ;;
      tinted <- apply_faction_tint img faction_color (PyFloat (literal 35 100)) ;;
      let path := path_join faction_dir (sprite_name +:+ ".png") in
      save tinted path)).

End Program.

(** ** Specifications *)

(** [wp m w Q]: run from the world [w], [m] returns a value and leaves a
    world which together satisfy [Q]. *)
Definition wp {A} (m : M A) (w : World) (Q : A -> World -> Prop) : Prop :=
  exists a w', m w = (Some a, w') /\ Q a w'.

(** [m] changes no image object other than [res], and no file. *)
Definition writes_only {A} (res : positive) (m : M A) : Prop :=
  forall w, files (m w).2 = files w /\
    forall r, r <> res -> objects (m w).2 !! r = objects w !! r.

(** What the tint does to one pixel, in the words of its contract: a pixel
    with alpha above 0 gets the truncated blends, its alpha kept; a pixel
    with alpha 0 is copied. *)
Definition tint_pixel (faction_color : rgb) (intensity : number) (p : pixel)
    : option pixel :=
  let '(r, g, b, a) := p in
  if 0 <? a then
    match blend r (faction_color.1.1) intensity,
          blend g (faction_color.1.2) intensity,
          blend b (faction_color.2) intensity with
    | Some nr, Some ng, Some nb => Some (nr, ng, nb, a)
    | _, _, _ => None
    end
  else Some p.

(** the pixel [tint_pixel] yields, the pixel itself where it yields none *)
Definition tinted (faction_color : rgb) (intensity : number) (p : pixel) : pixel :=
  default p (tint_pixel faction_color intensity p).

Definition tint_image (faction_color : rgb) (intensity : number) (im : Image) : Image :=
  {| width := width im; height := height im;
     data := tinted faction_color intensity <$> data im |}.

(** the state of the copy when the first [k] pixels have been visited *)
Definition visited (f : pixel -> pixel) (k : nat) (d dk : list pixel) : Prop :=
  length dk = length d /\
  forall i, dk !! i = if decide (i < k)%nat then f <$> d !! i else d !! i.

(** the world after [k] pixels of the copy [res] of [im] have been visited *)
Definition tinting (f : pixel -> pixel) (w0 : World) (res : positive) (im : Image)
    (k : nat) (w : World) : Prop :=
  exists dk, visited f k (data im) dk /\
    objects w = <[res := {| width := width im; height := height im; data := dk |}]>
                  (objects w0) /\
    files w = files w0.

Definition float_eqb (f g : spec_float) : bool :=
  match f, g with
  | S754_zero s, S754_zero s' => Bool.eqb s s'
  | S754_infinity s, S754_infinity s' => Bool.eqb s s'
  | S754_nan, S754_nan => true
  | S754_finite s m e, S754_finite s' m' e' =>
      Bool.eqb s s' && Pos.eqb m m' && Z.eqb e e'
  | _, _ => false
  end.

(** the float products and sums of a blend at intensity 0.0 and at 1.0,
    checked on one channel value *)
Definition check_times_one (r : Z) : bool :=
  match float_of_int r with
  | Some R =>
      match float_int (fadd (fmul R float_one) float_zero),
            float_int (fadd float_zero (fmul R float_one)) with
      | Some v, Some v' => (v =? r) && (v' =? r)
      | _, _ => false
      end
  | None => false
  end.

Definition check_times_zero (c : Z) : bool :=
  match float_of_int c with
  | Some C => float_eqb (fmul C float_zero) float_zero
  | None => false
  end.

(** [draws r P Q m]: run on a store whose image [r] satisfies [P], [m]
    returns a value [a] and has changed the image [r] only, into one that
    satisfies [Q a]. *)
Definition draws {A} (r : positive) (P : Image -> Prop) (Q : A -> Image -> Prop)
    (m : M A) : Prop :=
  forall w im, objects w !! r = Some im -> P im ->
    wp m w (fun a w' => exists im',
      Q a im' /\ objects w' = <[r := im']> (objects w) /\ files w' = files w).

(** a well-formed raster of the given dimensions *)
Definition sized (w h : Z) (im : Image) : Prop :=
  width im = w /\ height im = h /\ Image_wf im.

(** [gen] returns a new canvas of [w] by [h] pixels, and changes nothing
    else. *)
Definition returns_canvas (gen : M positive) (w h : Z) : Prop :=
  forall wd, wp gen wd (fun r wd' =>
    r = fresh (dom (objects wd)) /\
    exists im, sized w h im /\
      objects wd' = <[r := im]> (objects wd) /\ files wd' = files wd).

(** [gen] returns the image [G] as a new object, whatever the store holds,
    and changes nothing else *)
Definition produces (gen : M positive) (G : Image) : Prop :=
  forall w, wp gen w (fun r w' =>
    r = fresh (dom (objects w)) /\
    objects w' = <[r := G]> (objects w) /\ files w' = files w).

(** [gen], where it returns, returns a canvas of [w] by [h] pixels *)
Definition canvas_if_returned (gen : M positive) (w h : Z) : Prop :=
  forall wd r wd', gen wd = (Some r, wd') ->
    exists im, objects wd' !! r = Some im /\ sized w h im.

(** [may_draw r P Q m]: run on a store whose image [r] satisfies [P], [m]
    either raises or returns a value [a] and leaves an image [r] that
    satisfies [Q a]. *)
Definition may_draw {A} (r : positive) (P : Image -> Prop) (Q : A -> Image -> Prop)
    (m : M A) : Prop :=
  forall w im, objects w !! r = Some im -> P im ->
    forall a w', m w = (Some a, w') ->
      exists im', Q a im' /\ objects w' !! r = Some im'.

(** [m] raises, on every store that holds an image [r] *)
Definition never_returns {A} (r : positive) (m : M A) : Prop :=
  forall w, is_Some (objects w !! r) -> (m w).1 = None.

(** every pixel is fully transparent or fully opaque *)
Definition alpha_binary (im : Image) : Prop :=
  Forall (fun p : pixel => p.2 = 0 \/ p.2 = 255) (data im).

(** A rasteriser for sample runs: an ellipse covers the pixels of its box
    that lie in the inscribed ellipse, every other shape covers the box of
    its points. *)
Definition in_box (x0 y0 x1 y1 x y : Z) : bool :=
  (x0 <=? x) && (x <=? x1) && (y0 <=? y) && (y <=? y1).

Definition points_box (points : list (Z * Z)) (x y : Z) : bool :=
  existsb (fun p => p.1 <=? x) points && existsb (fun p => x <=? p.1) points &&
  existsb (fun p => p.2 <=? y) points && existsb (fun p => y <=? p.2) points.

Definition box_raster (s : shape) (x y : Z) : bool :=
  match s with
  | Ellipse x0 y0 x1 y1 =>
      in_box x0 y0 x1 y1 x y &&
      ((2 * x - x0 - x1) ^ 2 * (y1 - y0) ^ 2 + (2 * y - y0 - y1) ^ 2 * (x1 - x0) ^ 2
         <=? (x1 - x0) ^ 2 * (y1 - y0) ^ 2)
  | Rectangle x0 y0 x1 y1 => in_box x0 y0 x1 y1 x y
  | Polygon points => points_box points x y
  | Line x0 y0 x1 y1 _ => points_box [(x0, y0); (x1, y1)] x y
  | Arc x0 y0 x1 y1 _ _ _ => in_box x0 y0 x1 y1 x y
  end.

(** What the drawings rely on from the rasteriser: an ellipse and a
    rectangle stay inside the box they are given, and a filled ellipse at
    least two pixels wide and high covers the pixel at the centre of its
    box. *)
Definition stays_in_box (covers : shape -> Z -> Z -> bool) : Prop :=
  forall x0 y0 x1 y1 x y,
    (covers (Ellipse x0 y0 x1 y1) x y = true \/
     covers (Rectangle x0 y0 x1 y1) x y = true) ->
    x0 <= x <= x1 /\ y0 <= y <= y1.

Definition covers_centre (covers : shape -> Z -> Z -> bool) : Prop :=
  forall x0 y0 x1 y1,
    x0 + 2 <= x1 -> y0 + 2 <= y1 ->
    covers (Ellipse x0 y0 x1 y1) ((x0 + x1) / 2) ((y0 + y1) / 2) = true.

(** ** Repeated tints *)

(** the channel [r] is at least 4 below or at least 2 above the target [c] *)
Definition far_from (r c : Z) : bool := (4 <=? c - r) || (2 <=? r - c).

(** The products of a blend at intensity [t], tabulated over the channel
    values: [products t] holds [float(z) * t] at index [z]. *)
Definition products (t : spec_float) : list spec_float :=
  (fun z => match float_of_int z with
            | Some f => fmul f t
            | None => S754_nan
            end) <$> seqZ 0 256.

(** the blend of [r] toward [c], read from the tables of the two products *)
Definition blend_table (A B : list spec_float) (r c : Z) : option Z :=
  float_int (fadd (nth (Z.to_nat r) A S754_nan) (nth (Z.to_nat c) B S754_nan)).

(** a second blend changes what the first blend gave, exactly when the
    channel is far from the target *)
Definition check_twice (A B : list spec_float) (r c : Z) : bool :=
  match blend_table A B r c with
  | Some v =>
      match blend_table A B v c with
      | Some v' => Bool.eqb (negb (v' =? v)) (far_from r c)
      | None => false
      end
  | None => false
  end.

(** a canvas of one opaque pixel, each channel one below (101, 101, 101) *)
Definition near_image : Image :=
  {| width := 1; height := 1; data := [(100, 100, 100, 255)] |}.

(** ** The files of a run *)

(** The sprites of the driver with the dimensions their generators are
    called for. *)
Definition catalog : list (string * (Z * Z)) :=
  [("infantry", (32, 32)); ("ranger", (32, 32)); ("harvester", (36, 36));
   ("depot", (64, 64)); ("barracks", (48, 48)); ("supply_depot", (32, 32));
   ("tech_lab", (40, 40)); ("turret", (24, 24)); ("resource_temp", (40, 40));
   ("resource_perm", (40, 40)); ("terrain", (80, 60))]%string.

(** the unit sprites and the building sprites, which get tinted *)
Definition tinted_names : list string :=
  ["infantry"; "ranger"; "harvester"; "depot"; "barracks"; "supply_depot";
   "tech_lab"; "turret"]%string.

Definition base_files (dir : string) : list (string * (Z * Z)) :=
  (fun e => (path_join dir (e.1 +:+ ".png"), e.2)) <$> catalog.

Definition faction_files (dir faction : string) : list (string * (Z * Z)) :=
  (fun name => (path_join (path_join dir faction) (name +:+ ".png"),
                default (0, 0) (dict_get catalog name))) <$> tinted_names.

(** every file of a run, in the order of writing, with its dimensions *)
Definition written_files (dir : string) : list (string * (Z * Z)) :=
  base_files dir ++ faction_files dir "continuity" ++ faction_files dir "collegium".

(** the directory after the files of [l] have been written one by one *)
Definition write_all (m : gmap string Image) (l : list (string * Image))
    : gmap string Image :=
  foldl (fun m e => <[e.1 := e.2]> m) m l.

(** [r] holds the image [im] of the listed dimensions *)
Definition holds (w : World) (r : positive) (im : Image) (d : Z * Z) : Prop :=
  objects w !! r = Some im /\ sized d.1 d.2 im.

(** the paths of the written files without the directory they are under *)
Definition written_suffixes : list string :=
  ((fun e => "/" +:+ e.1 +:+ ".png") <$> catalog)
  ++ ((fun name => "/continuity/" +:+ name +:+ ".png") <$> tinted_names)
  ++ ((fun name => "/collegium/" +:+ name +:+ ".png") <$> tinted_names).

(** The generator calls of the driver, by sprite name. *)
Definition sprite_calls (covers : shape -> Z -> Z -> bool) : list (string * M positive) :=
  [("infantry", create_infantry_sprite covers 32);
   ("ranger", create_ranger_sprite covers 32);
   ("harvester", create_harvester_sprite covers 36);
   ("depot", create_depot_sprite covers 64);
   ("barracks", create_barracks_sprite covers 48);
   ("supply_depot", create_supply_depot_sprite covers 32);
   ("tech_lab", create_tech_lab_sprite covers 40);
   ("turret", create_turret_sprite covers 24);
   ("resource_temp", create_resource_node_sprite covers 40 false);
   ("resource_perm", create_resource_node_sprite covers 40 true);
   ("terrain", create_terrain_sprite covers 80)]%string.

(** ** Sample inputs *)

(** a canvas of two pixels: an opaque one and a fully transparent one *)
Definition sample_image : Image :=
  {| width := 2; height := 1; data := [(200, 100, 0, 255); (10, 20, 30, 0)] |}.

Definition sample_world : World :=
  {| objects := {[1%positive := sample_image]}; files := ∅ |}.

(** the literals [0.35] and [0.4] *)
Definition f035 : spec_float := literal 35 100.
Definition f04 : spec_float := literal 4 10.

(** ** The blend on integers *)

(** the blend at the intensity [n/d] in exact arithmetic:
    [((d - n) * r + n * c) // d] *)
Definition exact_blend (n d r c : Z) : Z := ((d - n) * r + n * c) / d.

(** the float blend is the exact one, or one below it where the exact
    blend is a whole number *)
Definition check_exact (n d : Z) (A B : list spec_float) (r c : Z) : bool :=
  match blend_table A B r c with
  | Some v =>
      (v =? exact_blend n d r c) ||
      ((v =? exact_blend n d r c - 1) && (((d - n) * r + n * c) mod d =? 0))
  | None => false
  end.

(** ** Intensities that are not numbers *)

(** a float that is not a number of the format: NaN or an infinity *)
Definition nonfinite (f : spec_float) : bool :=
  match f with
  | S754_nan | S754_infinity _ => true
  | _ => false
  end.

(** ** The inks of a sprite *)

(** [gen] returns a canvas whose pixels are transparent or one of [inks] *)
Definition painted_with (inks : list pixel) (gen : M positive) : Prop :=
  forall w, wp gen w (fun r w' =>
    exists im, objects w' !! r = Some im /\
      forall x y p, pixel_at im x y = Some p -> p = transparent \/ p ∈ inks).

(** every pixel of the raster is transparent or one of [inks] *)
Definition inked (inks : list pixel) (im : Image) : Prop :=
  Forall (fun p => p = transparent \/ p ∈ inks) (data im).

(** ** The terrain, pixel by pixel *)

(** the ink of the last of the three polygons that covers the pixel, in the
    order of drawing: rock, highlight, shadow *)
Definition terrain_pixel (covers : shape -> Z -> Z -> bool) (x y : Z) : pixel :=
  if covers (Polygon [(50, 50); (55, 25); (68, 30); (70, 50)]) x y
  then (80, 75, 65, 255)
  else if covers (Polygon [(20, 45); (18, 30); (30, 18); (45, 20); (48, 35)]) x y
  then (120, 115, 105, 255)
  else if covers (Polygon [(10, 55); (5, 35); (15, 15); (35, 8); (55, 12); (70, 20);
                           (75, 40); (70, 55)]) x y
  then (100, 95, 85, 255)
  else transparent.

(** * Rounding to nearest never passes a representable bound

    The float operations of the blend are analysed through exact values:
    when the exact result of an operation on non-negative floats is at most
    [mb * 2^eb], a number of the format, so is the rounded result. *)

Section Rounding.
Variable scale : Z.
Hypothesis scale_big : 4096 <= scale.
Local Abbreviation fval := (scaled_value scale).


Lemma digits2_pos_size m : digits2_pos m = Pos.size m.
Proof. induction m; simpl; congruence. Qed.

Lemma digits2_bounds m :
  2 ^ (Zpos (digits2_pos m) - 1) <= Zpos m < 2 ^ Zpos (digits2_pos m).
Proof.
  rewrite digits2_pos_size. split.
  - pose proof (Pos.size_le m) as H.
    assert (Hz : Zpos (2 ^ Pos.size m) <= Zpos m~0) by exact H.
    rewrite Pos2Z.inj_pow in Hz.
    replace (Zpos (Pos.size m)) with (Z.succ (Zpos (Pos.size m) - 1)) in Hz by lia.
    rewrite Z.pow_succ_r in Hz by lia. lia.
  - pose proof (Pos.size_gt m) as H.
    assert (Hz : Zpos m < Zpos (2 ^ Pos.size m)) by exact H.
    now rewrite Pos2Z.inj_pow in Hz.
Qed.


Lemma div_pow2_succ m k : 0 <= k -> m / 2 ^ (k + 1) = m / 2 ^ k / 2.
Proof.
  intros Hk. rewrite Z.pow_add_r, Z.pow_1_r by lia.
  rewrite Z.div_div; try lia. 
Qed.

Lemma mod_pow2_succ m k :
  0 <= k -> m mod 2 ^ (k + 1) = 0 -> m mod 2 ^ k = 0 /\ (m / 2 ^ k) mod 2 = 0.
Proof.
  intros Hk H. assert (Hp : 0 < 2 ^ k) by (apply Z.pow_pos_nonneg; lia).
  apply Z.mod_divide in H; [|rewrite Z.pow_add_r by lia; lia].
  destruct H as [c Hc]. rewrite Z.pow_add_r, Z.pow_1_r in Hc by lia.
  assert (Hm : m = (c * 2) * 2 ^ k) by lia.
  rewrite Hm. rewrite Z.mod_mul, Z.div_mul by lia. split; [lia|].
  apply Z.mod_mul. lia.
Qed.

Lemma shr_1_inv m k mrs :
  0 <= m -> 0 <= k -> shr_inv m k mrs -> shr_inv m (k + 1) (shr_1 mrs).
Proof.
  intros Hm Hk [Hq Hz]. destruct mrs as [q r s]; cbn [shr_m shr_r shr_s] in *.
  assert (Hq0 : 0 <= q).
  { rewrite Hq. apply Z.div_pos; [lia|]. apply Z.pow_pos_nonneg; lia. }
  unfold shr_inv. rewrite div_pow2_succ by lia. rewrite <- Hq.
  assert (Hs : m mod 2 ^ (k + 1) = 0 -> (r || s = false) /\ q mod 2 = 0).
  { intros H. apply mod_pow2_succ in H; [|lia]. destruct H as [H1 H2].
    destruct (Hz H1) as [-> ->]. rewrite Hq. auto. }
  destruct q as [|[p|p|]|p]; cbn [shr_1 shr_m shr_r shr_s]; try lia.
  - split; [reflexivity|]. intros H. destruct (Hs H) as [-> _]. auto.
  - assert (Hp : Zpos p~1 = 2 * Zpos p + 1) by apply Pos2Z.inj_xI.
    split; [Z.div_mod_to_equations; lia|]. intros H. destruct (Hs H) as [_ H2].
    Z.div_mod_to_equations; lia.
  - assert (Hp : Zpos p~0 = 2 * Zpos p) by apply Pos2Z.inj_xO.
    split; [Z.div_mod_to_equations; lia|]. intros H. destruct (Hs H) as [-> _]. auto.
  - split; [reflexivity|]. intros H. destruct (Hs H) as [_ H2]. discriminate H2.
Qed.

Lemma iter_shr_inv p : forall m k mrs,
  0 <= m -> 0 <= k -> shr_inv m k mrs ->
  shr_inv m (k + Zpos p) (SpecFloat.iter_pos shr_1 p mrs).
Proof.
  induction p as [p IH|p IH|]; intros m k mrs Hm Hk H; simpl.
  - replace (k + Zpos p~1) with (k + 1 + Zpos p + Zpos p) by lia.
    apply IH; try lia. apply IH; try lia. now apply shr_1_inv.
  - replace (k + Zpos p~0) with (k + Zpos p + Zpos p) by lia.
    apply IH; try lia. now apply IH.
  - now apply shr_1_inv.
Qed.

Lemma round_nearest_even_bounds q l :
  q <= round_nearest_even q l <= q + 1.
Proof. destruct l as [|[]]; simpl; try lia. destruct (Z.even q); lia. Qed.

(** One [shr_fexp] of an exactly known mantissa: a floor division. *)
Lemma shr_fexp_exact m e :
  0 <= m ->
  exists n, 0 <= n /\
    n = Z.max 0 (fexp prec emax (Zdigits2 m + e) - e) /\
    snd (shr_fexp prec emax m e loc_Exact) = e + n /\
    shr_m (fst (shr_fexp prec emax m e loc_Exact)) = m / 2 ^ n /\
    (m mod 2 ^ n = 0 ->
     loc_of_shr_record (fst (shr_fexp prec emax m e loc_Exact)) = loc_Exact).
Proof.
  intros Hm. unfold shr_fexp, shr. simpl shr_record_of_loc.
  destruct (fexp prec emax (Zdigits2 m + e) - e) as [|p|p] eqn:Hn.
  - exists 0. simpl. rewrite Z.div_1_r. repeat split; try lia.
  - exists (Zpos p). 
    assert (H0 : shr_inv m 0 {| shr_m := m; shr_r := false; shr_s := false |}).
    { split; simpl; [now rewrite Z.div_1_r|auto]. }
    apply (iter_shr_inv p) in H0; try lia. simpl in H0. destruct H0 as [H1 H2].
    simpl. repeat split; try lia; auto.
    intros H. destruct (H2 H) as [Hr Hs].
    destruct (SpecFloat.iter_pos shr_1 p _) as [q r s]; simpl in *. now subst.
  - exists 0. simpl. rewrite Z.div_1_r. repeat split; try lia.
Qed.

Lemma fexp_eq x : fexp prec emax x = Z.max (x - 53) (-1074).
Proof. reflexivity. Qed.

Lemma pow2_gt0 a : 0 <= a -> 0 < 2 ^ a.
Proof. intros. apply Z.pow_pos_nonneg; lia. Qed.

Lemma pow2_split a b : 0 <= a -> 0 <= b -> 2 ^ (a + b) = 2 ^ a * 2 ^ b.
Proof. intros. apply Z.pow_add_r; lia. Qed.

Lemma pow2_le_inv a b : 0 <= a -> 0 <= b -> 2 ^ a <= 2 ^ b -> a <= b.
Proof. intros Ha Hb H. apply (Z.pow_le_mono_r_iff 2); lia. Qed.

Lemma pow2_le a b : 0 <= a <= b -> 2 ^ a <= 2 ^ b.
Proof. intros. apply Z.pow_le_mono_r; lia. Qed.

Lemma Zdigits2_bounds q :
  0 < q -> 2 ^ (Zdigits2 q - 1) <= q < 2 ^ Zdigits2 q.
Proof. destruct q as [|p|p]; try lia. intros _. apply digits2_bounds. Qed.

(** the exponent of a value that is at most [mb * 2^eb] with [mb <= 2^53] *)
Lemma digits_exp_le q e mb eb :
  0 < q -> - scale <= e -> - scale <= eb -> 0 <= mb <= 2 ^ 53 ->
  q * 2 ^ (e + scale) <= mb * 2 ^ (eb + scale) ->
  Zdigits2 q + e <= 54 + eb.
Proof.
  intros Hq He Heb Hmb H.
  destruct (Zdigits2_bounds q Hq) as [Hd _].
  assert (Hd1 : 1 <= Zdigits2 q) by (destruct q; simpl in *; lia).
  assert (H1 : 2 ^ (Zdigits2 q - 1 + (e + scale)) <= 2 ^ (53 + (eb + scale))).
  { rewrite (pow2_split (Zdigits2 q - 1)), (pow2_split 53) by lia.
    pose proof (pow2_gt0 (e + scale) ltac:(lia)).
    pose proof (pow2_gt0 (eb + scale) ltac:(lia)).
    apply Z.le_trans with (q * 2 ^ (e + scale));
      [apply Z.mul_le_mono_nonneg_r; lia|].
    apply Z.le_trans with (mb * 2 ^ (eb + scale));
      [lia|apply Z.mul_le_mono_nonneg_r; lia]. }
  apply pow2_le_inv in H1; lia.
Qed.


(** rounding up never passes a bound that is itself representable *)
Lemma round_up_le m e n mb eb :
  0 < m -> - scale <= e -> -1074 <= eb <= 0 -> 0 <= mb <= 2 ^ 53 ->
  n = Z.max 0 (Z.max (Zdigits2 m + e - 53) (-1074) - e) ->
  m mod 2 ^ n <> 0 ->
  m * 2 ^ (e + scale) <= mb * 2 ^ (eb + scale) ->
  (m / 2 ^ n + 1) * 2 ^ (e + n + scale) <= mb * 2 ^ (eb + scale).
Proof.
  intros Hm He Heb Hmb Hn Hmod HB.
  assert (Hn0 : 0 <= n) by lia.
  pose proof (pow2_gt0 n Hn0) as HN.
  pose proof (pow2_gt0 (e + scale) ltac:(lia)) as HP.
  replace (e + n + scale) with (n + (e + scale)) by lia.
  rewrite (pow2_split n) by lia.
  set (N := 2 ^ n) in *. set (P := 2 ^ (e + scale)) in *.
  set (m1 := m / N).
  assert (Hdiv : m1 * N + 1 <= m).
  { pose proof (Z.div_mod m N ltac:(lia)) as Hdm.
    pose proof (Z.mod_pos_bound m N HN). fold m1 in Hdm. lia. }
  destruct (Z_le_gt_dec (e + n) eb) as [Hle|Hgt].
  - replace (eb + scale) with ((eb - (e + n)) + (n + (e + scale))) in * by lia.
    rewrite (pow2_split (eb - (e + n))) in * by lia.
    rewrite (pow2_split n) in * by lia. fold N P in HB |- *.
    pose proof (pow2_gt0 (eb - (e + n)) ltac:(lia)) as HQ.
    set (Q := 2 ^ (eb - (e + n))) in *.
    assert (HNP : 0 < N * P) by nia.
    assert (H1 : m1 * (N * P) + P <= m * P) by nia.
    assert (H2 : m1 * (N * P) < (mb * Q) * (N * P)) by lia.
    apply Z.mul_lt_mono_pos_r in H2; [|exact HNP].
    replace (mb * (Q * (N * P))) with ((mb * Q) * (N * P)) by ring.
    apply Z.mul_le_mono_nonneg_r; lia.
  - exfalso.
    assert (Hnz : n <> 0).
    { intros ->. apply Hmod. unfold N. rewrite Z.pow_0_r. apply Z.mod_1_r. }
    assert (Hnd : n = Zdigits2 m - 53) by lia.
    destruct (Zdigits2_bounds m Hm) as [Hd _].
    replace (Zdigits2 m - 1) with (52 + n) in Hd by lia.
    rewrite (pow2_split 52) in Hd by lia. fold N in Hd.
    assert (Hm1 : 2 ^ 52 <= m1).
    { unfold m1. apply Z.div_le_lower_bound; lia. }
    assert (HBle : mb * 2 ^ (eb + scale) <= 2 ^ 52 * (N * P)).
    { apply Z.le_trans with (2 ^ 53 * 2 ^ (eb + scale)).
      - apply Z.mul_le_mono_nonneg_r; [|lia].
        pose proof (pow2_gt0 (eb + scale) ltac:(lia)). lia.
      - unfold N, P. rewrite <- (pow2_split n) by lia.
        change (2 ^ 53) with (2 ^ 52 * 2 ^ 1).
        rewrite <- Z.mul_assoc. rewrite <- (pow2_split 1) by lia.
        apply Z.mul_le_mono_nonneg_l; [lia|]. apply pow2_le. lia. }
    assert (H1 : m1 * (N * P) + P <= m * P) by nia.
    assert (H2 : 2 ^ 52 * (N * P) <= m1 * (N * P)).
    { apply Z.mul_le_mono_nonneg_r; nia. }
    lia.
Qed.

Lemma floor_scaled_le q n e1 :
  0 <= q -> 0 <= n -> 0 <= e1 + scale ->
  (q / 2 ^ n) * 2 ^ (e1 + n + scale) <= q * 2 ^ (e1 + scale).
Proof.
  intros Hq Hn He. replace (e1 + n + scale) with (n + (e1 + scale)) by lia.
  rewrite (pow2_split n) by lia.
  pose proof (pow2_gt0 n Hn) as HN. pose proof (pow2_gt0 (e1 + scale) He) as HP.
  pose proof (Z.div_mod q (2 ^ n) ltac:(lia)) as Hdm.
  pose proof (Z.mod_pos_bound q (2 ^ n) HN).
  rewrite Z.mul_assoc. apply Z.mul_le_mono_nonneg_r; lia.
Qed.

Lemma round_aux_le (m : positive) (e mb eb : Z) :
  - scale <= e -> -1074 <= eb <= 0 -> 0 <= mb <= 2 ^ 53 ->
  Zpos m * 2 ^ (e + scale) <= mb * 2 ^ (eb + scale) ->
  fnonneg (binary_round_aux prec emax false (Zpos m) e loc_Exact) /\
  fval (binary_round_aux prec emax false (Zpos m) e loc_Exact)
    <= mb * 2 ^ (eb + scale).
Proof.
  intros He Heb Hmb HB.
  unfold binary_round_aux.
  destruct (shr_fexp_exact (Zpos m) e ltac:(lia)) as (n & Hn0 & Hn & He1 & Hm1 & Hex).
  destruct (shr_fexp prec emax (Zpos m) e loc_Exact) as [mrs1 e1].
  cbn [fst snd] in *. rewrite fexp_eq in Hn.
  pose proof (round_nearest_even_bounds (shr_m mrs1) (loc_of_shr_record mrs1)) as Hr.
  assert (Hexact : Zpos m mod 2 ^ n = 0 ->
            round_nearest_even (shr_m mrs1) (loc_of_shr_record mrs1) = shr_m mrs1).
  { intros H. now rewrite (Hex H). }
  set (m2 := round_nearest_even (shr_m mrs1) (loc_of_shr_record mrs1)) in *.
  pose proof (digits_exp_le (Zpos m) e mb eb ltac:(lia) He ltac:(lia) Hmb HB) as Hde.
  assert (Hd1 : 1 <= Zdigits2 (Zpos m)) by (simpl; lia).
  assert (Hm1' : 0 <= shr_m mrs1).
  { rewrite Hm1. apply Z.div_pos; [lia|apply pow2_gt0; lia]. }
  assert (H2 : m2 * 2 ^ (e1 + scale) <= mb * 2 ^ (eb + scale)).
  { destruct (Z.eq_dec (Zpos m mod 2 ^ n) 0) as [Hz|Hnz].
    - rewrite (Hexact Hz), Hm1, He1.
      eapply Z.le_trans; [apply floor_scaled_le; lia|exact HB].
    - apply Z.le_trans with ((Zpos m / 2 ^ n + 1) * 2 ^ (e + n + scale)).
      + rewrite He1. apply Z.mul_le_mono_nonneg_r; [|lia].
        pose proof (pow2_gt0 (e + n + scale) ltac:(lia)). lia.
      + apply round_up_le; auto; lia. }
  destruct (shr_fexp_exact m2 e1 ltac:(lia)) as (n2 & Hn20 & Hn2 & He2 & Hm3 & _).
  destruct (shr_fexp prec emax m2 e1 loc_Exact) as [mrs2 e2].
  cbn [fst snd] in *. rewrite fexp_eq in Hn2.
  assert (H3 : shr_m mrs2 * 2 ^ (e2 + scale) <= mb * 2 ^ (eb + scale)).
  { rewrite Hm3, He2. eapply Z.le_trans; [apply floor_scaled_le; lia|exact H2]. }
  destruct (shr_m mrs2) as [|p|p] eqn:Hp.
  - simpl. split; [exact I|].
    pose proof (pow2_gt0 (eb + scale) ltac:(lia)). lia.
  - assert (Hm2 : 0 < m2).
    { destruct (Z_lt_le_dec 0 m2) as [|Hle]; [assumption|].
      assert (m2 = 0) by lia. subst m2. rewrite H in Hm3.
      rewrite Z.div_0_l in Hm3; [lia|]. pose proof (pow2_gt0 n2 Hn20). lia. }
    pose proof (digits_exp_le m2 e1 mb eb Hm2 ltac:(lia) ltac:(lia) Hmb H2) as Hde2.
    assert (Hle : (e2 <=? emax - prec) = true).
    { apply Z.leb_le. unfold emax, prec. lia. }
    rewrite Hle. split.
    + simpl. change (emin prec emax) with (-1074). lia.
    + simpl. exact H3.
  - exfalso. assert (0 <= m2 / 2 ^ n2); [|lia].
    apply Z.div_pos; [lia|apply pow2_gt0; lia].
Qed.

Lemma iter_xO_pow m d : Zpos (Pos.iter xO m d) = Zpos m * 2 ^ Zpos d.
Proof.
  change (Pos.iter xO m d) with (shift_pos d m).
  rewrite shift_pos_correct. change (Z.pow_pos 2 d) with (2 ^ Zpos d). ring.
Qed.

Lemma shl_align_spec m e e' :
  snd (shl_align m e e') = Z.min e e' /\
  Zpos (fst (shl_align m e e')) = Zpos m * 2 ^ (e - Z.min e e').
Proof.
  unfold shl_align. destruct (e' - e) as [|d|d] eqn:Hd; cbn [fst snd].
  - replace (Z.min e e') with e by lia. rewrite Z.sub_diag. simpl. lia.
  - replace (Z.min e e') with e by lia. rewrite Z.sub_diag. simpl. lia.
  - replace (Z.min e e') with e' by lia. rewrite iter_xO_pow.
    replace (e - e') with (Zpos d) by lia. auto.
Qed.

Lemma shl_align_fval m e e' :
  - scale <= e -> - scale <= e' ->
  Zpos (fst (shl_align m e e')) * 2 ^ (snd (shl_align m e e') + scale)
  = Zpos m * 2 ^ (e + scale).
Proof.
  intros He He'. destruct (shl_align_spec m e e') as [-> ->].
  rewrite <- Z.mul_assoc. rewrite <- pow2_split by lia. f_equal. f_equal. lia.
Qed.

Lemma binary_round_le p e mb eb :
  -1074 <= e -> -1074 <= eb <= 0 -> 0 <= mb <= 2 ^ 53 ->
  Zpos p * 2 ^ (e + scale) <= mb * 2 ^ (eb + scale) ->
  fnonneg (binary_round prec emax false p e) /\
  fval (binary_round prec emax false p e) <= mb * 2 ^ (eb + scale).
Proof.
  intros He Heb Hmb HB. unfold binary_round.
  pose proof (shl_align_fval p e (fexp prec emax (Zpos (digits2_pos p) + e))) as Hv.
  destruct (shl_align_spec p e (fexp prec emax (Zpos (digits2_pos p) + e))) as [Hs _].
  rewrite fexp_eq in *.
  destruct (shl_align p e _) as [mz ez]. cbn [fst snd] in *.
  apply round_aux_le; lia.
Qed.

Lemma fval_nonneg f : 0 <= fval f.
Proof.
  destruct f as [| | |[] m e]; cbn [scaled_value]; lia.
Qed.

Lemma bound_nonneg mb eb : 0 <= mb -> 0 <= mb * 2 ^ (eb + scale).
Proof. intros. apply Z.mul_nonneg_nonneg; [lia|]. apply Z.pow_nonneg. lia. Qed.

Lemma fmul_le x y n1 j1 n2 j2 :
  fnonneg x -> fnonneg y -> 0 <= n1 -> 0 <= n2 -> n1 * n2 <= 2 ^ 53 ->
  -1074 <= j1 <= 0 -> -1074 <= j2 <= 0 -> -1074 <= j1 + j2 ->
  fval x <= n1 * 2 ^ (j1 + scale) -> fval y <= n2 * 2 ^ (j2 + scale) ->
  fnonneg (SFmul prec emax x y) /\
  fval (SFmul prec emax x y) <= (n1 * n2) * 2 ^ (j1 + j2 + scale).
Proof.
  intros Hx Hy Hn1 Hn2 Hn Hj1 Hj2 Hj Hvx Hvy.
  assert (Hb : 0 <= n1 * n2 * 2 ^ (j1 + j2 + scale)) by (apply bound_nonneg; nia).
  destruct x as [sx| | |[] mx ex], y as [sy| | |[] my ey]; simpl in Hx, Hy;
    try contradiction; try (split; [exact I|exact Hb]).
  cbn [SFmul xorb]. change (emin prec emax) with (-1074) in *.
  apply round_aux_le; try lia.
  cbn [scaled_value] in Hvx, Hvy. rewrite Pos2Z.inj_mul.
  pose proof (pow2_gt0 scale ltac:(lia)) as HS.
  apply Z.mul_le_mono_pos_r with (p := 2 ^ scale); [exact HS|].
  replace (Zpos mx * Zpos my * 2 ^ (ex + ey + scale) * 2 ^ scale)
    with ((Zpos mx * 2 ^ (ex + scale)) * (Zpos my * 2 ^ (ey + scale))).
  2:{ rewrite <- !Z.mul_assoc. f_equal. rewrite <- (pow2_split (ex + ey + scale)) by lia.
      rewrite (Z.mul_comm (2 ^ (ex + scale))), <- Z.mul_assoc. f_equal.
      rewrite <- pow2_split by lia. f_equal. lia. }
  replace (n1 * n2 * 2 ^ (j1 + j2 + scale) * 2 ^ scale)
    with ((n1 * 2 ^ (j1 + scale)) * (n2 * 2 ^ (j2 + scale))).
  2:{ rewrite <- !Z.mul_assoc. f_equal. rewrite <- (pow2_split (j1 + j2 + scale)) by lia.
      rewrite (Z.mul_comm (2 ^ (j1 + scale))), <- Z.mul_assoc. f_equal.
      rewrite <- pow2_split by lia. f_equal. lia. }
  pose proof (pow2_gt0 (ex + scale) ltac:(lia)). pose proof (pow2_gt0 (ey + scale) ltac:(lia)).
  apply Z.mul_le_mono_nonneg; lia.
Qed.

Lemma aligned_fval mx ex ey :
  -1074 <= ex -> -1074 <= ey ->
  Zpos (fst (shl_align mx ex (Z.min ex ey))) * 2 ^ (Z.min ex ey + scale)
  = Zpos mx * 2 ^ (ex + scale).
Proof.
  intros Hx Hy.
  pose proof (shl_align_fval mx ex (Z.min ex ey) ltac:(lia) ltac:(lia)) as Hv.
  destruct (shl_align_spec mx ex (Z.min ex ey)) as [Hs _].
  rewrite Hs in Hv. replace (Z.min ex (Z.min ex ey)) with (Z.min ex ey) in Hv by lia.
  exact Hv.
Qed.

Lemma fadd_le x y n1 n2 j :
  fnonneg x -> fnonneg y -> 0 <= n1 -> 0 <= n2 -> n1 + n2 <= 2 ^ 53 ->
  -1074 <= j <= 0 ->
  fval x <= n1 * 2 ^ (j + scale) -> fval y <= n2 * 2 ^ (j + scale) ->
  fnonneg (SFadd prec emax x y) /\
  fval (SFadd prec emax x y) <= (n1 + n2) * 2 ^ (j + scale).
Proof.
  intros Hx Hy Hn1 Hn2 Hn Hj Hvx Hvy.
  pose proof (pow2_gt0 (j + scale) ltac:(lia)) as HP.
  assert (Hb : 0 <= (n1 + n2) * 2 ^ (j + scale)) by (apply bound_nonneg; lia).
  assert (Hb1 : n1 * 2 ^ (j + scale) <= (n1 + n2) * 2 ^ (j + scale)) by nia.
  assert (Hb2 : n2 * 2 ^ (j + scale) <= (n1 + n2) * 2 ^ (j + scale)) by nia.
  destruct x as [sx| | |[] mx ex], y as [sy| | |[] my ey]; simpl in Hx, Hy;
    try contradiction.
  - split; [destruct sx, sy; exact I|]. destruct sx, sy; exact Hb.
  - cbn [SFadd]. split; [exact Hy|lia].
  - cbn [SFadd]. split; [exact Hx|lia].
  - change (emin prec emax) with (-1074) in *.
    cbn [SFadd cond_Zopp scaled_value] in *.
    set (ez := Z.min ex ey).
    pose proof (aligned_fval mx ex ey Hx Hy) as Ha.
    pose proof (aligned_fval my ey ex Hy Hx) as Hc.
    rewrite (Z.min_comm ey ex) in Hc. fold ez in Ha, Hc.
    set (a := fst (shl_align mx ex ez)) in *.
    set (c := fst (shl_align my ey ez)) in *.
    change (Zpos a + Zpos c) with (Zpos (a + c)). cbn [binary_normalize].
    apply binary_round_le; lia.
Qed.

Lemma fsub_le x y n1 n2 j :
  fnonneg x -> fnonneg y -> 0 <= n2 <= n1 -> n1 <= 2 ^ 53 ->
  -1074 <= j <= 0 ->
  fval x <= n1 * 2 ^ (j + scale) -> n2 * 2 ^ (j + scale) <= fval y ->
  fval y <= fval x ->
  fnonneg (SFsub prec emax x y) /\
  fval (SFsub prec emax x y) <= (n1 - n2) * 2 ^ (j + scale).
Proof.
  intros Hx Hy Hn Hn1 Hj Hvx Hvy Hyx.
  pose proof (pow2_gt0 (j + scale) ltac:(lia)) as HP.
  assert (Hb : 0 <= (n1 - n2) * 2 ^ (j + scale)) by (apply bound_nonneg; lia).
  destruct x as [sx| | |[] mx ex], y as [sy| | |[] my ey]; simpl in Hx, Hy;
    try contradiction.
  - split; [destruct sx, sy; exact I|]. destruct sx, sy; exact Hb.
  - exfalso. cbn [scaled_value] in Hyx.
    change (emin prec emax) with (-1074) in *.
    pose proof (pow2_gt0 (ey + scale) ltac:(lia)). nia.
  - cbn [SFsub]. split; [exact Hx|]. cbn [scaled_value] in Hvy. nia.
  - change (emin prec emax) with (-1074) in *.
    cbn [SFsub cond_Zopp scaled_value] in *.
    set (ez := Z.min ex ey).
    pose proof (aligned_fval mx ex ey Hx Hy) as Ha.
    pose proof (aligned_fval my ey ex Hy Hx) as Hc.
    rewrite (Z.min_comm ey ex) in Hc. fold ez in Ha, Hc.
    set (a := fst (shl_align mx ex ez)) in *.
    set (c := fst (shl_align my ey ez)) in *.
    pose proof (pow2_gt0 (ez + scale) ltac:(lia)) as HE.
    destruct (Zpos a - Zpos c) as [|p|p] eqn:Hd; cbn [binary_normalize].
    + split; [exact I|exact Hb].
    + apply binary_round_le; lia.
    + exfalso. assert (Zpos a < Zpos c) by lia. nia.
Qed.





Lemma fval_one : fval float_one = 256 * 2 ^ (-8 + scale).
Proof.
  unfold float_one, scaled_value.
  change 4503599627370496 with (2 ^ 52). change 256 with (2 ^ 8).
  rewrite <- !pow2_split by lia. f_equal; lia.
Qed.

Lemma float_of_int_le r :
  0 <= r <= 2 ^ 53 ->
  exists R, float_of_int r = Some R /\ fnonneg R /\ fval R <= r * 2 ^ (0 + scale).
Proof.
  intros Hr. unfold float_of_int. destruct r as [|p|p]; try lia.
  - exists (S754_zero false). cbn. repeat split; lia.
  - cbn [binary_normalize].
    destruct (binary_round_le p 0 (Zpos p) 0) as [Hn Hv]; try lia.
    destruct (binary_round prec emax false p 0) as [s| | |s m e] eqn:E;
      try contradiction; eexists; (split; [reflexivity|split; assumption]).
Qed.

Lemma unit_float_le f :
  unit_float f = true -> fnonneg f /\ fval f <= 256 * 2 ^ (-8 + scale).
Proof.
  unfold unit_float. rewrite !andb_true_iff. intros [[Hv H0] H1].
  assert (Hone : 256 * 2 ^ (-8 + scale) = 2 ^ 52 * 2 ^ (-52 + scale)).
  { change 256 with (2 ^ 8). rewrite <- !pow2_split by lia. f_equal; lia. }
  destruct f as [s|s| |s m e]; try discriminate.
  - split; [exact I|]. cbn [scaled_value]. lia.
  - destruct s; discriminate.
  - destruct s; [discriminate|].
    cbn [valid_binary] in Hv. unfold bounded, canonical_mantissa in Hv.
    apply andb_true_iff in Hv. destruct Hv as [Hc _].
    apply Z.eqb_eq in Hc. rewrite fexp_eq in Hc.
    destruct (digits2_bounds m) as [_ Hd].
    split; [cbn; change (emin prec emax) with (-1074); lia|].
    unfold SFleb, SFcompare, float_one in H1. cbn [scaled_value].
    rewrite Hone.
    destruct (Z.compare_spec e (-52)) as [He|He|He]; try discriminate.
    + subst e. apply Z.mul_le_mono_nonneg_r; [apply Z.pow_nonneg; lia|].
      rewrite Pos.compare_cont_spec in H1. cbn [Pos.switch_Eq] in H1.
      change (2 ^ 52) with (Zpos 4503599627370496).
      apply Pos2Z.pos_le_pos, Pos.compare_le_iff. intros Hgt.
      rewrite Hgt in H1. discriminate H1.
    + apply Z.le_trans with (2 ^ 53 * 2 ^ (e + scale)).
      * apply Z.mul_le_mono_nonneg_r; [apply Z.pow_nonneg; lia|].
        assert (2 ^ Zpos (digits2_pos m) <= 2 ^ 53) by (apply pow2_le; lia). lia.
      * rewrite <- !pow2_split by lia. apply pow2_le. lia.
Qed.

Lemma float_int_lt f n :
  fnonneg f -> fval f < n * 2 ^ scale ->
  exists v, float_int f = Some v /\ 0 <= v < n.
Proof.
  intros Hf Hv.
  pose proof (pow2_gt0 scale ltac:(lia)) as HS.
  destruct f as [s| | |[] m e]; simpl in Hf; try contradiction.
  - exists 0. split; [reflexivity|]. cbn [scaled_value] in Hv. nia.
  - change (emin prec emax) with (-1074) in Hf.
    exists (Z.shiftl (Zpos m) e). split; [reflexivity|].
    cbn [scaled_value] in Hv. split; [apply Z.shiftl_nonneg; lia|].
    destruct (Z_le_gt_dec 0 e) as [He|He].
    + rewrite Z.shiftl_mul_pow2 by lia.
      rewrite (pow2_split e) in Hv by lia. rewrite Z.mul_assoc in Hv.
      apply Z.mul_lt_mono_pos_r in Hv; lia.
    + rewrite Z.shiftl_div_pow2 by lia.
      pose proof (pow2_gt0 (- e) ltac:(lia)) as HE.
      apply Z.div_lt_upper_bound; [lia|].
      replace scale with (- e + (e + scale)) in Hv at 2 by lia.
      rewrite (pow2_split (- e)) in Hv by lia.
      pose proof (pow2_gt0 (e + scale) ltac:(lia)) as HP.
      rewrite Z.mul_assoc in Hv. apply Z.mul_lt_mono_pos_r in Hv; lia.
Qed.

Lemma float_of_int_1 : float_of_int 1 = Some float_one.
Proof. reflexivity. Qed.

(** The blend of two 8-bit channels at a float intensity of the unit
    interval is an 8-bit channel: with [k/256 <= t <= (k+1)/256],
    [1 - t <= (256-k)/256], so that the two products are at most
    [r*(256-k)/256] and [c*(k+1)/256], and their sum is below 256. *)
Lemma blend_float_range r c t :
  0 <= r <= 255 -> 0 <= c <= 255 -> unit_float t = true ->
  exists v, blend r c (PyFloat t) = Some v /\ 0 <= v <= 255.
Proof.
  intros Hr Hc Ht. destruct (unit_float_le t Ht) as [Hn Hv].
  pose proof (pow2_gt0 (-8 + scale) ltac:(lia)) as HP.
  pose proof (fval_nonneg t) as Ht0.
  set (P := 2 ^ (-8 + scale)) in *.
  set (k := fval t / P).
  assert (Hk : k * P <= fval t < (k + 1) * P).
  { pose proof (Z.div_mod (fval t) P ltac:(lia)) as Hdm.
    pose proof (Z.mod_pos_bound (fval t) P HP). fold k in Hdm. lia. }
  assert (Hk0 : 0 <= k <= 256).
  { split; [apply Z.div_pos; lia|]. apply Z.div_le_upper_bound; lia. }
  unfold blend, sub, mul, add, arith. rewrite float_of_int_1.
  assert (H1n : fnonneg float_one).
  { cbn. change (emin prec emax) with (-1074). lia. }
  assert (H1v : fval float_one = 256 * P) by apply fval_one.
  destruct (fsub_le float_one t 256 k (-8) H1n Hn) as [Hun Huv];
    fold P; try lia.
  fold P in Huv. fold fsub in Hun, Huv. set (u := fsub float_one t) in *.
  destruct (float_of_int_le r ltac:(lia)) as (R & HR & HRn & HRv).
  destruct (float_of_int_le c ltac:(lia)) as (C & HC & HCn & HCv).
  rewrite HR, HC.
  destruct (fmul_le R u r 0 (256 - k) (-8)) as [Han Hav];
    fold P; try lia; try assumption; try nia.
  destruct (fmul_le C t c 0 (k + 1) (-8)) as [Hbn Hbv];
    fold P; try lia; try assumption; try nia.
  change (0 + -8 + scale) with (-8 + scale) in Hav, Hbv. fold P in Hav, Hbv.
  fold fmul in Han, Hav, Hbn, Hbv.
  set (a := fmul R u) in *. set (b := fmul C t) in *.
  assert (Hsum : r * (256 - k) + c * (k + 1) <= 65535).
  { assert (r * (256 - k) <= 255 * (256 - k)) by (apply Z.mul_le_mono_nonneg_r; lia).
    assert (c * (k + 1) <= 255 * (k + 1)) by (apply Z.mul_le_mono_nonneg_r; lia).
    lia. }
  destruct (fadd_le a b (r * (256 - k)) (c * (k + 1)) (-8)) as [Hsn Hsv];
    fold P; try lia; try assumption; try nia.
  fold P in Hsv. fold fadd in Hsn, Hsv. set (s := fadd a b) in *.
  destruct (float_int_lt s 256 Hsn) as (v & Hv1 & Hv2).
  { assert (HS : 2 ^ scale = 256 * P).
    { unfold P. change 256 with (2 ^ 8). rewrite <- pow2_split by lia. f_equal; lia. }
    rewrite HS.
    apply Z.le_lt_trans with (65535 * P); [|lia].
    eapply Z.le_trans; [exact Hsv|]. apply Z.mul_le_mono_nonneg_r; lia. }
  exists v. split; [exact Hv1|lia].
Qed.

(** ** Lower bounds

    The same holds from below: when the exact result is at least
    [mb * 2^eb], so is the rounded result. *)

(** the floor division of a [shr_fexp] stays above a representable bound *)
Lemma floor_scaled_ge m e n mb eb :
  0 < m -> - scale <= e -> -1074 <= eb -> 0 <= mb <= 2 ^ 53 ->
  n = Z.max 0 (Z.max (Zdigits2 m + e - 53) (-1074) - e) ->
  mb * 2 ^ (eb + scale) <= m * 2 ^ (e + scale) ->
  mb * 2 ^ (eb + scale) <= (m / 2 ^ n) * 2 ^ (e + n + scale).
Proof.
  intros Hm He Heb Hmb Hn HB.
  assert (Hn0 : 0 <= n) by lia.
  pose proof (pow2_gt0 n Hn0) as HN.
  pose proof (pow2_gt0 (e + scale) ltac:(lia)) as HP.
  destruct (Z.eq_dec n 0) as [Hz|Hnz].
  { rewrite Hz, Z.pow_0_r, Z.div_1_r, Z.add_0_r. exact HB. }
  replace (e + n + scale) with (n + (e + scale)) by lia.
  rewrite (pow2_split n) by lia.
  set (N := 2 ^ n) in *. set (P := 2 ^ (e + scale)) in *.
  assert (HNP : 0 < N * P) by nia.
  destruct (Z_le_gt_dec (e + n) eb) as [Hle|Hgt].
  - replace (eb + scale) with ((eb - (e + n)) + (n + (e + scale))) in * by lia.
    rewrite (pow2_split (eb - (e + n))) in * by lia.
    rewrite (pow2_split n) in * by lia. fold N P in HB |- *.
    pose proof (pow2_gt0 (eb - (e + n)) ltac:(lia)) as HQ.
    set (Q := 2 ^ (eb - (e + n))) in *.
    rewrite Z.mul_assoc. apply Z.mul_le_mono_nonneg_r; [lia|].
    apply Z.div_le_lower_bound; [exact HN|].
    apply Z.mul_le_mono_pos_r with (p := P); [exact HP|].
    replace (N * (mb * Q) * P) with (mb * (Q * (N * P))) by ring. exact HB.
  - assert (Hnd : n = Zdigits2 m - 53) by lia.
    destruct (Zdigits2_bounds m Hm) as [Hd _].
    replace (Zdigits2 m - 1) with (52 + n) in Hd by lia.
    rewrite (pow2_split 52) in Hd by lia. fold N in Hd.
    assert (Hm1 : 2 ^ 52 <= m / N).
    { apply Z.div_le_lower_bound; lia. }
    apply Z.le_trans with (2 ^ 52 * (N * P)).
    + apply Z.le_trans with (2 ^ 53 * 2 ^ (eb + scale)).
      * apply Z.mul_le_mono_nonneg_r; [|lia].
        pose proof (pow2_gt0 (eb + scale) ltac:(lia)). lia.
      * unfold N, P. rewrite <- (pow2_split n) by lia.
        change (2 ^ 53) with (2 ^ 52 * 2 ^ 1).
        rewrite <- Z.mul_assoc. rewrite <- (pow2_split 1) by lia.
        apply Z.mul_le_mono_nonneg_l; [lia|]. apply pow2_le. lia.
    + apply Z.mul_le_mono_nonneg_r; lia.
Qed.

Lemma round_aux_ge (m : positive) (e mb eb : Z) :
  - scale <= e -> -1074 <= eb -> 0 <= mb <= 2 ^ 53 ->
  mb * 2 ^ (eb + scale) <= Zpos m * 2 ^ (e + scale) ->
  fnonneg (binary_round_aux prec emax false (Zpos m) e loc_Exact) ->
  mb * 2 ^ (eb + scale)
    <= fval (binary_round_aux prec emax false (Zpos m) e loc_Exact).
Proof.
  intros He Heb Hmb HB. unfold binary_round_aux.
  destruct (shr_fexp_exact (Zpos m) e ltac:(lia)) as (n & Hn0 & Hn & He1 & Hm1 & _).
  destruct (shr_fexp prec emax (Zpos m) e loc_Exact) as [mrs1 e1].
  cbn [fst snd] in *. rewrite fexp_eq in Hn.
  pose proof (round_nearest_even_bounds (shr_m mrs1) (loc_of_shr_record mrs1)) as Hr.
  set (m2 := round_nearest_even (shr_m mrs1) (loc_of_shr_record mrs1)) in *.
  assert (Hm1' : 0 <= shr_m mrs1).
  { rewrite Hm1. apply Z.div_pos; [lia|apply pow2_gt0; lia]. }
  assert (H2 : mb * 2 ^ (eb + scale) <= m2 * 2 ^ (e1 + scale)).
  { apply Z.le_trans with (shr_m mrs1 * 2 ^ (e1 + scale)).
    - rewrite Hm1, He1. apply floor_scaled_ge; try lia.
    - apply Z.mul_le_mono_nonneg_r; [|lia].
      pose proof (pow2_gt0 (e1 + scale) ltac:(lia)). lia. }
  destruct (shr_fexp_exact m2 e1 ltac:(lia)) as (n2 & Hn20 & Hn2 & He2 & Hm3 & _).
  destruct (shr_fexp prec emax m2 e1 loc_Exact) as [mrs2 e2].
  cbn [fst snd] in *. rewrite fexp_eq in Hn2.
  assert (H3 : mb * 2 ^ (eb + scale) <= shr_m mrs2 * 2 ^ (e2 + scale)).
  { rewrite Hm3, He2. destruct (Z.eq_dec m2 0) as [Hz|Hnz].
    - rewrite Hz in *. rewrite Z.div_0_l by (pose proof (pow2_gt0 n2 Hn20); lia).
      lia.
    - apply floor_scaled_ge; try lia. }
  destruct (shr_m mrs2) as [|p|p] eqn:Hp.
  - intros _. cbn [scaled_value]. lia.
  - destruct (e2 <=? emax - prec); [|intros []].
    intros _. cbn [scaled_value]. exact H3.
  - intros [].
Qed.

Lemma binary_round_ge p e mb eb :
  -1074 <= e -> -1074 <= eb -> 0 <= mb <= 2 ^ 53 ->
  mb * 2 ^ (eb + scale) <= Zpos p * 2 ^ (e + scale) ->
  fnonneg (binary_round prec emax false p e) ->
  mb * 2 ^ (eb + scale) <= fval (binary_round prec emax false p e).
Proof.
  intros He Heb Hmb HB. unfold binary_round.
  pose proof (shl_align_fval p e (fexp prec emax (Zpos (digits2_pos p) + e))) as Hv.
  destruct (shl_align_spec p e (fexp prec emax (Zpos (digits2_pos p) + e))) as [Hs _].
  rewrite fexp_eq in *.
  destruct (shl_align p e _) as [mz ez]. cbn [fst snd] in *.
  apply round_aux_ge; lia.
Qed.

(** a bound below the value of a zero is zero *)
Lemma bound_zero n j : 0 <= n -> - scale <= j -> n * 2 ^ (j + scale) <= 0 -> n = 0.
Proof.
  intros Hn Hj H. pose proof (pow2_gt0 (j + scale) ltac:(lia)). nia.
Qed.

Lemma fmul_ge x y n1 j1 n2 j2 :
  fnonneg x -> fnonneg y -> 0 <= n1 -> 0 <= n2 -> n1 * n2 <= 2 ^ 53 ->
  -1074 <= j1 <= 0 -> -1074 <= j2 <= 0 -> -1074 <= j1 + j2 ->
  n1 * 2 ^ (j1 + scale) <= fval x -> n2 * 2 ^ (j2 + scale) <= fval y ->
  fnonneg (SFmul prec emax x y) ->
  (n1 * n2) * 2 ^ (j1 + j2 + scale) <= fval (SFmul prec emax x y).
Proof.
  intros Hx Hy Hn1 Hn2 Hn Hj1 Hj2 Hj Hvx Hvy.
  destruct x as [sx| | |[] mx ex], y as [sy| | |[] my ey]; simpl in Hx, Hy;
    try contradiction;
    try (cbn [scaled_value] in Hvx; apply bound_zero in Hvx; [|lia|lia];
         intros _; apply Z.le_trans with 0; [rewrite Hvx; lia|apply fval_nonneg]);
    try (cbn [scaled_value] in Hvy; apply bound_zero in Hvy; [|lia|lia];
         intros _; apply Z.le_trans with 0; [rewrite Hvy; lia|apply fval_nonneg]).
  cbn [SFmul xorb]. change (emin prec emax) with (-1074) in *.
  apply round_aux_ge; try lia; try nia.
  cbn [scaled_value] in Hvx, Hvy. rewrite Pos2Z.inj_mul.
  pose proof (pow2_gt0 scale ltac:(lia)) as HS.
  apply Z.mul_le_mono_pos_r with (p := 2 ^ scale); [exact HS|].
  replace (Zpos mx * Zpos my * 2 ^ (ex + ey + scale) * 2 ^ scale)
    with ((Zpos mx * 2 ^ (ex + scale)) * (Zpos my * 2 ^ (ey + scale))).
  2:{ rewrite <- !Z.mul_assoc. f_equal. rewrite <- (pow2_split (ex + ey + scale)) by lia.
      rewrite (Z.mul_comm (2 ^ (ex + scale))), <- Z.mul_assoc. f_equal.
      rewrite <- pow2_split by lia. f_equal. lia. }
  replace (n1 * n2 * 2 ^ (j1 + j2 + scale) * 2 ^ scale)
    with ((n1 * 2 ^ (j1 + scale)) * (n2 * 2 ^ (j2 + scale))).
  2:{ rewrite <- !Z.mul_assoc. f_equal. rewrite <- (pow2_split (j1 + j2 + scale)) by lia.
      rewrite (Z.mul_comm (2 ^ (j1 + scale))), <- Z.mul_assoc. f_equal.
      rewrite <- pow2_split by lia. f_equal. lia. }
  pose proof (pow2_gt0 (j1 + scale) ltac:(lia)). pose proof (pow2_gt0 (j2 + scale) ltac:(lia)).
  apply Z.mul_le_mono_nonneg; lia.
Qed.

Lemma fadd_ge x y n1 n2 j :
  fnonneg x -> fnonneg y -> 0 <= n1 -> 0 <= n2 -> n1 + n2 <= 2 ^ 53 ->
  -1074 <= j <= 0 ->
  n1 * 2 ^ (j + scale) <= fval x -> n2 * 2 ^ (j + scale) <= fval y ->
  fnonneg (SFadd prec emax x y) ->
  (n1 + n2) * 2 ^ (j + scale) <= fval (SFadd prec emax x y).
Proof.
  intros Hx Hy Hn1 Hn2 Hn Hj Hvx Hvy.
  pose proof (pow2_gt0 (j + scale) ltac:(lia)) as HP.
  destruct x as [sx| | |[] mx ex], y as [sy| | |[] my ey]; simpl in Hx, Hy;
    try contradiction.
  - cbn [scaled_value] in Hvx, Hvy. intros _.
    apply Z.le_trans with 0; [nia|apply fval_nonneg].
  - cbn [SFadd]. intros _. cbn [scaled_value] in Hvx |- *.
    cbn [scaled_value] in Hvy. nia.
  - cbn [SFadd]. intros _. cbn [scaled_value] in Hvy |- *.
    cbn [scaled_value] in Hvx. nia.
  - change (emin prec emax) with (-1074) in *.
    cbn [SFadd cond_Zopp scaled_value] in *.
    set (ez := Z.min ex ey).
    pose proof (aligned_fval mx ex ey Hx Hy) as Ha.
    pose proof (aligned_fval my ey ex Hy Hx) as Hc.
    rewrite (Z.min_comm ey ex) in Hc. fold ez in Ha, Hc.
    set (a := fst (shl_align mx ex ez)) in *.
    set (c := fst (shl_align my ey ez)) in *.
    change (Zpos a + Zpos c) with (Zpos (a + c)). cbn [binary_normalize].
    apply binary_round_ge; lia.
Qed.

Lemma fsub_ge x y n1 n2 j :
  fnonneg x -> fnonneg y -> 0 <= n2 <= n1 -> n1 <= 2 ^ 53 ->
  -1074 <= j <= 0 ->
  n1 * 2 ^ (j + scale) <= fval x -> fval y <= n2 * 2 ^ (j + scale) ->
  fnonneg (SFsub prec emax x y) ->
  (n1 - n2) * 2 ^ (j + scale) <= fval (SFsub prec emax x y).
Proof.
  intros Hx Hy Hn Hn1 Hj Hvx Hvy.
  pose proof (pow2_gt0 (j + scale) ltac:(lia)) as HP.
  destruct x as [sx| | |[] mx ex], y as [sy| | |[] my ey]; simpl in Hx, Hy;
    try contradiction.
  - cbn [scaled_value] in Hvx. intros _.
    assert (n1 = 0) by (apply (bound_zero n1 j); lia).
    replace (n1 - n2) with 0 by lia. apply fval_nonneg.
  - cbn [SFsub]. intros _. cbn [scaled_value] in Hvx, Hvy |- *.
    apply Z.le_trans with (n1 * 2 ^ (j + scale)); [|exact Hvx].
    apply Z.mul_le_mono_nonneg_r; lia.
  - change (emin prec emax) with (-1074) in *.
    cbn [SFsub cond_Zopp scaled_value] in *.
    set (ez := Z.min ex ey).
    pose proof (aligned_fval mx ex ey Hx Hy) as Ha.
    pose proof (aligned_fval my ey ex Hy Hx) as Hc.
    rewrite (Z.min_comm ey ex) in Hc. fold ez in Ha, Hc.
    set (a := fst (shl_align mx ex ez)) in *.
    set (c := fst (shl_align my ey ez)) in *.
    pose proof (pow2_gt0 (ez + scale) ltac:(lia)) as HE.
    destruct (Zpos a - Zpos c) as [|p|p] eqn:Hd; cbn [binary_normalize].
    + intros _. cbn [scaled_value]. nia.
    + apply binary_round_ge; lia.
    + intros _. exfalso. assert (Zpos a < Zpos c) by lia.
      assert (n2 * 2 ^ (j + scale) <= n1 * 2 ^ (j + scale))
        by (apply Z.mul_le_mono_nonneg_r; lia).
      nia.
Qed.

Lemma float_of_int_ge r R :
  0 <= r <= 2 ^ 53 -> float_of_int r = Some R -> fnonneg R ->
  r * 2 ^ (0 + scale) <= fval R.
Proof.
  intros Hr HR. unfold float_of_int in HR. destruct r as [|p|p]; try lia.
  - intros _. rewrite Z.mul_0_l. apply fval_nonneg.
  - cbn [binary_normalize] in HR. intros Hn.
    assert (E : R = binary_round prec emax false p 0).
    { destruct (binary_round prec emax false p 0); congruence. }
    subst R. apply binary_round_ge; try lia. exact Hn.
Qed.

Lemma float_int_ge f n v :
  fnonneg f -> 0 <= n -> n * 2 ^ scale <= fval f -> float_int f = Some v -> n <= v.
Proof.
  intros Hf Hn Hv.
  pose proof (pow2_gt0 scale ltac:(lia)) as HS.
  destruct f as [s| | |[] m e]; simpl in Hf; try contradiction.
  - cbn [scaled_value float_int] in *. intros [= <-]. nia.
  - change (emin prec emax) with (-1074) in Hf.
    cbn [float_int cond_Zopp]. intros [= <-]. cbn [scaled_value] in Hv.
    destruct (Z_le_gt_dec 0 e) as [He|He].
    + rewrite Z.shiftl_mul_pow2 by lia.
      rewrite (pow2_split e) in Hv by lia. rewrite Z.mul_assoc in Hv.
      apply Z.mul_le_mono_pos_r in Hv; lia.
    + rewrite Z.shiftl_div_pow2 by lia.
      pose proof (pow2_gt0 (- e) ltac:(lia)) as HE.
      apply Z.div_le_lower_bound; [lia|].
      replace scale with (- e + (e + scale)) in Hv at 1 by lia.
      rewrite (pow2_split (- e)) in Hv by lia.
      pose proof (pow2_gt0 (e + scale) ltac:(lia)) as HP.
      rewrite Z.mul_assoc in Hv. apply Z.mul_le_mono_pos_r in Hv; lia.
Qed.

(** The blend stays between the channel and the target, but for the
    truncation: with [k/256 <= t < (k+1)/256] the two products are at
    least [r*(255-k)/256] and [c*k/256] and at most [r*(256-k)/256] and
    [c*(k+1)/256], so that the sum lies above [min r c - 1] and below
    [max r c + 1]. *)
Lemma blend_float_between r c t :
  0 <= r <= 255 -> 0 <= c <= 255 -> unit_float t = true ->
  exists v, blend r c (PyFloat t) = Some v /\
    Z.max 0 (Z.min r c - 1) <= v <= Z.max r c.
Proof.
  intros Hr Hc Ht. destruct (unit_float_le t Ht) as [Hn Hv].
  pose proof (pow2_gt0 (-8 + scale) ltac:(lia)) as HP.
  pose proof (fval_nonneg t) as Ht0.
  set (P := 2 ^ (-8 + scale)) in *.
  set (k := fval t / P).
  assert (Hk : k * P <= fval t < (k + 1) * P).
  { pose proof (Z.div_mod (fval t) P ltac:(lia)) as Hdm.
    pose proof (Z.mod_pos_bound (fval t) P HP). fold k in Hdm. lia. }
  assert (Hk0 : 0 <= k <= 256).
  { split; [apply Z.div_pos; lia|]. apply Z.div_le_upper_bound; lia. }
  set (k1 := Z.min 256 (k + 1)).
  assert (Hk1 : fval t <= k1 * P).
  { unfold k1. destruct (Z.min_spec 256 (k + 1)) as [[_ ->]|[_ ->]]; lia. }
  unfold blend, sub, mul, add, arith. rewrite float_of_int_1.
  assert (H1n : fnonneg float_one).
  { cbn. change (emin prec emax) with (-1074). lia. }
  assert (H1v : fval float_one = 256 * P) by apply fval_one.
  destruct (fsub_le float_one t 256 k (-8) H1n Hn) as [Hun Huv];
    fold P; try lia.
  pose proof (fsub_ge float_one t 256 k1 (-8) H1n Hn) as Hul.
  fold P in Huv, Hul. fold fsub in Hun, Huv, Hul. set (u := fsub float_one t) in *.
  specialize (Hul ltac:(lia) ltac:(lia) ltac:(lia) ltac:(lia) Hk1 Hun).
  destruct (float_of_int_le r ltac:(lia)) as (R & HR & HRn & HRv).
  destruct (float_of_int_le c ltac:(lia)) as (C & HC & HCn & HCv).
  pose proof (float_of_int_ge r R ltac:(lia) HR HRn) as HRl.
  pose proof (float_of_int_ge c C ltac:(lia) HC HCn) as HCl.
  rewrite HR, HC.
  assert (Hp1 : 0 <= r * (256 - k) <= 255 * 256).
  { split; [apply Z.mul_nonneg_nonneg; lia|apply Z.mul_le_mono_nonneg; lia]. }
  assert (Hp2 : 0 <= c * (k + 1) <= 255 * 257).
  { split; [apply Z.mul_nonneg_nonneg; lia|apply Z.mul_le_mono_nonneg; lia]. }
  assert (Hrk : 0 <= r * (256 - k1) <= 255 * 256).
  { split; [apply Z.mul_nonneg_nonneg; lia|apply Z.mul_le_mono_nonneg; lia]. }
  assert (Hck : 0 <= c * k <= 255 * 256).
  { split; [apply Z.mul_nonneg_nonneg; lia|apply Z.mul_le_mono_nonneg; lia]. }
  destruct (fmul_le R u r 0 (256 - k) (-8)) as [Han Hav];
    fold P; try lia; try assumption.
  destruct (fmul_le C t c 0 (k + 1) (-8)) as [Hbn Hbv];
    fold P; try lia; try assumption.
  pose proof (fmul_ge R u r 0 (256 - k1) (-8) HRn Hun) as Hal.
  pose proof (fmul_ge C t c 0 k (-8) HCn Hn) as Hbl.
  change (0 + -8 + scale) with (-8 + scale) in Hav, Hbv, Hal, Hbl.
  fold P in Hav, Hbv, Hal, Hbl.
  fold fmul in Han, Hav, Hbn, Hbv, Hal, Hbl.
  set (a := fmul R u) in *. set (b := fmul C t) in *.
  specialize (Hal ltac:(lia) ltac:(lia) ltac:(lia) ltac:(lia) ltac:(lia) ltac:(lia)
                  HRl Hul Han).
  specialize (Hbl ltac:(lia) ltac:(lia) ltac:(lia) ltac:(lia) ltac:(lia) ltac:(lia)
                  HCl (proj1 Hk) Hbn).
  assert (HM : 0 <= Z.max r c <= 255 /\ r <= Z.max r c /\ c <= Z.max r c) by lia.
  assert (Hm : 0 <= Z.min r c <= 255 /\ Z.min r c <= r /\ Z.min r c <= c) by lia.
  set (M := Z.max r c) in *. set (m := Z.min r c) in *.
  assert (Hsum : r * (256 - k) + c * (k + 1) <= M * 257).
  { assert (r * (256 - k) <= M * (256 - k)) by (apply Z.mul_le_mono_nonneg_r; lia).
    assert (c * (k + 1) <= M * (k + 1)) by (apply Z.mul_le_mono_nonneg_r; lia).
    lia. }
  assert (Hlow : m * 255 <= r * (256 - k1) + c * k).
  { assert (m * (256 - k1) <= r * (256 - k1)) by (apply Z.mul_le_mono_nonneg_r; lia).
    assert (m * k <= c * k) by (apply Z.mul_le_mono_nonneg_r; lia).
    assert (m * 255 <= m * (256 - k1) + m * k); [|lia].
    rewrite <- Z.mul_add_distr_l. apply Z.mul_le_mono_nonneg_l; lia. }
  destruct (fadd_le a b (r * (256 - k)) (c * (k + 1)) (-8)) as [Hsn Hsv];
    fold P; try lia; try assumption.
  pose proof (fadd_ge a b (r * (256 - k1)) (c * k) (-8) Han Hbn) as Hsl.
  fold P in Hsv, Hsl. fold fadd in Hsn, Hsv, Hsl. set (s := fadd a b) in *.
  specialize (Hsl ltac:(lia) ltac:(lia) ltac:(lia) ltac:(lia) Hal Hbl Hsn).
  assert (HS : 2 ^ scale = 256 * P).
  { unfold P. change 256 with (2 ^ 8). rewrite <- pow2_split by lia. f_equal; lia. }
  destruct (float_int_lt s (M + 1) Hsn) as (v & Hv1 & Hv2).
  { rewrite HS.
    apply Z.le_lt_trans with (M * 257 * P);
      [|rewrite Z.mul_assoc; apply Z.mul_lt_mono_pos_r; lia].
    eapply Z.le_trans; [exact Hsv|]. apply Z.mul_le_mono_nonneg_r; lia. }
  exists v. split; [exact Hv1|]. split; [|lia].
  apply (float_int_ge s (Z.max 0 (m - 1)) v Hsn); [lia| |exact Hv1].
  rewrite HS. eapply Z.le_trans; [|exact Hsl].
  rewrite Z.mul_assoc. apply Z.mul_le_mono_nonneg_r; lia.
Qed.

End Rounding.

(** The blend is total on 8-bit channels at an intensity in [[0, 1]], and
    its result is an 8-bit channel. *)
Lemma blend_range r c t :
  0 <= r <= 255 -> 0 <= c <= 255 -> unit_interval t = true ->
  exists v, blend r c t = Some v /\ 0 <= v <= 255.
Proof.
  intros Hr Hc Ht. destruct t as [z|f].
  - cbn in Ht. apply andb_true_iff in Ht. destruct Ht as [H0 H1].
    apply Z.leb_le in H0, H1. cbn.
    assert (Hz : z = 0 \/ z = 1) by lia.
    destruct Hz as [-> | ->]; eexists; (split; [reflexivity|lia]).
  - apply (blend_float_range 4096); [lia| | |]; assumption.
Qed.

(** * The computations *)

Section Wp.
Context {A B : Type}.

Lemma wp_ret (a : A) w (Q : A -> World -> Prop) : Q a w -> wp (ret a) w Q.
Proof. intros H. exists a, w. auto. Qed.

Lemma wp_bind (m : M A) (k : A -> M B) w (Q : B -> World -> Prop) :
  wp m w (fun a w' => wp (k a) w' Q) -> wp (bind m k) w Q.
Proof.
  intros (a & w' & Hm & b & w'' & Hk & HQ).
  exists b, w''. unfold bind. rewrite Hm. auto.
Qed.

Lemma wp_mono (m : M A) w (Q Q' : A -> World -> Prop) :
  wp m w Q -> (forall a w', Q a w' -> Q' a w') -> wp m w Q'.
Proof. intros (a & w' & Hm & HQ) H. exists a, w'. auto. Qed.

Lemma wp_lift (o : option A) (a : A) w (Q : A -> World -> Prop) :
  o = Some a -> Q a w -> wp (lift o) w Q.
Proof. intros -> H. now apply wp_ret. Qed.

End Wp.

Lemma wp_agree {A} (m : M A) w (Q Q' : A -> World -> Prop) :
  wp m w Q -> wp m w Q' -> wp m w (fun a w' => Q a w' /\ Q' a w').
Proof.
  intros (a & w1 & Hm & HQ) (a' & w1' & Hm' & HQ').
  rewrite Hm in Hm'. injection Hm' as <- <-. exists a, w1. auto.
Qed.

Lemma wp_read r im w (Q : Image -> World -> Prop) :
  objects w !! r = Some im -> Q im w -> wp (read r) w Q.
Proof. intros H HQ. exists im, w. unfold read. rewrite H. auto. Qed.

Lemma wp_for_each {A} (I : nat -> World -> Prop) (l : list A) body w :
  I 0%nat w ->
  (forall i x w', l !! i = Some x -> I i w' ->
     wp (body x) w' (fun _ w'' => I (S i) w'')) ->
  wp (for_each l body) w (fun _ w' => I (length l) w').
Proof.
  revert I w. induction l as [|x l IH]; intros I w H0 Hstep; cbn [for_each].
  - now apply wp_ret.
  - apply wp_bind. eapply wp_mono; [apply (Hstep 0%nat x w); auto|].
    intros u w' H1. cbn beta in *.
    apply (IH (fun i => I (S i))); [exact H1|].
    intros i y w'' Hy Hi. apply (Hstep (S i) y w''); auto.
Qed.

Lemma range_lookup n i x : range n !! i = Some x -> x = Z.of_nat i /\ Z.of_nat i < n.
Proof. unfold range. intros H. apply lookup_seqZ in H. lia. Qed.

Lemma range_length n : length (range n) = Z.to_nat n.
Proof. unfold range. apply length_seqZ. Qed.

(** * The tint, pixel by pixel *)

Lemma wrap_nonneg n i : 0 <= i -> wrap n i = i.
Proof. intros H. unfold wrap. destruct (Z.ltb_spec i 0); [lia|reflexivity]. Qed.

Lemma in_bounds_true im x y :
  0 <= x < width im -> 0 <= y < height im -> in_bounds im x y = true.
Proof.
  intros Hx Hy. unfold in_bounds. rewrite !andb_true_iff.
  repeat split; try apply Z.leb_le; try apply Z.ltb_lt; lia.
Qed.

Lemma in_bounds_inv im x y :
  in_bounds im x y = true -> 0 <= x < width im /\ 0 <= y < height im.
Proof.
  unfold in_bounds. rewrite !andb_true_iff, !Z.leb_le, !Z.ltb_lt. lia.
Qed.

Lemma offset_lt im x y :
  0 <= x < width im -> 0 <= y < height im ->
  (offset im x y < Z.to_nat (width im * height im))%nat.
Proof.
  intros Hx Hy. unfold offset. apply Z2Nat.inj_lt; try nia.
Qed.

Lemma offset_row im y i :
  0 <= y -> 0 <= width im ->
  (offset im 0 y + i)%nat = offset im (Z.of_nat i) y.
Proof. intros Hy Hw. unfold offset. rewrite Z.add_0_r. nia. Qed.

Lemma offset_next_row im y :
  0 <= y -> 0 <= width im ->
  (offset im 0 y + Z.to_nat (width im))%nat = offset im 0 (y + 1).
Proof. intros Hy Hw. unfold offset. nia. Qed.

Lemma visited_start f d : visited f 0 d d.
Proof. split; [reflexivity|]. intros i. destruct (decide (i < 0)%nat); [lia|reflexivity]. Qed.

Lemma visited_all f d dk : visited f (length d) d dk -> dk = f <$> d.
Proof.
  intros [Hl H]. apply list_eq. intros i. rewrite H, list_lookup_fmap.
  destruct (decide (i < length d)%nat) as [|Hge]; [reflexivity|].
  rewrite (lookup_ge_None_2 d i) by lia. reflexivity.
Qed.

Lemma visited_write f k d dk p :
  d !! k = Some p -> visited f k d dk -> visited f (S k) d (<[k := f p]> dk).
Proof.
  intros Hp [Hl H]. split; [now rewrite length_insert|].
  intros i. destruct (decide (i = k)) as [->|Hne].
  - rewrite list_lookup_insert_eq by (apply lookup_lt_Some in Hp; lia).
    destruct (decide (k < S k)%nat); [|lia]. now rewrite Hp.
  - rewrite list_lookup_insert_ne by auto. rewrite H.
    destruct (decide (i < k)%nat), (decide (i < S k)%nat); auto; lia.
Qed.

Lemma visited_skip f k d dk p :
  d !! k = Some p -> f p = p -> visited f k d dk -> visited f (S k) d dk.
Proof.
  intros Hp Hfp [Hl H]. split; [exact Hl|].
  intros i. rewrite H. destruct (decide (i = k)) as [->|Hne].
  - destruct (decide (k < k)%nat), (decide (k < S k)%nat); try lia.
    rewrite Hp. cbn. now rewrite Hfp.
  - destruct (decide (i < k)%nat), (decide (i < S k)%nat); auto; lia.
Qed.

Section TintLoop.

Variables (faction_color : rgb) (intensity : number) (f : pixel -> pixel).
Variables (w0 : World) (res : positive) (im : Image).
Hypothesis Hlen : length (data im) = Z.to_nat (width im * height im).
Hypothesis Hw : 0 <= width im.
Hypothesis Hh : 0 <= height im.
Hypothesis Hf : forall p, p ∈ data im -> tint_pixel faction_color intensity p = Some (f p).

Local Abbreviation pixel_body x y :=
  (p <- getpixel res x y ;;
   let '(r, g, b, a) := p in
   if 0 <? a then
     nr <- lift (blend r (faction_color.1.1) intensity) ;;
     ng <- lift (blend g (faction_color.1.2) intensity) ;;
     nb <- lift (blend b (faction_color.2) intensity) ;;
     putpixel res x y (nr, ng, nb, a)
   else ret tt).

Lemma tint_one_pixel x y w :
  0 <= x < width im -> 0 <= y < height im ->
  tinting f w0 res im (offset im x y) w ->
  wp (pixel_body x y) w (fun _ w' => tinting f w0 res im (S (offset im x y)) w').
Proof.
  intros Hx Hy (dk & Hvis & Hobj & Hfiles).
  pose proof (offset_lt im x y Hx Hy) as Hk. rewrite <- Hlen in Hk.
  destruct (lookup_lt_is_Some_2 _ _ Hk) as [p Hp].
  set (imk := {| width := width im; height := height im; data := dk |}) in *.
  assert (Hres : objects w !! res = Some imk) by (rewrite Hobj; apply lookup_insert_eq).
  assert (Hdk : dk !! offset im x y = Some p).
  { destruct Hvis as [_ H]. rewrite H. destruct (decide _); [lia|exact Hp]. }
  assert (Hat : pixel_at imk x y = Some p).
  { unfold pixel_at. rewrite in_bounds_true by assumption. exact Hdk. }
  specialize (Hf p (list_elem_of_lookup_2 _ _ _ Hp)).
  apply wp_bind. unfold getpixel. apply wp_bind. eapply wp_read; [exact Hres|].
  rewrite !wrap_nonneg by (cbn; lia). eapply wp_lift; [exact Hat|].
  destruct p as [[[r g] b] a]. unfold tint_pixel in Hf.
  destruct (0 <? a).
  - destruct (blend r _ _) as [nr|]; [|discriminate].
    destruct (blend g _ _) as [ng|]; [|discriminate].
    destruct (blend b _ _) as [nb|]; [|discriminate].
    apply wp_bind, wp_ret. apply wp_bind, wp_ret. apply wp_bind, wp_ret.
    unfold putpixel. apply wp_bind. eapply wp_read; [exact Hres|].
    rewrite !wrap_nonneg by (cbn; lia). rewrite in_bounds_true by assumption.
    eexists tt, _. split; [reflexivity|].
    exists (<[offset im x y := (nr, ng, nb, a)]> dk). split; [|split].
    + injection Hf as Hfp. rewrite Hfp. now apply visited_write.
    + cbn. rewrite Hobj, insert_insert_eq. reflexivity.
    + exact Hfiles.
  - apply wp_ret. exists dk. split; [|split; assumption].
    injection Hf as Hfp. eapply visited_skip; eauto.
Qed.

Lemma tint_one_row y w :
  0 <= y < height im ->
  tinting f w0 res im (offset im 0 y) w ->
  wp (wd <- Image_width res ;; for_each (range wd) (fun x => pixel_body x y)) w
     (fun _ w' => tinting f w0 res im (offset im 0 (y + 1)) w').
Proof.
  intros Hy Ht. apply wp_bind. unfold Image_width. apply wp_bind.
  destruct Ht as (dk & Hvis & Hobj & Hfiles).
  eapply wp_read; [rewrite Hobj; apply lookup_insert_eq|]. apply wp_ret. cbn [width].
  eapply wp_mono.
  - apply (wp_for_each (fun i => tinting f w0 res im (offset im 0 y + i))).
    + rewrite Nat.add_0_r. exists dk. auto.
    + intros i x w' Hi HI. apply range_lookup in Hi. destruct Hi as [-> Hi].
      rewrite offset_row in HI by lia. rewrite Nat.add_succ_r.
      rewrite offset_row by lia.
      apply tint_one_pixel; [lia|lia|exact HI].
  - intros u w' HI. cbn beta in HI. rewrite range_length in HI.
    now rewrite offset_next_row in HI by lia.
Qed.

Lemma tint_all_rows w :
  tinting f w0 res im 0 w ->
  wp (for_each (range (height im)) (fun y =>
        wd <- Image_width res ;; for_each (range wd) (fun x => pixel_body x y))) w
     (fun _ w' =>
        objects w' = <[res := {| width := width im; height := height im;
                                 data := f <$> data im |}]> (objects w0) /\
        files w' = files w0).
Proof.
  intros Ht. eapply wp_mono.
  - apply (wp_for_each (fun i => tinting f w0 res im (offset im 0 (Z.of_nat i)))).
    + exact Ht.
    + intros i y w' Hi HI. apply range_lookup in Hi. destruct Hi as [-> Hi].
      replace (Z.of_nat (S i)) with (Z.of_nat i + 1) by lia.
      apply tint_one_row; [lia|exact HI].
  - intros u w' HI. cbn beta in HI. rewrite range_length in HI.
    destruct HI as (dk' & Hvis' & Hobj' & Hfiles').
    replace (offset im 0 (Z.of_nat (Z.to_nat (height im)))) with (length (data im)) in Hvis'
      by (rewrite Hlen; unfold offset; f_equal; nia).
    apply visited_all in Hvis'. subst dk'. auto.
Qed.

End TintLoop.

Lemma fresh_object (w : World) : objects w !! fresh (dom (objects w)) = None.
Proof. apply not_elem_of_dom, is_fresh. Qed.

Lemma Image_eta im :
  {| width := width im; height := height im; data := data im |} = im.
Proof. now destruct im. Qed.

(** The tint of an image all of whose pixels [tint_pixel] accepts: a fresh
    object holding the pixelwise image, nothing else changed. *)
Lemma tint_spec img c t f w im :
  objects w !! img = Some im ->
  length (data im) = Z.to_nat (width im * height im) ->
  0 <= width im -> 0 <= height im ->
  (forall p, p ∈ data im -> tint_pixel c t p = Some (f p)) ->
  wp (apply_faction_tint img c t) w (fun res w' =>
    res = fresh (dom (objects w)) /\
    objects w' = <[res := {| width := width im; height := height im;
                             data := f <$> data im |}]> (objects w) /\
    files w' = files w).
Proof.
  intros Himg Hlen Hw Hh Hf. unfold apply_faction_tint.
  apply wp_bind. unfold Image_copy. apply wp_bind.
  eapply wp_read; [exact Himg|].
  eexists _, _. split; [reflexivity|]. cbn beta zeta.
  set (res := fresh (dom (objects w))).
  set (w1 := {| objects := <[res := im]> (objects w); files := files w |}).
  apply wp_bind. unfold Image_height. apply wp_bind.
  eapply wp_read; [apply lookup_insert_eq|]. apply wp_ret.
  apply wp_bind. eapply wp_mono.
  - apply (tint_all_rows c t f w res im Hlen Hw Hh Hf).
    exists (data im). split; [apply visited_start|]. cbn. now rewrite Image_eta.
  - intros u w' [Hobj Hfiles]. apply wp_ret. auto.
Qed.

(** On 8-bit pixels, with an 8-bit target and an intensity in [[0, 1]],
    [tint_pixel] yields a pixel, and that pixel is 8-bit. *)
Lemma tint_pixel_total c t p :
  pixel_ok p = true -> rgb_ok c = true -> unit_interval t = true ->
  tint_pixel c t p = Some (tinted c t p) /\ pixel_ok (tinted c t p) = true.
Proof.
  intros Hp Hc Ht. unfold tinted.
  destruct p as [[[r g] b] a], c as [[cr cg] cb]. unfold pixel_ok, rgb_ok, channel in *.
  rewrite !andb_true_iff, !Z.leb_le in Hp, Hc.
  unfold tint_pixel. cbn [fst snd].
  destruct (0 <? a).
  - destruct (blend_range r cr t) as (nr & -> & Hnr); [lia|lia|assumption|].
    destruct (blend_range g cg t) as (ng & -> & Hng); [lia|lia|assumption|].
    destruct (blend_range b cb t) as (nb & -> & Hnb); [lia|lia|assumption|].
    split; [reflexivity|]. cbn. unfold channel.
    rewrite !andb_true_iff, !Z.leb_le. lia.
  - split; [reflexivity|]. cbn. unfold channel.
    rewrite !andb_true_iff, !Z.leb_le. lia.
Qed.

(** ** What a call may write *)

Section WritesOnly.
Variable res : positive.

Lemma wo_ret {A} (a : A) : writes_only res (ret a).
Proof. intros w. cbn. auto. Qed.

Lemma wo_lift {A} (o : option A) : writes_only res (lift o).
Proof. intros w. destruct o; cbn; auto. Qed.

Lemma wo_bind {A B} (m : M A) (k : A -> M B) :
  writes_only res m -> (forall a, writes_only res (k a)) -> writes_only res (bind m k).
Proof.
  intros Hm Hk w. unfold bind. destruct (Hm w) as [Hf Ho].
  destruct (m w) as [[a|] w1]; cbn in *; [|auto].
  destruct (Hk a w1) as [Hf' Ho']. split; [congruence|].
  intros r Hr. rewrite Ho', Ho; auto.
Qed.

Lemma wo_read r : writes_only res (read r).
Proof. intros w. unfold read. destruct (objects w !! r); cbn; auto. Qed.

Lemma wo_write im : writes_only res (write res im).
Proof.
  intros w. unfold write. cbn. split; [reflexivity|].
  intros r Hr. now apply lookup_insert_ne.
Qed.

Lemma wo_for_each {A} (l : list A) body :
  (forall x, writes_only res (body x)) -> writes_only res (for_each l body).
Proof.
  intros Hb. induction l as [|x l IH]; cbn [for_each].
  - apply wo_ret.
  - apply wo_bind; auto.
Qed.

Lemma wo_getpixel x y : writes_only res (getpixel res x y).
Proof. unfold getpixel. apply wo_bind; [apply wo_read|]. intros. apply wo_lift. Qed.

Lemma wo_putpixel x y p : writes_only res (putpixel res x y p).
Proof.
  unfold putpixel. apply wo_bind; [apply wo_read|]. intros im.
  cbn zeta. destruct (in_bounds im _ _); [apply wo_write|].
  intros w; cbn; auto.
Qed.

Lemma wo_width : writes_only res (Image_width res).
Proof. unfold Image_width. apply wo_bind; [apply wo_read|]. intros. apply wo_ret. Qed.

Lemma wo_height : writes_only res (Image_height res).
Proof. unfold Image_height. apply wo_bind; [apply wo_read|]. intros. apply wo_ret. Qed.

End WritesOnly.

(** Whatever the arguments are, and whether the call returns or raises,
    it leaves every file and every object of the store as it was; a
    returned reference is one the store did not hold. *)
Lemma tint_frame img c t w :
  files (apply_faction_tint img c t w).2 = files w /\
  objects w ⊆ objects (apply_faction_tint img c t w).2 /\
  match (apply_faction_tint img c t w).1 with
  | Some res => objects w !! res = None
  | None => True
  end.
Proof.
  destruct (apply_faction_tint img c t w) as [o w'] eqn:Hrun. cbn [fst snd].
  unfold apply_faction_tint, Image_copy in Hrun. unfold bind at 1 2 in Hrun.
  unfold read in Hrun.
  destruct (objects w !! img) as [im|] eqn:Himg.
  2:{ injection Hrun as <- <-. auto. }
  unfold alloc in Hrun. cbn beta iota zeta in Hrun.
  set (res := fresh (dom (objects w))) in *.
  set (w1 := {| objects := <[res := im]> (objects w); files := files w |}) in *.
  match type of Hrun with bind ?m ?k w1 = _ => set (body := bind m k) in * end.
  assert (Hwo : writes_only res body).
  { unfold body. apply wo_bind; [apply wo_height|]. intros h.
    apply wo_bind; [|intros; apply wo_ret].
    apply wo_for_each. intros y. apply wo_bind; [apply wo_width|]. intros wd.
    apply wo_for_each. intros x. apply wo_bind; [apply wo_getpixel|].
    intros [[[r g] b] a]. destruct (0 <? a); [|apply wo_ret].
    repeat (apply wo_bind; [apply wo_lift|]; intros ?). apply wo_putpixel. }
  assert (Hret : forall a, (body w1).1 = Some a -> a = res).
  { intros a. unfold body, bind. destruct (Image_height res w1) as [[h|] w2]; [|discriminate].
    destruct (for_each _ _ w2) as [[u|] w3]; [|discriminate].
    cbn. congruence. }
  destruct (Hwo w1) as [Hf Ho]. rewrite Hrun in Hf, Ho, Hret. cbn [fst snd] in *.
  assert (Hsub : objects w ⊆ objects w').
  { apply map_subseteq_spec. intros r x Hr.
    assert (Hne : r <> res).
    { intros ->. unfold res in Hr. rewrite fresh_object in Hr. discriminate. }
    rewrite (Ho r Hne). cbn. now rewrite lookup_insert_ne. }
  split; [exact Hf|]. split; [exact Hsub|].
  destruct o as [a|]; [|exact I]. rewrite (Hret a eq_refl). apply fresh_object.
Qed.

(** ** The tinted image *)

Lemma pixel_at_tint_image c t im x y :
  pixel_at (tint_image c t im) x y = tinted c t <$> pixel_at im x y.
Proof.
  unfold pixel_at, in_bounds, offset. cbn [tint_image width height data].
  destruct (_ && _); [|reflexivity]. apply list_lookup_fmap.
Qed.

Lemma pixel_at_in_bounds im x y :
  length (data im) = Z.to_nat (width im * height im) ->
  in_bounds im x y = true -> exists p, pixel_at im x y = Some p /\ p ∈ data im.
Proof.
  intros Hlen Hb. unfold pixel_at. rewrite Hb.
  apply in_bounds_inv in Hb. destruct Hb as [Hx Hy].
  pose proof (offset_lt im x y Hx Hy) as Hk. rewrite <- Hlen in Hk.
  destruct (lookup_lt_is_Some_2 _ _ Hk) as [p Hp].
  exists p. split; [exact Hp|]. eapply list_elem_of_lookup_2; eauto.
Qed.

Lemma tint_image_wf c t im :
  Image_wf im -> rgb_ok c = true -> unit_interval t = true ->
  Image_wf (tint_image c t im).
Proof.
  intros (Hw & Hh & Hlen & Hpx) Hc Ht. unfold Image_wf, tint_image. cbn.
  repeat split; try assumption.
  - now rewrite length_fmap.
  - apply Forall_fmap. eapply Forall_impl; [exact Hpx|].
    intros p Hp. cbn. now apply tint_pixel_total.
Qed.

(** On a well-formed image, with an 8-bit target and an intensity in
    [[0, 1]], the call returns a fresh object that holds [tint_image]. *)
Lemma tint_returns w img im c t :
  objects w !! img = Some im -> Image_wf im ->
  rgb_ok c = true -> unit_interval t = true ->
  wp (apply_faction_tint img c t) w (fun res w' =>
    res = fresh (dom (objects w)) /\
    objects w' = <[res := tint_image c t im]> (objects w) /\
    files w' = files w).
Proof.
  intros Himg (Hw & Hh & Hlen & Hpx) Hc Ht.
  apply tint_spec; try assumption.
  intros p Hp. apply tint_pixel_total; try assumption.
  rewrite Forall_forall in Hpx. now apply Hpx.
Qed.

(** ** Bounded checks *)

Lemma check_range (chk : Z -> bool) n :
  forallb chk (seqZ 0 n) = true -> forall z, 0 <= z < n -> chk z = true.
Proof.
  intros H z Hz. rewrite forallb_forall in H. apply H.
  apply list_elem_of_In, elem_of_seqZ. lia.
Qed.

Lemma float_eqb_eq f g : float_eqb f g = true -> f = g.
Proof.
  destruct f as [s|s| |s m e], g as [s'|s'| |s' m' e']; cbn; try discriminate; auto.
  - intros H. apply Bool.eqb_prop in H. now subst.
  - intros H. apply Bool.eqb_prop in H. now subst.
  - rewrite !andb_true_iff. intros [[H1 H2] H3].
    apply Bool.eqb_prop in H1. apply Pos.eqb_eq in H2. apply Z.eqb_eq in H3.
    now subst.
Qed.

Lemma times_one_checked : forallb check_times_one (seqZ 0 256) = true.
Proof. vm_compute. reflexivity. Qed.

Lemma times_zero_checked : forallb check_times_zero (seqZ 0 256) = true.
Proof. vm_compute. reflexivity. Qed.

Lemma fsub_one_zero : fsub float_one float_zero = float_one.
Proof. reflexivity. Qed.

Lemma fsub_one_one : fsub float_one float_one = float_zero.
Proof. vm_compute. reflexivity. Qed.

(** At intensity 0 the blend is the channel, at intensity 1 the target. *)
Lemma blend_zero r c t :
  0 <= r <= 255 -> 0 <= c <= 255 -> t = PyInt 0 \/ t = PyFloat float_zero ->
  blend r c t = Some r.
Proof.
  intros Hr Hc [-> | ->].
  - cbn. f_equal. lia.
  - pose proof (check_range _ _ times_one_checked r ltac:(lia)) as H1.
    pose proof (check_range _ _ times_zero_checked c ltac:(lia)) as H0.
    unfold check_times_one in H1. unfold check_times_zero in H0.
    unfold blend, sub, mul, add, arith. rewrite float_of_int_1, fsub_one_zero.
    destruct (float_of_int r) as [R|]; [|discriminate].
    destruct (float_of_int c) as [C|]; [|discriminate].
    apply float_eqb_eq in H0. rewrite H0. cbn [int].
    destruct (float_int (fadd (fmul R float_one) float_zero)) as [v|]; [|discriminate].
    destruct (float_int (fadd float_zero (fmul R float_one))) as [v'|]; [|discriminate].
    apply andb_true_iff in H1. destruct H1 as [H1 _]. apply Z.eqb_eq in H1. now subst.
Qed.

Lemma blend_one r c t :
  0 <= r <= 255 -> 0 <= c <= 255 -> t = PyInt 1 \/ t = PyFloat float_one ->
  blend r c t = Some c.
Proof.
  intros Hr Hc [-> | ->].
  - cbn. f_equal. lia.
  - pose proof (check_range _ _ times_one_checked c ltac:(lia)) as H1.
    pose proof (check_range _ _ times_zero_checked r ltac:(lia)) as H0.
    unfold check_times_one in H1. unfold check_times_zero in H0.
    unfold blend, sub, mul, add, arith. rewrite float_of_int_1, fsub_one_one.
    destruct (float_of_int r) as [R|]; [|discriminate].
    destruct (float_of_int c) as [C|]; [|discriminate].
    apply float_eqb_eq in H0. rewrite H0. cbn [int].
    destruct (float_int (fadd (fmul C float_one) float_zero)) as [v|]; [|discriminate].
    destruct (float_int (fadd float_zero (fmul C float_one))) as [v'|]; [|discriminate].
    apply andb_true_iff in H1. destruct H1 as [_ H1]. apply Z.eqb_eq in H1. now subst.
Qed.

Lemma pixel_at_elem im x y p : pixel_at im x y = Some p -> p ∈ data im.
Proof.
  unfold pixel_at. destruct (in_bounds im x y); [|discriminate].
  intros H. eapply list_elem_of_lookup_2; eauto.
Qed.

Lemma sample_image_wf : Image_wf sample_image.
Proof.
  unfold Image_wf, sample_image. cbn. repeat split; try lia.
  repeat constructor.
Qed.

Lemma fresh_ne (w : World) r im : objects w !! r = Some im -> r <> fresh (dom (objects w)).
Proof. intros H ->. rewrite fresh_object in H. discriminate. Qed.

(** * The tint transform *)

(** C1. On a canvas of 8-bit pixels, with a target of channels in 0-255 and
    an intensity in [[0, 1]], [apply_faction_tint] returns a new canvas of
    the same dimensions; a pixel with alpha above 0 has each of R, G, B
    replaced by [int(channel * (1 - intensity) + target * intensity)] and
    its alpha kept, a pixel with alpha 0 is copied as it is. *)
Theorem tint_contract w img im c t :
  objects w !! img = Some im -> Image_wf im ->
  rgb_ok c = true -> unit_interval t = true ->
  wp (apply_faction_tint img c t) w (fun res w' =>
    objects w !! res = None /\
    exists im', objects w' !! res = Some im' /\
      width im' = width im /\ height im' = height im /\
      forall x y r g b a, pixel_at im x y = Some (r, g, b, a) ->
        if 0 <? a then
          exists nr ng nb,
            blend r (c.1.1) t = Some nr /\ blend g (c.1.2) t = Some ng /\
            blend b (c.2) t = Some nb /\
            pixel_at im' x y = Some (nr, ng, nb, a)
        else pixel_at im' x y = Some (r, g, b, a)).
Proof.
  intros Himg Hwf Hc Ht. eapply wp_mono; [now apply (tint_returns w img im c t)|].
  intros res w' (-> & Hobj & _). split; [apply fresh_object|].
  exists (tint_image c t im). rewrite Hobj, lookup_insert_eq.
  repeat split. intros x y r g b a Hp.
  rewrite pixel_at_tint_image, Hp. cbn [fmap option_fmap option_map].
  destruct Hwf as (_ & _ & _ & Hpx). rewrite Forall_forall in Hpx.
  destruct (tint_pixel_total c t (r, g, b, a)) as [Hsome _]; try assumption.
  { apply Hpx. eapply pixel_at_elem; eauto. }
  unfold tint_pixel in Hsome. destruct (0 <? a).
  - destruct (blend r _ _) as [nr|]; [|discriminate].
    destruct (blend g _ _) as [ng|]; [|discriminate].
    destruct (blend b _ _) as [nb|]; [|discriminate].
    exists nr, ng, nb. repeat split. now injection Hsome as <-.
  - now injection Hsome as <-.
Qed.

Lemma tint_contract_witness :
  wp (apply_faction_tint 1 (51, 102, 204) (PyFloat f035)) sample_world
     (fun res w' => exists im',
        objects w' !! res = Some im' /\ width im' = 2 /\ height im' = 1 /\
        pixel_at im' 0 0 = Some (147, 100, 71, 255) /\
        pixel_at im' 1 0 = Some (10, 20, 30, 0)).
Proof.
  eapply wp_mono.
  - apply (tint_contract sample_world 1 sample_image (51, 102, 204) (PyFloat f035)).
    + reflexivity.
    + exact sample_image_wf.
    + reflexivity.
    + vm_compute. reflexivity.
  - intros res w' (_ & im' & Hres & Hw & Hh & Hpx).
    exists im'. repeat split; try assumption.
    + destruct (Hpx 0 0 200 100 0 255 eq_refl) as (nr & ng & nb & H1 & H2 & H3 & H4).
      vm_compute in H1, H2, H3. congruence.
    + exact (Hpx 1 0 10 20 30 0 eq_refl).
Defined.

(** C9. With 8-bit pixels, an 8-bit target and an intensity in [[0, 1]],
    every blend the tint computes for a channel is defined and lies in
    0-255, and the canvas it returns is a well-formed 8-bit RGBA raster. *)
Theorem tint_writes_8bit w img im c t :
  objects w !! img = Some im -> Image_wf im ->
  rgb_ok c = true -> unit_interval t = true ->
  (forall r g b a, (r, g, b, a) ∈ data im ->
     exists nr ng nb,
       blend r (c.1.1) t = Some nr /\ blend g (c.1.2) t = Some ng /\
       blend b (c.2) t = Some nb /\
       0 <= nr <= 255 /\ 0 <= ng <= 255 /\ 0 <= nb <= 255) /\
  wp (apply_faction_tint img c t) w (fun res w' =>
    exists im', objects w' !! res = Some im' /\ Image_wf im').
Proof.
  intros Himg Hwf Hc Ht. split.
  - intros r g b a Hin. destruct Hwf as (_ & _ & _ & Hpx).
    rewrite Forall_forall in Hpx. specialize (Hpx _ Hin).
    destruct c as [[cr cg] cb]. unfold pixel_ok, rgb_ok, channel in *.
    rewrite !andb_true_iff, !Z.leb_le in Hpx, Hc. cbn [fst snd].
    destruct (blend_range r cr t) as (nr & Hnr & ?); [lia|lia|assumption|].
    destruct (blend_range g cg t) as (ng & Hng & ?); [lia|lia|assumption|].
    destruct (blend_range b cb t) as (nb & Hnb & ?); [lia|lia|assumption|].
    exists nr, ng, nb. auto 10.
  - eapply wp_mono; [now apply (tint_returns w img im c t)|].
    intros res w' (-> & Hobj & _). exists (tint_image c t im).
    rewrite Hobj, lookup_insert_eq. split; [reflexivity|]. now apply tint_image_wf.
Qed.

Lemma tint_writes_8bit_witness :
  wp (apply_faction_tint 1 (204, 153, 51) (PyFloat f035)) sample_world
     (fun res w' => exists im', objects w' !! res = Some im' /\ Image_wf im').
Proof.
  apply (tint_writes_8bit sample_world 1 sample_image (204, 153, 51) (PyFloat f035)).
  - reflexivity.
  - exact sample_image_wf.
  - reflexivity.
  - vm_compute. reflexivity.
Defined.

Lemma tint_pixel_zero c t p :
  pixel_ok p = true -> rgb_ok c = true -> t = PyInt 0 \/ t = PyFloat float_zero ->
  tint_pixel c t p = Some p.
Proof.
  intros Hp Hc Ht. destruct p as [[[r g] b] a], c as [[cr cg] cb].
  unfold pixel_ok, rgb_ok, channel in *.
  rewrite !andb_true_iff, !Z.leb_le in Hp, Hc. unfold tint_pixel. cbn [fst snd].
  destruct (0 <? a); [|reflexivity].
  rewrite !blend_zero by (assumption || lia). reflexivity.
Qed.

Lemma tint_pixel_one c t r g b a :
  pixel_ok (r, g, b, a) = true -> rgb_ok c = true ->
  t = PyInt 1 \/ t = PyFloat float_one ->
  tint_pixel c t (r, g, b, a) =
    Some (if 0 <? a then (c.1.1, c.1.2, c.2, a) else (r, g, b, a)).
Proof.
  intros Hp Hc Ht. destruct c as [[cr cg] cb].
  unfold pixel_ok, rgb_ok, channel in *.
  rewrite !andb_true_iff, !Z.leb_le in Hp, Hc. unfold tint_pixel. cbn [fst snd].
  destruct (0 <? a); [|reflexivity].
  rewrite !blend_one by (assumption || lia). reflexivity.
Qed.

(** C3. At intensity 0 the returned canvas is pixel for pixel the input; at
    intensity 1 every pixel with alpha above 0 has its R, G, B set to the
    target colour, alpha unchanged (and a pixel with alpha 0 is copied). *)
Theorem tint_intensity_zero_one w img im c :
  objects w !! img = Some im -> Image_wf im -> rgb_ok c = true ->
  (forall t, t = PyInt 0 \/ t = PyFloat float_zero ->
     wp (apply_faction_tint img c t) w (fun res w' => objects w' !! res = Some im)) /\
  (forall t, t = PyInt 1 \/ t = PyFloat float_one ->
     wp (apply_faction_tint img c t) w (fun res w' =>
       exists im', objects w' !! res = Some im' /\
         width im' = width im /\ height im' = height im /\
         forall x y r g b a, pixel_at im x y = Some (r, g, b, a) ->
           pixel_at im' x y =
             Some (if 0 <? a then (c.1.1, c.1.2, c.2, a) else (r, g, b, a)))).
Proof.
  intros Himg Hwf Hc. pose proof Hwf as (Hw & Hh & Hlen & Hpx).
  rewrite Forall_forall in Hpx. split; intros t Ht.
  - eapply wp_mono.
    + apply (tint_spec img c t id w im); try assumption.
      intros p Hp. apply tint_pixel_zero; auto.
    + intros res w' (_ & Hobj & _). rewrite Hobj, lookup_insert_eq.
      rewrite list_fmap_id. now rewrite Image_eta.
  - assert (Hu : unit_interval t = true) by (destruct Ht as [-> | ->]; reflexivity).
    eapply wp_mono; [now apply (tint_returns w img im c t)|].
    intros res w' (_ & Hobj & _). exists (tint_image c t im).
    rewrite Hobj, lookup_insert_eq. repeat split.
    intros x y r g b a Hp. rewrite pixel_at_tint_image, Hp.
    cbn [fmap option_fmap option_map]. unfold tinted.
    rewrite tint_pixel_one; auto. apply Hpx. eapply pixel_at_elem; eauto.
Qed.

Lemma tint_intensity_zero_one_witness :
  wp (apply_faction_tint 1 (51, 102, 204) (PyFloat float_zero)) sample_world
     (fun res w' => objects w' !! res = Some sample_image) /\
  wp (apply_faction_tint 1 (51, 102, 204) (PyFloat float_one)) sample_world
     (fun res w' => exists im', objects w' !! res = Some im' /\
        pixel_at im' 0 0 = Some (51, 102, 204, 255) /\
        pixel_at im' 1 0 = Some (10, 20, 30, 0)).
Proof.
  destruct (tint_intensity_zero_one sample_world 1 sample_image (51, 102, 204)
              eq_refl sample_image_wf eq_refl) as [H0 H1].
  split.
  - apply H0. now right.
  - eapply wp_mono; [apply H1; now right|].
    intros res w' (im' & Hres & _ & _ & Hpx). exists im'. split; [exact Hres|].
    split; [exact (Hpx 0 0 200 100 0 255 eq_refl)|exact (Hpx 1 0 10 20 30 0 eq_refl)].
Defined.

(** C5. The call does not mutate its input: whatever the canvas, the colour
    and the intensity, and whether the call returns or raises, the input
    canvas and every other object of the store are afterwards what they
    were, no file is touched, and a returned canvas is a new object. *)
Theorem tint_keeps_input w img c t :
  objects (apply_faction_tint img c t w).2 !! img = objects w !! img /\
  objects w ⊆ objects (apply_faction_tint img c t w).2 /\
  files (apply_faction_tint img c t w).2 = files w /\
  match (apply_faction_tint img c t w).1 with
  | Some res => objects w !! res = None /\ res <> img
  | None => True
  end.
Proof.
  destruct (tint_frame img c t w) as (Hf & Hsub & Hres).
  assert (Himg : objects (apply_faction_tint img c t w).2 !! img = objects w !! img).
  { destruct (objects w !! img) as [im|] eqn:Him.
    - eapply map_subseteq_spec; eauto.
    - unfold apply_faction_tint, Image_copy. unfold bind at 1 2. unfold read.
      rewrite Him. cbn. exact Him. }
  repeat split; try assumption.
  destruct (apply_faction_tint img c t w).1 as [res|] eqn:Hout; [|exact I].
  split; [exact Hres|]. intros ->.
  destruct (objects w !! img) as [im|] eqn:Him; [discriminate|].
  unfold apply_faction_tint, Image_copy in Hout. unfold bind at 1 2 in Hout.
  unfold read in Hout. rewrite Him in Hout. discriminate.
Qed.

(** C4. The tint is not idempotent: on the sample canvas with the target
    (51, 102, 204), tinting the once tinted canvas again at 0.35 gives a
    canvas that differs from the once tinted one. *)
Theorem tint_not_idempotent :
  exists w img c,
    wp (once <- apply_faction_tint img c (PyFloat f035) ;;
        twice <- apply_faction_tint once c (PyFloat f035) ;;
        ret (once, twice)) w
       (fun r w' => exists im1 im2,
          objects w' !! r.1 = Some im1 /\ objects w' !! r.2 = Some im2 /\
          im1 <> im2 /\
          pixel_at im1 0 0 = Some (147, 100, 71, 255) /\
          pixel_at im2 0 0 = Some (113, 100, 117, 255)).
Proof.
  exists sample_world, 1%positive, (51, 102, 204).
  assert (Hu : unit_interval (PyFloat f035) = true) by (vm_compute; reflexivity).
  apply wp_bind. eapply wp_mono.
  { apply (tint_returns sample_world 1 sample_image (51, 102, 204) (PyFloat f035));
      [reflexivity|exact sample_image_wf|reflexivity|exact Hu]. }
  intros once w1 (Honce & Hobj1 & _). cbn beta.
  set (im1 := tint_image (51, 102, 204) (PyFloat f035) sample_image) in *.
  assert (H1 : objects w1 !! once = Some im1) by (rewrite Hobj1; apply lookup_insert_eq).
  apply wp_bind. eapply wp_mono.
  { apply (tint_returns w1 once im1 (51, 102, 204) (PyFloat f035));
      [exact H1| |reflexivity|exact Hu].
    apply tint_image_wf; [exact sample_image_wf|reflexivity|exact Hu]. }
  intros twice w2 (Htwice & Hobj2 & _). cbn beta. apply wp_ret.
  exists im1, (tint_image (51, 102, 204) (PyFloat f035) im1). cbn [fst snd].
  split; [|split; [|split]].
  - rewrite Hobj2, lookup_insert_ne; [exact H1|].
    rewrite Htwice. intros E. symmetry in E. revert E. eapply fresh_ne; eauto.
  - rewrite Hobj2. apply lookup_insert_eq.
  - intros E. apply (f_equal (fun im => pixel_at im 0 0)) in E.
    vm_compute in E. discriminate E.
  - split; vm_compute; reflexivity.
Qed.

(** C10. Called without an intensity, [apply_faction_tint] blends at 0.4:
    it is the call at 0.4, and on the sample canvas its result differs from
    the result of the call at the driver's 0.35. *)
Theorem tint_default_intensity :
  (forall img c, apply_faction_tint_default img c
                 = apply_faction_tint img c (PyFloat f04)) /\
  exists w img c,
    wp (apply_faction_tint_default img c) w (fun res w' =>
      exists im, objects w' !! res = Some im /\
        pixel_at im 0 0 = Some (140, 100, 81, 255)) /\
    wp (apply_faction_tint img c (PyFloat f04)) w (fun res w' =>
      exists im, objects w' !! res = Some im /\
        pixel_at im 0 0 = Some (140, 100, 81, 255)) /\
    wp (apply_faction_tint img c (PyFloat f035)) w (fun res w' =>
      exists im, objects w' !! res = Some im /\
        pixel_at im 0 0 = Some (147, 100, 71, 255)).
Proof.
  split; [reflexivity|].
  exists sample_world, 1%positive, (51, 102, 204).
  assert (H04 : wp (apply_faction_tint 1 (51, 102, 204) (PyFloat f04)) sample_world
            (fun res w' => exists im, objects w' !! res = Some im /\
               pixel_at im 0 0 = Some (140, 100, 81, 255))).
  { eapply wp_mono.
    - apply (tint_returns sample_world 1 sample_image (51, 102, 204) (PyFloat f04));
        [reflexivity|exact sample_image_wf|reflexivity|vm_compute; reflexivity].
    - intros res w' (_ & Hobj & _). eexists. rewrite Hobj, lookup_insert_eq.
      split; [reflexivity|]. vm_compute. reflexivity. }
  split; [exact H04|]. split; [exact H04|].
  eapply wp_mono.
  - apply (tint_returns sample_world 1 sample_image (51, 102, 204) (PyFloat f035));
      [reflexivity|exact sample_image_wf|reflexivity|vm_compute; reflexivity].
  - intros res w' (_ & Hobj & _). eexists. rewrite Hobj, lookup_insert_eq.
    split; [reflexivity|]. vm_compute. reflexivity.
Qed.

(** * Drawing *)

(** A shape whose box is in order is drawn. *)
Lemma ellipse_ordered covers r x0 y0 x1 y1 fill :
  x0 <= x1 -> y0 <= y1 ->
  ellipse covers r x0 y0 x1 y1 fill = draw_shape covers r (Ellipse x0 y0 x1 y1) fill.
Proof.
  intros Hx Hy. unfold ellipse, ordered.
  destruct (Z.leb_spec x0 x1); [|lia]. destruct (Z.leb_spec y0 y1); [|lia]. reflexivity.
Qed.

Lemma rectangle_ordered covers r x0 y0 x1 y1 fill :
  x0 <= x1 -> y0 <= y1 ->
  rectangle covers r x0 y0 x1 y1 fill = draw_shape covers r (Rectangle x0 y0 x1 y1) fill.
Proof.
  intros Hx Hy. unfold rectangle, ordered.
  destruct (Z.leb_spec x0 x1); [|lia]. destruct (Z.leb_spec y0 y1); [|lia]. reflexivity.
Qed.

Lemma arc_ordered covers r x0 y0 x1 y1 start stop fill wd :
  x0 <= x1 -> y0 <= y1 ->
  arc covers r x0 y0 x1 y1 start stop fill wd
  = draw_shape covers r (Arc x0 y0 x1 y1 start stop wd) fill.
Proof.
  intros Hx Hy. unfold arc, ordered.
  destruct (Z.leb_spec x0 x1); [|lia]. destruct (Z.leb_spec y0 y1); [|lia]. reflexivity.
Qed.

(** the corners of a box are in order *)
Ltac in_order := solve [Z.div_mod_to_equations; lia].

(** take the next shape's box as in order *)
Ltac unbox :=
  match goal with
  | |- context [ellipse ?c ?r ?x0 ?y0 ?x1 ?y1 ?f] =>
      rewrite (ellipse_ordered c r x0 y0 x1 y1 f) by in_order
  | |- context [rectangle ?c ?r ?x0 ?y0 ?x1 ?y1 ?f] =>
      rewrite (rectangle_ordered c r x0 y0 x1 y1 f) by in_order
  | |- context [arc ?c ?r ?x0 ?y0 ?x1 ?y1 ?a ?b ?f ?w] =>
      rewrite (arc_ordered c r x0 y0 x1 y1 a b f w) by in_order
  end.

(** the shapes of a drawing, their boxes in order *)
Ltac shapes := cbn beta; repeat unbox; unfold polygon, line.

Section Drawing.

Variable covers : shape -> Z -> Z -> bool.

Lemma wp_Image_new wd ht fill w :
  0 <= wd -> 0 <= ht ->
  wp (Image_new wd ht fill) w (fun r w' =>
    r = fresh (dom (objects w)) /\
    objects w' = <[r := {| width := wd; height := ht;
                           data := replicate (Z.to_nat (wd * ht)) fill |}]> (objects w) /\
    files w' = files w).
Proof.
  intros Hw Hh. unfold Image_new.
  destruct (Z.ltb_spec wd 0); [lia|]. destruct (Z.ltb_spec ht 0); [lia|].
  cbn [orb]. eexists _, _. split; [reflexivity|]. auto.
Qed.

Lemma blank_sized wd ht :
  0 <= wd -> 0 <= ht ->
  sized wd ht {| width := wd; height := ht;
                 data := replicate (Z.to_nat (wd * ht)) transparent |}.
Proof.
  intros Hw Hh. repeat split; cbn; try assumption.
  - apply length_replicate.
  - apply Forall_replicate. reflexivity.
Qed.

Lemma paint_sized wd ht im s fill :
  pixel_ok fill = true -> sized wd ht im -> sized wd ht (paint covers im s fill).
Proof.
  intros Hfill (Hw & Hh & Hw0 & Hh0 & Hlen & Hpx). unfold sized, Image_wf, paint. cbn.
  repeat split; try assumption.
  - now rewrite length_imap.
  - apply Forall_lookup. intros i p Hp. rewrite list_lookup_imap in Hp.
    destruct (data im !! i) as [q|] eqn:Hq; [|discriminate]. cbn in Hp.
    injection Hp as <-. destruct (covers s _ _); [exact Hfill|].
    rewrite Forall_lookup in Hpx. eapply Hpx; eauto.
Qed.

Section Draws.
Context {A B : Type}.
Variable r : positive.

Lemma draws_ret (a : A) (P : Image -> Prop) (Q : A -> Image -> Prop) :
  (forall im, P im -> Q a im) -> draws r P Q (ret a).
Proof.
  intros H w im Hr HP. apply wp_ret. exists im. split; [auto|].
  split; [|reflexivity]. symmetry. now apply insert_id.
Qed.

Lemma draws_bind (m : M A) (k : A -> M B) P (Q : A -> Image -> Prop) R :
  draws r P Q m -> (forall a, draws r (Q a) R (k a)) -> draws r P R (bind m k).
Proof.
  intros Hm Hk w im Hr HP. apply wp_bind.
  eapply wp_mono; [apply (Hm w im Hr HP)|].
  intros a w1 (im1 & HQ & Hobj & Hfiles). cbn beta.
  eapply wp_mono; [apply (Hk a w1 im1); [rewrite Hobj; apply lookup_insert_eq|exact HQ]|].
  intros b w2 (im2 & HR & Hobj2 & Hfiles2). exists im2. split; [exact HR|].
  split; [|congruence]. rewrite Hobj2, Hobj. apply insert_insert_eq.
Qed.

End Draws.

Lemma draws_shape r s fill (P Q : Image -> Prop) :
  (forall im, P im -> Q (paint covers im s fill)) ->
  draws r P (fun _ => Q) (draw_shape covers r s fill).
Proof.
  intros H w im Hr HP. unfold draw_shape. apply wp_bind.
  eapply wp_read; [exact Hr|]. eexists tt, _. split; [reflexivity|].
  exists (paint covers im s fill). cbn. auto.
Qed.

Lemma draws_for_each {A} r (I : Image -> Prop) (l : list A) body :
  (forall x, draws r I (fun _ => I) (body x)) ->
  draws r I (fun _ => I) (for_each l body).
Proof.
  intros Hb. induction l as [|x l IH]; cbn [for_each].
  - now apply draws_ret.
  - eapply draws_bind; [apply Hb|]. intros u. exact IH.
Qed.

(** A generator: a new transparent canvas, the drawing, the canvas. *)
Lemma generator_returns wd ht (body : positive -> M positive) :
  0 <= wd -> 0 <= ht ->
  (forall img, draws img (sized wd ht) (fun a im => a = img /\ sized wd ht im) (body img)) ->
  returns_canvas (img <- Image_new wd ht transparent ;; body img) wd ht.
Proof.
  intros Hw Hh Hbody w. apply wp_bind.
  eapply wp_mono; [apply wp_Image_new; assumption|].
  intros img w1 (-> & Hobj & Hfiles). cbn beta.
  eapply wp_mono.
  - eapply (Hbody _ w1); [rewrite Hobj; apply lookup_insert_eq|now apply blank_sized].
  - intros a w2 (im & [-> Hs] & Hobj2 & Hfiles2). split; [reflexivity|].
    exists im. split; [exact Hs|]. split; [|congruence].
    rewrite Hobj2, Hobj. apply insert_insert_eq.
Qed.

Lemma draws_let {A B} r (a : A) (k : A -> M B) P Q :
  draws r P Q (k a) -> draws r P Q (bind (ret a) k).
Proof. intros H. exact H. Qed.

(** a step that keeps the invariant [I], then the rest *)
Lemma draws_then {A B} r (I : Image -> Prop) (m : M A) (k : A -> M B) Q :
  draws r I (fun _ => I) m -> (forall a, draws r I Q (k a)) -> draws r I Q (bind m k).
Proof. intros Hm Hk. eapply draws_bind; [exact Hm|exact Hk]. Qed.

Ltac draw_sized :=
  repeat first
    [ apply draws_ret; intros ? ?; split; [reflexivity|assumption]
    | apply draws_shape; intros ? ?; apply paint_sized; [reflexivity|assumption]
    | apply draws_for_each; intros ?; shapes
    | apply draws_then; [|intros ?] ].

Ltac generator :=
  intros; apply generator_returns; [lia|lia|];
  intros img; unfold ImageDraw_Draw; apply draws_let; cbn zeta;
  shapes; draw_sized.

Lemma infantry_returns size :
  20 <= size -> returns_canvas (create_infantry_sprite covers size) size size.
Proof. unfold create_infantry_sprite. generator. Qed.

Lemma ranger_returns size :
  0 <= size -> returns_canvas (create_ranger_sprite covers size) size size.
Proof. unfold create_ranger_sprite. generator. Qed.

Lemma harvester_returns size :
  32 <= size -> returns_canvas (create_harvester_sprite covers size) size size.
Proof. unfold create_harvester_sprite. generator. Qed.

Lemma depot_returns size :
  8 <= size -> returns_canvas (create_depot_sprite covers size) size size.
Proof. unfold create_depot_sprite. generator. Qed.

Lemma barracks_returns size :
  6 <= size -> returns_canvas (create_barracks_sprite covers size) size size.
Proof. unfold create_barracks_sprite. generator. Qed.

Lemma supply_depot_returns size :
  19 <= size -> returns_canvas (create_supply_depot_sprite covers size) size size.
Proof. unfold create_supply_depot_sprite. generator. Qed.

Lemma tech_lab_returns size :
  9 <= size -> returns_canvas (create_tech_lab_sprite covers size) size size.
Proof. unfold create_tech_lab_sprite. generator. Qed.

Lemma turret_returns size :
  11 <= size -> returns_canvas (create_turret_sprite covers size) size size.
Proof. unfold create_turret_sprite. generator. Qed.

Lemma resource_node_returns size permanent :
  0 <= size -> (permanent = false -> 8 <= size) ->
  returns_canvas (create_resource_node_sprite covers size permanent) size size.
Proof.
  intros Hs Hp. unfold create_resource_node_sprite. destruct permanent.
  - generator.
  - specialize (Hp eq_refl). generator.
Qed.

Lemma terrain_returns size :
  0 <= size -> returns_canvas (create_terrain_sprite covers size) size 60.
Proof. unfold create_terrain_sprite. generator. Qed.

(** ** Single pixels of a drawing *)

Lemma pixel_at_paint im s fill x y :
  Image_wf im -> in_bounds im x y = true ->
  pixel_at (paint covers im s fill) x y =
    if covers s x y then Some fill else pixel_at im x y.
Proof.
  intros (Hw & Hh & Hlen & _) Hb.
  destruct (pixel_at_in_bounds im x y Hlen Hb) as (p & Hp & _).
  rewrite Hp. unfold pixel_at in *. cbn [paint width height data].
  change (in_bounds (paint covers im s fill) x y) with (in_bounds im x y).
  rewrite Hb in *. change (offset (paint covers im s fill) x y) with (offset im x y).
  rewrite list_lookup_imap, Hp. cbn.
  apply in_bounds_inv in Hb. destruct Hb as [Hx Hy].
  unfold offset. rewrite Z2Nat.id by nia.
  replace ((y * width im + x) mod width im) with x
    by (rewrite Z.add_comm, Z.mod_add, Z.mod_small; lia).
  replace ((y * width im + x) / width im) with y
    by (rewrite Z.add_comm, Z.div_add, Z.div_small; lia).
  now destruct (covers s x y).
Qed.

Lemma pixel_at_blank wd ht fill x y :
  0 <= x < wd -> 0 <= y < ht ->
  pixel_at {| width := wd; height := ht; data := replicate (Z.to_nat (wd * ht)) fill |} x y
  = Some fill.
Proof.
  intros Hx Hy. unfold pixel_at. rewrite in_bounds_true by (cbn; lia).
  cbn [data]. apply lookup_replicate_2. unfold offset. cbn [width]. nia.
Qed.

Lemma outside_box x0 y0 x1 y1 x y :
  stays_in_box covers ->
  ~ (x0 <= x <= x1 /\ y0 <= y <= y1) ->
  covers (Ellipse x0 y0 x1 y1) x y = false /\
  covers (Rectangle x0 y0 x1 y1) x y = false.
Proof.
  intros Hbox Hout. split.
  - destruct (covers (Ellipse x0 y0 x1 y1) x y) eqn:E; [|reflexivity].
    exfalso. apply Hout. eapply Hbox. left. exact E.
  - destruct (covers (Rectangle x0 y0 x1 y1) x y) eqn:E; [|reflexivity].
    exfalso. apply Hout. eapply Hbox. right. exact E.
Qed.

Lemma paint_alpha_binary im s fill :
  fill.2 = 255 -> alpha_binary im -> alpha_binary (paint covers im s fill).
Proof.
  intros Hfill Him. unfold alpha_binary, paint in *. cbn [data].
  apply Forall_lookup. intros i p Hp. rewrite list_lookup_imap in Hp.
  destruct (data im !! i) as [q|] eqn:Hq; [|discriminate]. cbn in Hp.
  injection Hp as <-. destruct (covers s _ _); [now right|].
  rewrite Forall_lookup in Him. eapply Him; eauto.
Qed.

(** A generator, with what its drawing establishes from the blank canvas. *)
Lemma generator_draws wd ht (body : positive -> M positive) (Q : Image -> Prop) w :
  0 <= wd -> 0 <= ht ->
  (forall img,
     draws img (fun im => im = {| width := wd; height := ht;
                                  data := replicate (Z.to_nat (wd * ht)) transparent |})
           (fun a im => a = img /\ Q im) (body img)) ->
  wp (img <- Image_new wd ht transparent ;; body img) w (fun r w' =>
    exists im, Q im /\ objects w' !! r = Some im).
Proof.
  intros Hw Hh Hbody. apply wp_bind.
  eapply wp_mono; [apply wp_Image_new; assumption|].
  intros img w1 (-> & Hobj & Hfiles). cbn beta.
  eapply wp_mono.
  - eapply (Hbody _ w1); [rewrite Hobj; apply lookup_insert_eq|reflexivity].
  - intros a w2 (im & [-> HQ] & Hobj2 & _). exists im. split; [exact HQ|].
    rewrite Hobj2. apply lookup_insert_eq.
Qed.

Lemma draws_shape_then {B} r s fill (P Q : Image -> Prop) (k : unit -> M B) R :
  (forall im, P im -> Q (paint covers im s fill)) ->
  draws r Q R (k tt) ->
  draws r P R (bind (draw_shape covers r s fill) k).
Proof.
  intros Hs Hk. eapply draws_bind; [apply draws_shape; exact Hs|].
  intros []. exact Hk.
Qed.

(** a pixel the shape does not cover keeps its value *)
Lemma paint_keeps wd ht im s fill x y p :
  sized wd ht im -> 0 <= x < wd -> 0 <= y < ht ->
  covers s x y = false -> pixel_at im x y = Some p ->
  pixel_at (paint covers im s fill) x y = Some p.
Proof.
  intros (Hw & Hh & Hwf) Hx Hy Hc Hp.
  rewrite pixel_at_paint, Hc; [exact Hp|exact Hwf|].
  apply in_bounds_true; lia.
Qed.

(** a pixel the shape covers gets the ink *)
Lemma paint_sets wd ht im s fill x y :
  sized wd ht im -> 0 <= x < wd -> 0 <= y < ht ->
  covers s x y = true ->
  pixel_at (paint covers im s fill) x y = Some fill.
Proof.
  intros (Hw & Hh & Hwf) Hx Hy Hc.
  rewrite pixel_at_paint, Hc; [reflexivity|exact Hwf|].
  apply in_bounds_true; lia.
Qed.

End Drawing.

(** * The generators *)

(** ** A canvas, where one is returned *)

Section IfReturned.

Variable covers : shape -> Z -> Z -> bool.
Context {A B : Type}.
Variable r : positive.

Lemma may_draw_ret (a : A) (P : Image -> Prop) (Q : A -> Image -> Prop) :
  (forall im, P im -> Q a im) -> may_draw r P Q (ret a).
Proof. intros H w im Hr HP a' w' [= <- <-]. eauto. Qed.

Lemma may_draw_raise (P : Image -> Prop) (Q : A -> Image -> Prop) :
  may_draw r P Q raise.
Proof. intros w im Hr HP a w' [=]. Qed.

Lemma may_draw_bind (m : M A) (k : A -> M B) P (Q : A -> Image -> Prop) R :
  may_draw r P Q m -> (forall a, may_draw r (Q a) R (k a)) -> may_draw r P R (bind m k).
Proof.
  intros Hm Hk w im Hr HP b w2. unfold bind.
  destruct (m w) as [[a|] w1] eqn:Em; [|discriminate].
  destruct (Hm w im Hr HP a w1 Em) as (im1 & HQ & Hr1).
  intros Ek. exact (Hk a w1 im1 Hr1 HQ b w2 Ek).
Qed.

End IfReturned.

Section IfReturnedShapes.

Variable covers : shape -> Z -> Z -> bool.

Lemma may_draw_shape r s fill (I : Image -> Prop) :
  (forall im, I im -> I (paint covers im s fill)) ->
  may_draw r I (fun _ => I) (draw_shape covers r s fill).
Proof.
  intros H w im Hr HI a w'. unfold draw_shape, bind, read, write. rewrite Hr.
  intros [= <- <-]. exists (paint covers im s fill). cbn.
  split; [auto|apply lookup_insert_eq].
Qed.

Lemma may_draw_ellipse r x0 y0 x1 y1 fill (I : Image -> Prop) :
  (forall im, I im -> I (paint covers im (Ellipse x0 y0 x1 y1) fill)) ->
  may_draw r I (fun _ => I) (ellipse covers r x0 y0 x1 y1 fill).
Proof.
  intros H. unfold ellipse.
  destruct (ordered x0 y0 x1 y1); [now apply may_draw_shape|apply may_draw_raise].
Qed.

Lemma may_draw_rectangle r x0 y0 x1 y1 fill (I : Image -> Prop) :
  (forall im, I im -> I (paint covers im (Rectangle x0 y0 x1 y1) fill)) ->
  may_draw r I (fun _ => I) (rectangle covers r x0 y0 x1 y1 fill).
Proof.
  intros H. unfold rectangle.
  destruct (ordered x0 y0 x1 y1); [now apply may_draw_shape|apply may_draw_raise].
Qed.

Lemma may_draw_arc r x0 y0 x1 y1 start stop fill wd (I : Image -> Prop) :
  (forall im, I im -> I (paint covers im (Arc x0 y0 x1 y1 start stop wd) fill)) ->
  may_draw r I (fun _ => I) (arc covers r x0 y0 x1 y1 start stop fill wd).
Proof.
  intros H. unfold arc.
  destruct (ordered x0 y0 x1 y1); [now apply may_draw_shape|apply may_draw_raise].
Qed.

Lemma may_draw_for_each {A} r (I : Image -> Prop) (l : list A) body :
  (forall x, may_draw r I (fun _ => I) (body x)) ->
  may_draw r I (fun _ => I) (for_each l body).
Proof.
  intros Hb. induction l as [|x l IH]; cbn [for_each].
  - now apply may_draw_ret.
  - eapply may_draw_bind; [apply Hb|]. intros u. exact IH.
Qed.

Lemma may_draw_let {A B} r (a : A) (k : A -> M B) P Q :
  may_draw r P Q (k a) -> may_draw r P Q (bind (ret a) k).
Proof. intros H. exact H. Qed.

Lemma may_draw_then {A B} r (I : Image -> Prop) (m : M A) (k : A -> M B) Q :
  may_draw r I (fun _ => I) m -> (forall a, may_draw r I Q (k a)) ->
  may_draw r I Q (bind m k).
Proof. intros Hm Hk. eapply may_draw_bind; [exact Hm|exact Hk]. Qed.

(** A generator, where it returns: a new transparent canvas, the drawing,
    the canvas. *)
Lemma generator_if_returned wd ht (body : positive -> M positive) :
  (forall img, may_draw img (sized wd ht) (fun a im => a = img /\ sized wd ht im)
                 (body img)) ->
  canvas_if_returned (img <- Image_new wd ht transparent ;; body img) wd ht.
Proof.
  intros Hbody w r w'. unfold bind, Image_new.
  destruct (Z.ltb_spec wd 0) as [|Hw]; [discriminate|].
  destruct (Z.ltb_spec ht 0) as [|Hh]; [discriminate|].
  cbn [orb]. unfold alloc. set (img := fresh (dom (objects w))).
  intros Hrun.
  destruct (Hbody img _ _ (lookup_insert_eq _ _ _) (blank_sized wd ht Hw Hh) r w' Hrun)
    as (im & [-> Hs] & Hr).
  eauto.
Qed.

End IfReturnedShapes.

Ltac may_draw_sized :=
  repeat first
    [ apply may_draw_ret; intros ? ?; split; [reflexivity|assumption]
    | apply may_draw_ellipse; intros ? ?; apply paint_sized; [reflexivity|assumption]
    | apply may_draw_rectangle; intros ? ?; apply paint_sized; [reflexivity|assumption]
    | apply may_draw_arc; intros ? ?; apply paint_sized; [reflexivity|assumption]
    | apply may_draw_shape; intros ? ?; apply paint_sized; [reflexivity|assumption]
    | apply may_draw_for_each; intros ?; cbn beta
    | apply may_draw_then; [|intros ?] ].

Ltac if_returned :=
  apply generator_if_returned; intros img;
  unfold ImageDraw_Draw; apply may_draw_let;
  cbn zeta; unfold polygon, line; may_draw_sized.

(** C2. Every generator returns a canvas of the declared dimensions: [size]
    by [size], and [size] by 60 for the terrain generator.  A canvas is
    returned from a least size on, below which the boxes of a rectangle or
    an ellipse are out of order; and wherever a generator returns, at any
    size, what it returns is a canvas of the declared dimensions. *)
Theorem generators_dimensions covers size :
  ((20 <= size -> returns_canvas (create_infantry_sprite covers size) size size) /\
   canvas_if_returned (create_infantry_sprite covers size) size size) /\
  ((0 <= size -> returns_canvas (create_ranger_sprite covers size) size size) /\
   canvas_if_returned (create_ranger_sprite covers size) size size) /\
  ((32 <= size -> returns_canvas (create_harvester_sprite covers size) size size) /\
   canvas_if_returned (create_harvester_sprite covers size) size size) /\
  ((8 <= size -> returns_canvas (create_depot_sprite covers size) size size) /\
   canvas_if_returned (create_depot_sprite covers size) size size) /\
  ((6 <= size -> returns_canvas (create_barracks_sprite covers size) size size) /\
   canvas_if_returned (create_barracks_sprite covers size) size size) /\
  ((19 <= size -> returns_canvas (create_supply_depot_sprite covers size) size size) /\
   canvas_if_returned (create_supply_depot_sprite covers size) size size) /\
  ((9 <= size -> returns_canvas (create_tech_lab_sprite covers size) size size) /\
   canvas_if_returned (create_tech_lab_sprite covers size) size size) /\
  ((11 <= size -> returns_canvas (create_turret_sprite covers size) size size) /\
   canvas_if_returned (create_turret_sprite covers size) size size) /\
  ((8 <= size ->
    returns_canvas (create_resource_node_sprite covers size false) size size) /\
   canvas_if_returned (create_resource_node_sprite covers size false) size size) /\
  ((0 <= size ->
    returns_canvas (create_resource_node_sprite covers size true) size size) /\
   canvas_if_returned (create_resource_node_sprite covers size true) size size) /\
  ((0 <= size -> returns_canvas (create_terrain_sprite covers size) size 60) /\
   canvas_if_returned (create_terrain_sprite covers size) size 60).
Proof.
  repeat match goal with |- _ /\ _ => split end.
  - apply infantry_returns.
  - unfold create_infantry_sprite. if_returned.
  - apply ranger_returns.
  - unfold create_ranger_sprite. if_returned.
  - apply harvester_returns.
  - unfold create_harvester_sprite. if_returned.
  - apply depot_returns.
  - unfold create_depot_sprite. if_returned.
  - apply barracks_returns.
  - unfold create_barracks_sprite. if_returned.
  - apply supply_depot_returns.
  - unfold create_supply_depot_sprite. if_returned.
  - apply tech_lab_returns.
  - unfold create_tech_lab_sprite. if_returned.
  - apply turret_returns.
  - unfold create_turret_sprite. if_returned.
  - intros Hs. apply resource_node_returns; [lia|intros _; exact Hs].
  - unfold create_resource_node_sprite. if_returned.
  - intros Hs. apply resource_node_returns; [exact Hs|discriminate].
  - unfold create_resource_node_sprite. if_returned.
  - apply terrain_returns.
  - unfold create_terrain_sprite. if_returned.
Qed.

Lemma generators_dimensions_witness :
  returns_canvas (create_infantry_sprite box_raster 20) 20 20 /\
  returns_canvas (create_harvester_sprite box_raster 32) 32 32 /\
  returns_canvas (create_terrain_sprite box_raster 32) 32 60 /\
  canvas_if_returned (create_infantry_sprite box_raster 16) 16 16.
Proof.
  pose proof (generators_dimensions box_raster 20) as H20.
  pose proof (generators_dimensions box_raster 32) as H32.
  pose proof (generators_dimensions box_raster 16) as H16.
  split; [apply H20; lia|]. split; [apply H32; lia|].
  split; [apply H32; lia|apply H16].
Defined.

Lemma box_raster_stays_in_box : stays_in_box box_raster.
Proof.
  intros x0 y0 x1 y1 x y [H|H]; cbn in H; unfold in_box in H;
    rewrite !andb_true_iff, !Z.leb_le in H; lia.
Qed.

Lemma box_raster_covers_centre : covers_centre box_raster.
Proof.
  intros x0 y0 x1 y1 Hx Hy. cbn. unfold in_box.
  rewrite !andb_true_iff, !Z.leb_le.
  set (x := (x0 + x1) / 2). set (y := (y0 + y1) / 2).
  assert (Hxc : -1 <= 2 * x - x0 - x1 <= 0) by (unfold x; Z.div_mod_to_equations; lia).
  assert (Hyc : -1 <= 2 * y - y0 - y1 <= 0) by (unfold y; Z.div_mod_to_equations; lia).
  repeat split; try lia. rewrite !Z.pow_2_r.
  assert (Hx2 : 0 <= (2 * x - x0 - x1) * (2 * x - x0 - x1) <= 1) by nia.
  assert (Hy2 : 0 <= (2 * y - y0 - y1) * (2 * y - y0 - y1) <= 1) by nia.
  assert (Hw : 4 <= (x1 - x0) * (x1 - x0)) by nia.
  assert (Hh : 4 <= (y1 - y0) * (y1 - y0)) by nia.
  set (a := (2 * x - x0 - x1) * (2 * x - x0 - x1)) in *.
  set (b := (2 * y - y0 - y1) * (2 * y - y0 - y1)) in *.
  set (wd := (x1 - x0) * (x1 - x0)) in *. set (ht := (y1 - y0) * (y1 - y0)) in *.
  nia.
Qed.

Lemma ellipse_outside covers x0 y0 x1 y1 x y :
  stays_in_box covers -> ~ (x0 <= x <= x1 /\ y0 <= y <= y1) ->
  covers (Ellipse x0 y0 x1 y1) x y = false.
Proof. intros Hb Ho. now apply outside_box. Qed.

Lemma rectangle_outside covers x0 y0 x1 y1 x y :
  stays_in_box covers -> ~ (x0 <= x <= x1 /\ y0 <= y <= y1) ->
  covers (Rectangle x0 y0 x1 y1) x y = false.
Proof. intros Hb Ho. now apply outside_box. Qed.

(** a shape drawn elsewhere leaves the pixel as it is *)
Ltac elsewhere :=
  first [ apply ellipse_outside | apply rectangle_outside ];
  [ assumption | Z.div_mod_to_equations; lia ].

(** C7. With a rasteriser that keeps an ellipse and a rectangle inside
    their box and fills the centre of an ellipse, [create_turret_sprite(24)]
    returns a canvas of 24 by 24 pixels whose corner pixel (0, 0) is fully
    transparent and whose pixel (12, 14), the centre of the turret head's
    box (6, 8)-(18, 20), is the opaque (120, 120, 120, 255). *)
Theorem turret_sprite_24 covers w :
  stays_in_box covers -> covers_centre covers ->
  wp (create_turret_sprite covers 24) w (fun r w' =>
    exists im, (width im = 24 /\ height im = 24 /\
                pixel_at im 0 0 = Some (0, 0, 0, 0) /\
                pixel_at im 12 14 = Some (120, 120, 120, 255)) /\
               objects w' !! r = Some im).
Proof.
  intros Hbox Hcentre. unfold create_turret_sprite.
  apply generator_draws; [lia|lia|]. intros img.
  unfold ImageDraw_Draw. apply draws_let. cbn zeta. shapes.
  set (I0 := fun im => sized 24 24 im /\ pixel_at im 0 0 = Some transparent).
  set (I1 := fun im => I0 im /\ pixel_at im 12 14 = Some (120, 120, 120, 255)).
  apply draws_shape_then with (Q := I0).
  { intros im ->. pose proof (blank_sized 24 24 ltac:(lia) ltac:(lia)) as Hs. split.
    - apply paint_sized; [reflexivity|exact Hs].
    - eapply paint_keeps; [exact Hs|lia|lia|elsewhere|apply pixel_at_blank; lia]. }
  apply draws_shape_then with (Q := I0).
  { intros im [Hs H0]. split.
    - apply paint_sized; [reflexivity|exact Hs].
    - eapply paint_keeps; [exact Hs|lia|lia|elsewhere|exact H0]. }
  apply draws_shape_then with (Q := I1).
  { intros im [Hs H0]. split; [split|].
    - apply paint_sized; [reflexivity|exact Hs].
    - eapply paint_keeps; [exact Hs|lia|lia|elsewhere|exact H0].
    - eapply paint_sets; [exact Hs|lia|lia|].
      change (covers (Ellipse 6 8 18 20) ((6 + 18) / 2) ((8 + 20) / 2) = true).
      apply Hcentre; lia. }
  apply draws_shape_then with (Q := I1).
  { intros im [[Hs H0] H1]. split; [split|].
    - apply paint_sized; [reflexivity|exact Hs].
    - eapply paint_keeps; [exact Hs|lia|lia|elsewhere|exact H0].
    - eapply paint_keeps; [exact Hs|lia|lia|elsewhere|exact H1]. }
  apply draws_shape_then with (Q := I1).
  { intros im [[Hs H0] H1]. split; [split|].
    - apply paint_sized; [reflexivity|exact Hs].
    - eapply paint_keeps; [exact Hs|lia|lia|elsewhere|exact H0].
    - eapply paint_keeps; [exact Hs|lia|lia|elsewhere|exact H1]. }
  apply draws_ret. intros im [[(Hw & Hh & _) H0] H1]. auto.
Qed.

Lemma turret_sprite_24_witness :
  wp (create_turret_sprite box_raster 24) empty_world (fun r w' =>
    exists im, (width im = 24 /\ height im = 24 /\
                pixel_at im 0 0 = Some (0, 0, 0, 0) /\
                pixel_at im 12 14 = Some (120, 120, 120, 255)) /\
               objects w' !! r = Some im).
Proof.
  apply (turret_sprite_24 box_raster empty_world).
  - exact box_raster_stays_in_box.
  - exact box_raster_covers_centre.
Defined.

Lemma blank_alpha_binary wd ht :
  alpha_binary {| width := wd; height := ht;
                  data := replicate (Z.to_nat (wd * ht)) transparent |}.
Proof. apply Forall_replicate. now left. Qed.

Lemma alpha_binary_pixel im x y p :
  alpha_binary im -> pixel_at im x y = Some p -> p.2 = 0 \/ p.2 = 255.
Proof.
  intros Hb Hp. apply pixel_at_elem in Hp.
  unfold alpha_binary in Hb. rewrite Forall_forall in Hb. now apply Hb.
Qed.

(** C8. [create_resource_node_sprite] branches on [permanent].  At size 40,
    with a rasteriser as for the turret,
    the permanent node, three polygons under a glow ellipse, has the
    translucent pixel (100, 255, 150, 100) at (20, 23), the centre of the
    glow; the temporary node, a pile of ellipses, has the glint
    (255, 240, 180, 255) at (20, 18) and no pixel whose alpha is other than
    0 or 255, so that the two canvases differ at (20, 23). *)
Theorem resource_node_branches covers w :
  stays_in_box covers -> covers_centre covers ->
  wp (create_resource_node_sprite covers 40 true) w (fun r w' =>
    exists im, (sized 40 40 im /\
                pixel_at im 20 23 = Some (100, 255, 150, 100)) /\
               objects w' !! r = Some im) /\
  wp (create_resource_node_sprite covers 40 false) w (fun r w' =>
    exists im, (sized 40 40 im /\
                pixel_at im 20 18 = Some (255, 240, 180, 255) /\
                (forall x y p, pixel_at im x y = Some p -> p.2 = 0 \/ p.2 = 255) /\
                pixel_at im 20 23 <> Some (100, 255, 150, 100)) /\
               objects w' !! r = Some im).
Proof.
  intros Hbox Hcentre. unfold create_resource_node_sprite. split.
  - apply generator_draws; [lia|lia|]. intros img.
    unfold ImageDraw_Draw. apply draws_let. cbn zeta. shapes.
    eapply draws_bind with
      (Q := fun _ im => sized 40 40 im /\ pixel_at im 20 23 = Some (100, 255, 150, 100)).
    2:{ intros u. apply draws_ret. auto. }
    apply draws_shape_then with (Q := sized 40 40).
    { intros im ->. apply paint_sized; [reflexivity|apply blank_sized; lia]. }
    apply draws_shape_then with (Q := sized 40 40).
    { intros im Hs. now apply paint_sized. }
    apply draws_shape_then with (Q := sized 40 40).
    { intros im Hs. now apply paint_sized. }
    apply draws_shape. intros im Hs. split; [now apply paint_sized|].
    eapply paint_sets; [exact Hs|lia|lia|].
    change (covers (Ellipse 14 18 26 28) ((14 + 26) / 2) ((18 + 28) / 2) = true).
    apply Hcentre; lia.
  - apply generator_draws; [lia|lia|]. intros img.
    unfold ImageDraw_Draw. apply draws_let. cbn zeta. shapes.
    set (J0 := fun im => sized 40 40 im /\ alpha_binary im).
    set (J1 := fun im => J0 im /\ pixel_at im 20 18 = Some (255, 240, 180, 255)).
    eapply draws_bind with (Q := fun _ => J1).
    2:{ intros u. apply draws_ret. intros im [[Hs Hb] Hg].
        split; [reflexivity|]. repeat split; try apply Hs; try assumption.
        - intros x y p. now apply alpha_binary_pixel.
        - intros Hp. apply (alpha_binary_pixel _ _ _ _ Hb) in Hp. cbn in Hp. lia. }
    apply draws_shape_then with (Q := J0).
    { intros im ->. split.
      - apply paint_sized; [reflexivity|apply blank_sized; lia].
      - apply paint_alpha_binary; [reflexivity|apply blank_alpha_binary]. }
    eapply draws_bind with (Q := fun _ => J0).
    { apply draws_for_each. intros i. shapes. apply draws_shape. intros im [Hs Hb]. split.
      - now apply paint_sized.
      - now apply paint_alpha_binary. }
    intros u.
    apply draws_shape_then with (Q := J1).
    { intros im [Hs Hb]. split; [split|].
      - now apply paint_sized.
      - now apply paint_alpha_binary.
      - eapply paint_sets; [exact Hs|lia|lia|].
        change (covers (Ellipse 18 16 22 20) ((18 + 22) / 2) ((16 + 20) / 2) = true).
        apply Hcentre; lia. }
    apply draws_shape. intros im [[Hs Hb] Hg]. split; [split|].
    + now apply paint_sized.
    + now apply paint_alpha_binary.
    + eapply paint_keeps; [exact Hs|lia|lia|elsewhere|exact Hg].
Qed.

Lemma resource_node_branches_witness :
  wp (create_resource_node_sprite box_raster 40 true) empty_world (fun r w' =>
    exists im, (sized 40 40 im /\
                pixel_at im 20 23 = Some (100, 255, 150, 100)) /\
               objects w' !! r = Some im).
Proof.
  apply (resource_node_branches box_raster empty_world).
  - exact box_raster_stays_in_box.
  - exact box_raster_covers_centre.
Defined.

(** * The image of a generator

    The drawing of a generator followed image by image: from a known image
    every step leaves a known image, so that the canvas a generator returns
    is one image, the same in every store. *)

Section Exact.

Variable covers : shape -> Z -> Z -> bool.

Lemma exact_ret {A} r (a : A) im :
  draws r (fun im' => im' = im) (fun _ im' => im' = im) (ret a).
Proof. apply draws_ret. auto. Qed.

Lemma exact_ret_val {A} r (a : A) im :
  draws r (fun im' => im' = im) (fun b im' => b = a /\ im' = im) (ret a).
Proof. apply draws_ret. auto. Qed.

Lemma exact_shape r s fill im :
  draws r (fun im' => im' = im) (fun _ im' => im' = paint covers im s fill)
    (draw_shape covers r s fill).
Proof. apply draws_shape. now intros im' ->. Qed.

Lemma exact_bind {A B} r im im1 (m : M A) (k : A -> M B) Q :
  draws r (fun im' => im' = im) (fun _ im' => im' = im1) m ->
  (forall a, draws r (fun im' => im' = im1) Q (k a)) ->
  draws r (fun im' => im' = im) Q (bind m k).
Proof. intros Hm Hk. eapply draws_bind; [exact Hm|exact Hk]. Qed.

Lemma generator_produces wd ht (body : positive -> M positive) G :
  0 <= wd -> 0 <= ht ->
  (forall img,
     draws img (fun im => im = {| width := wd; height := ht;
                                  data := replicate (Z.to_nat (wd * ht)) transparent |})
           (fun a im => a = img /\ im = G) (body img)) ->
  produces (img <- Image_new wd ht transparent ;; body img) G.
Proof.
  intros Hw Hh Hbody w. apply wp_bind.
  eapply wp_mono; [apply wp_Image_new; assumption|].
  intros img w1 (-> & Hobj & Hfiles). cbn beta.
  eapply wp_mono.
  - eapply (Hbody _ w1); [rewrite Hobj; apply lookup_insert_eq|reflexivity].
  - intros a w2 (im & [-> ->] & Hobj2 & Hfiles2). split; [reflexivity|].
    split; [|congruence]. rewrite Hobj2, Hobj. apply insert_insert_eq.
Qed.

End Exact.

(** follow a drawing step by step *)
Ltac exactly :=
  first [ apply exact_shape
        | apply exact_ret
        | apply exact_ret_val
        | eapply exact_bind; [exactly|intros ?; exactly] ].

(** write a loop over [range(n)] out as its iterations *)
Ltac unroll :=
  repeat match goal with
  | |- context [range ?n] =>
      let l := eval vm_compute in (range n) in change (range n) with l
  end;
  cbn [for_each].

Ltac produced :=
  intros; eexists; apply generator_produces; [lia|lia|];
  intros img; unfold ImageDraw_Draw; apply draws_let; cbn zeta;
  unroll; shapes; exactly.

Lemma infantry_image covers size :
  20 <= size -> exists G, produces (create_infantry_sprite covers size) G.
Proof. unfold create_infantry_sprite. produced. Qed.

Lemma ranger_image covers size :
  0 <= size -> exists G, produces (create_ranger_sprite covers size) G.
Proof. unfold create_ranger_sprite. produced. Qed.

Lemma harvester_image covers size :
  32 <= size -> exists G, produces (create_harvester_sprite covers size) G.
Proof. unfold create_harvester_sprite. produced. Qed.

Lemma depot_image covers size :
  8 <= size -> exists G, produces (create_depot_sprite covers size) G.
Proof. unfold create_depot_sprite. produced. Qed.

Lemma barracks_image covers size :
  6 <= size -> exists G, produces (create_barracks_sprite covers size) G.
Proof. unfold create_barracks_sprite. produced. Qed.

Lemma supply_depot_image covers size :
  19 <= size -> exists G, produces (create_supply_depot_sprite covers size) G.
Proof. unfold create_supply_depot_sprite. produced. Qed.

Lemma tech_lab_image covers size :
  9 <= size -> exists G, produces (create_tech_lab_sprite covers size) G.
Proof. unfold create_tech_lab_sprite. produced. Qed.

Lemma turret_image covers size :
  11 <= size -> exists G, produces (create_turret_sprite covers size) G.
Proof. unfold create_turret_sprite. produced. Qed.

Lemma resource_node_image covers size permanent :
  0 <= size -> (permanent = false -> 8 <= size) ->
  exists G, produces (create_resource_node_sprite covers size permanent) G.
Proof.
  intros Hs Hp. unfold create_resource_node_sprite. destruct permanent.
  - produced.
  - specialize (Hp eq_refl). produced.
Qed.

Lemma terrain_image covers size :
  0 <= size -> exists G, produces (create_terrain_sprite covers size) G.
Proof. unfold create_terrain_sprite. produced. Qed.

(** * The driver *)

Lemma write_all_app m l l' : write_all m (l ++ l') = write_all (write_all m l) l'.
Proof. apply foldl_app. Qed.

Lemma write_all_dom l : forall m,
  dom (write_all m l) = list_to_set l.*1 ∪ dom m.
Proof.
  induction l as [|[p im] l IH]; intros m.
  - change (dom m = ∅ ∪ dom m). now rewrite (left_id_L ∅ (∪)).
  - change (dom (write_all (<[p := im]> m) l) = ({[p]} ∪ list_to_set l.*1) ∪ dom m).
    rewrite IH, dom_insert_L.
    rewrite (assoc_L (∪)), (comm_L (∪) (list_to_set l.*1) {[p]}). reflexivity.
Qed.

Lemma write_all_other l : forall m p,
  p ∉ l.*1 -> write_all m l !! p = m !! p.
Proof.
  induction l as [|[q im] l IH]; intros m p Hp; cbn; [reflexivity|].
  cbn in Hp. apply not_elem_of_cons in Hp. destruct Hp as [Hne Hp].
  unfold write_all in *. cbn. rewrite IH by exact Hp. now apply lookup_insert_ne.
Qed.

Lemma write_all_lookup l : forall m p im,
  NoDup l.*1 -> (p, im) ∈ l -> write_all m l !! p = Some im.
Proof.
  induction l as [|[q i] l IH]; intros m p im Hnd Hin.
  - inversion Hin.
  - cbn in Hnd. apply NoDup_cons in Hnd. destruct Hnd as [Hq Hnd].
    apply elem_of_cons in Hin. destruct Hin as [Heq|Hin].
    + injection Heq as -> ->. unfold write_all. cbn.
      fold (write_all (<[q := i]> m) l). rewrite write_all_other by exact Hq.
      apply lookup_insert_eq.
    + unfold write_all. cbn. fold (write_all (<[q := i]> m) l). now apply IH.
Qed.

Lemma holds_weaken w w' r im d :
  objects w ⊆ objects w' -> holds w r im d -> holds w' r im d.
Proof. intros Hsub [Hr Hs]. split; [|exact Hs]. eapply lookup_weaken; eauto. Qed.

Lemma wp_save r path im w (Q : unit -> World -> Prop) :
  objects w !! r = Some im ->
  Q tt {| objects := objects w; files := <[path := im]> (files w) |} ->
  wp (save r path) w Q.
Proof. intros Hr HQ. eexists tt, _. unfold save. rewrite Hr. auto. Qed.

(** Writing the base sprites. *)
Lemma wp_save_all (path : string -> string) (sprites : list (string * positive)) :
  forall (entries : list (Image * (Z * Z))) w,
  Forall2 (fun s e => holds w s.2 e.1 e.2) sprites entries ->
  wp (for_each sprites (fun '(name, img) => save img (path name))) w (fun _ w' =>
    objects w' = objects w /\
    files w' = write_all (files w) (zip (path <$> sprites.*1) entries.*1)).
Proof.
  induction sprites as [|[name img] sprites IH]; intros entries w Hall.
  - apply Forall2_nil_inv_l in Hall. subst. apply wp_ret. auto.
  - apply Forall2_cons_inv_l in Hall.
    destruct Hall as ([im d] & entries' & [Hr Hs] & Hall & ->).
    cbn [for_each]. apply wp_bind. eapply wp_save; [exact Hr|].
    set (w1 := {| objects := objects w; files := <[path name := im]> (files w) |}).
    eapply wp_mono; [apply (IH entries' w1); exact Hall|].
    intros u w' [Hobj Hfiles]. split; [exact Hobj|]. rewrite Hfiles. reflexivity.
Qed.

(** Tinting and writing the sprites of one faction. *)
Lemma wp_tint_all (path : string -> string) (sprites : list (string * positive)) c t
    (names : list string) :
  rgb_ok c = true -> unit_interval t = true ->
  forall (entries : list (Image * (Z * Z))) w,
  Forall2 (fun name e => exists r, dict_get sprites name = Some r /\ holds w r e.1 e.2)
          names entries ->
  wp (for_each names (fun sprite_name =>
        img <- lift (dict_get sprites sprite_name) ;;
        tinted <- apply_faction_tint img c t ;;
        save tinted (path sprite_name))) w (fun _ w' =>
    objects w ⊆ objects w' /\
    files w' = write_all (files w) (zip (path <$> names) (tint_image c t <$> entries.*1))).
Proof.
  intros Hc Ht. induction names as [|name names IH]; intros entries w Hall.
  - apply Forall2_nil_inv_l in Hall. subst. apply wp_ret. auto.
  - apply Forall2_cons_inv_l in Hall.
    destruct Hall as ([im d] & entries' & (r & Hget & Hr & Hs) & Hall & ->).
    cbn [for_each]. apply wp_bind. apply wp_bind. eapply wp_lift; [exact Hget|].
    apply wp_bind. eapply wp_mono.
    { apply (tint_returns w r im c t); [exact Hr|apply Hs|exact Hc|exact Ht]. }
    intros res w1 (Hres & Hobj & Hfiles). cbn beta.
    assert (Hsub : objects w ⊆ objects w1).
    { rewrite Hobj, Hres. apply insert_subseteq, fresh_object. }
    eapply wp_save; [rewrite Hobj; apply lookup_insert_eq|].
    set (w2 := {| objects := objects w1;
                  files := <[path name := tint_image c t im]> (files w1) |}).
    eapply wp_mono.
    { apply (IH entries' w2). eapply Forall2_impl; [exact Hall|].
      intros n e (r' & Hg & Hh). exists r'. split; [exact Hg|].
      eapply holds_weaken; [|exact Hh]. exact Hsub. }
    intros u w' [Hobj' Hfiles']. split.
    + etrans; [exact Hsub|exact Hobj'].
    + rewrite Hfiles'. cbn [w2 files]. rewrite Hfiles. reflexivity.
Qed.

Lemma tint_image_sized c t im wd ht :
  rgb_ok c = true -> unit_interval t = true ->
  sized wd ht im -> sized wd ht (tint_image c t im).
Proof.
  intros Hc Ht (Hw & Hh & Hwf). repeat split; try assumption.
  all: now apply tint_image_wf.
Qed.

Ltac carry_holds :=
  repeat match goal with
  | S : objects ?w ⊆ objects ?w', H : holds ?w _ _ _ |- _ =>
      apply (holds_weaken _ _ _ _ _ S) in H
  end.

Lemma f035_unit : unit_interval (PyFloat (literal 35 100)) = true.
Proof. vm_compute. reflexivity. Qed.

Lemma holds_same w w' r im d :
  objects w' = objects w -> holds w r im d -> holds w' r im d.
Proof. intros Ho [Hr Hs]. split; [now rewrite Ho|exact Hs]. Qed.

(** what a generator produces is the canvas it returns *)
Lemma produces_sized gen wd ht G :
  returns_canvas gen wd ht -> produces gen G -> sized wd ht G.
Proof.
  intros Hret Hprod.
  destruct (wp_agree _ _ _ _ (Hret empty_world) (Hprod empty_world))
    as (r & w' & _ & (_ & im & Hs & Hobj & _) & (_ & Hobj' & _)).
  rewrite Hobj in Hobj'. apply (f_equal (fun m => m !! r)) in Hobj'.
  rewrite !lookup_insert_eq in Hobj'. congruence.
Qed.

Lemma wp_produces gen wd ht G w (Q : positive -> World -> Prop) :
  sized wd ht G -> produces gen G ->
  (forall r w',
     objects w ⊆ objects w' -> files w' = files w -> holds w' r G (wd, ht) -> Q r w') ->
  wp gen w Q.
Proof.
  intros Hs Hgen HQ. eapply wp_mono; [apply Hgen|].
  intros r w' (-> & Hobj & Hfiles). apply HQ.
  - rewrite Hobj. apply insert_subseteq, fresh_object.
  - exact Hfiles.
  - split; [rewrite Hobj; apply lookup_insert_eq|exact Hs].
Qed.

Ltac run_produces Hs Hp r H :=
  apply wp_bind; eapply wp_produces; [exact Hs|exact Hp|];
  let w := fresh "w" in let S := fresh "S" in let F := fresh "F" in
  intros r w S F H; carry_holds; clear S;
  repeat match goal with
  | F' : files ?a = _ |- _ =>
      match type of F with files _ = files a => rewrite F' in F; clear F' end
  end.

(** The images of a run do not depend on the store or on the directory the
    run starts from: the base sprites are the generators' images, each
    tinted file the tint of its base sprite. *)
Lemma main_images covers dir :
  exists base,
    Forall2 (fun im e => sized e.2.1 e.2.2 im) base catalog /\
    Forall2 (fun im e => produces e.2 im) base (sprite_calls covers) /\
    forall w, wp (main covers dir) w (fun _ w' =>
      files w' = write_all (files w)
        (zip (written_files dir).*1
           (base ++ (tint_image CONTINUITY_BLUE (PyFloat f035) <$> take 8 base)
                 ++ (tint_image COLLEGIUM_GOLD (PyFloat f035) <$> take 8 base)))).
Proof.
  destruct (infantry_image covers 32 ltac:(lia)) as [im1 P1].
  destruct (ranger_image covers 32 ltac:(lia)) as [im2 P2].
  destruct (harvester_image covers 36 ltac:(lia)) as [im3 P3].
  destruct (depot_image covers 64 ltac:(lia)) as [im4 P4].
  destruct (barracks_image covers 48 ltac:(lia)) as [im5 P5].
  destruct (supply_depot_image covers 32 ltac:(lia)) as [im6 P6].
  destruct (tech_lab_image covers 40 ltac:(lia)) as [im7 P7].
  destruct (turret_image covers 24 ltac:(lia)) as [im8 P8].
  destruct (resource_node_image covers 40 false ltac:(lia) ltac:(intros; lia))
    as [im9 P9].
  destruct (resource_node_image covers 40 true ltac:(lia) ltac:(intros; lia))
    as [im10 P10].
  destruct (terrain_image covers 80 ltac:(lia)) as [im11 P11].
  pose proof (produces_sized _ _ _ _ (infantry_returns covers 32 ltac:(lia)) P1) as S1.
  pose proof (produces_sized _ _ _ _ (ranger_returns covers 32 ltac:(lia)) P2) as S2.
  pose proof (produces_sized _ _ _ _ (harvester_returns covers 36 ltac:(lia)) P3) as S3.
  pose proof (produces_sized _ _ _ _ (depot_returns covers 64 ltac:(lia)) P4) as S4.
  pose proof (produces_sized _ _ _ _ (barracks_returns covers 48 ltac:(lia)) P5) as S5.
  pose proof (produces_sized _ _ _ _ (supply_depot_returns covers 32 ltac:(lia)) P6) as S6.
  pose proof (produces_sized _ _ _ _ (tech_lab_returns covers 40 ltac:(lia)) P7) as S7.
  pose proof (produces_sized _ _ _ _ (turret_returns covers 24 ltac:(lia)) P8) as S8.
  pose proof (produces_sized _ _ _ _
                (resource_node_returns covers 40 false ltac:(lia) ltac:(intros; lia)) P9)
    as S9.
  pose proof (produces_sized _ _ _ _
                (resource_node_returns covers 40 true ltac:(lia) ltac:(intros; lia)) P10)
    as S10.
  pose proof (produces_sized _ _ _ _ (terrain_returns covers 80 ltac:(lia)) P11) as S11.
  set (units := [(im1, (32, 32)); (im2, (32, 32)); (im3, (36, 36)); (im4, (64, 64));
                 (im5, (48, 48)); (im6, (32, 32)); (im7, (40, 40)); (im8, (24, 24))]).
  set (others := [(im9, (40, 40)); (im10, (40, 40)); (im11, (80, 60))]).
  exists ((units ++ others).*1). split; [|split].
  { unfold catalog, units, others. cbn.
    repeat (constructor; [assumption|]). constructor. }
  { unfold sprite_calls, units, others. cbn.
    repeat (constructor; [assumption|]). constructor. }
  intros w. unfold main.
  run_produces S1 P1 r1 H1.
  run_produces S2 P2 r2 H2.
  run_produces S3 P3 r3 H3.
  run_produces S4 P4 r4 H4.
  run_produces S5 P5 r5 H5.
  run_produces S6 P6 r6 H6.
  run_produces S7 P7 r7 H7.
  run_produces S8 P8 r8 H8.
  run_produces S9 P9 r9 H9.
  run_produces S10 P10 r10 H10.
  run_produces S11 P11 r11 H11.
  cbv zeta.
  match goal with F : files ?a = files w |- wp _ ?a _ => rename a into wa; rename F into Fa end.
  apply wp_bind. eapply wp_mono.
  { apply (wp_save_all (fun name => path_join dir (name +:+ ".png")) _ (units ++ others)).
    unfold units, others. cbn [app].
    repeat (constructor; [cbn [fst snd]; assumption|]). constructor. }
  intros u wb [Ob Fb]. cbn beta. cbn [for_each].
  assert (Hb : Forall2 (fun name e =>
            exists r, dict_get [("infantry", r1); ("ranger", r2); ("harvester", r3);
                                ("depot", r4); ("barracks", r5); ("supply_depot", r6);
                                ("tech_lab", r7); ("turret", r8); ("resource_temp", r9);
                                ("resource_perm", r10); ("terrain", r11)]%string name
                      = Some r /\ holds wb r e.1 e.2)
            tinted_names units).
  { unfold units, tinted_names.
    repeat (constructor;
            [eexists; split; [reflexivity|];
             eapply holds_same; [exact Ob|]; cbn [fst snd]; assumption|]).
    constructor. }
  apply wp_bind. eapply wp_mono.
  { apply (wp_tint_all (fun n => path_join (path_join dir "continuity") (n +:+ ".png"))
             _ CONTINUITY_BLUE (PyFloat (literal 35 100)) tinted_names
             eq_refl f035_unit units wb Hb). }
  intros u1 wc [Sc Fc]. cbn beta.
  apply wp_bind. eapply wp_mono.
  { apply (wp_tint_all (fun n => path_join (path_join dir "collegium") (n +:+ ".png"))
             _ COLLEGIUM_GOLD (PyFloat (literal 35 100)) tinted_names
             eq_refl f035_unit units wc).
    eapply Forall2_impl; [exact Hb|].
    intros n e (r & Hg & Hh). exists r. split; [exact Hg|].
    eapply holds_weaken; [exact Sc|exact Hh]. }
  intros u2 wd [Sd Fd]. cbn beta. apply wp_ret.
  rewrite Fd, Fc, Fb, Fa. rewrite <- !write_all_app. reflexivity.
Qed.

(** The files of a run with the images they hold. *)
Lemma main_files covers dir w :
  wp (main covers dir) w (fun _ w' => exists base,
    Forall2 (fun im e => sized e.2.1 e.2.2 im) base catalog /\
    files w' = write_all (files w)
      (zip (written_files dir).*1
         (base ++ (tint_image CONTINUITY_BLUE (PyFloat f035) <$> take 8 base)
               ++ (tint_image COLLEGIUM_GOLD (PyFloat f035) <$> take 8 base)))).
Proof.
  destruct (main_images covers dir) as (base & Hbase & _ & Hrun).
  eapply wp_mono; [apply Hrun|]. intros u w' Hfiles. exists base. auto.
Qed.

(** The files of a run, in the order of writing: the eleven base sprites,
    then the eight tinted sprites of each faction, each of the dimensions
    of its generator. *)
Lemma main_writes covers dir w :
  wp (main covers dir) w (fun _ w' => exists ims,
    Forall2 (fun im e => sized e.2.1 e.2.2 im) ims (written_files dir) /\
    files w' = write_all (files w) (zip (written_files dir).*1 ims)).
Proof.
  eapply wp_mono; [apply main_files|].
  intros u w' (base & Hbase & Hfiles). eexists. split; [|exact Hfiles].
  unfold catalog in Hbase.
  repeat match type of Hbase with
  | Forall2 _ _ (_ :: _) =>
      apply Forall2_cons_inv_r in Hbase;
      let im := fresh "im" in let H := fresh "H" in
      destruct Hbase as (im & ? & H & Hbase & ->); cbn [fst snd] in H
  end.
  apply Forall2_nil_inv_r in Hbase. subst.
  unfold written_files, base_files, faction_files, catalog, tinted_names.
  cbn [take fmap list_fmap app].
  repeat (constructor;
          [cbn; first [apply tint_image_sized; [reflexivity|exact f035_unit|]|idtac];
           assumption|]).
  constructor.
Qed.

Lemma string_app_assoc (a b c : string) : (a +:+ b) +:+ c = a +:+ (b +:+ c).
Proof.
  induction a as [|x a IH]; [reflexivity|].
  change (String x ((a +:+ b) +:+ c) = String x (a +:+ (b +:+ c))). now rewrite IH.
Qed.

Lemma written_paths dir : (written_files dir).*1 = String.app dir <$> written_suffixes.
Proof.
  unfold written_files, base_files, faction_files, written_suffixes, path_join,
    catalog, tinted_names.
  cbn [fmap list_fmap app fst snd].
  repeat (apply f_equal2; [rewrite ?string_app_assoc; reflexivity|]).
  reflexivity.
Qed.

Lemma written_suffixes_NoDup : NoDup written_suffixes.
Proof. apply (bool_decide_unpack (NoDup written_suffixes)). vm_compute. exact I. Qed.

Lemma written_paths_NoDup dir : NoDup (written_files dir).*1.
Proof.
  rewrite written_paths. apply NoDup_fmap_2; [apply _|exact written_suffixes_NoDup].
Qed.

(** from an empty directory, a run leaves 27 files *)
Lemma main_file_count covers dir w :
  files w = ∅ -> wp (main covers dir) w (fun _ w' => size (files w') = 27%nat).
Proof.
  intros Hempty. eapply wp_mono; [apply main_writes|].
  intros u w' (ims & Hall & Hfiles). cbn beta.
  rewrite <- size_dom, Hfiles, write_all_dom, Hempty, dom_empty_L, (right_id_L ∅ (∪)).
  rewrite fst_zip by (apply Forall2_length in Hall; rewrite length_fmap; lia).
  rewrite size_list_to_set by apply written_paths_NoDup.
  now rewrite length_fmap.
Qed.

Lemma written_file_found dir ims path d :
  Forall2 (fun im e => sized e.2.1 e.2.2 im) ims (written_files dir) ->
  (path, d) ∈ written_files dir ->
  exists im, (path, im) ∈ zip (written_files dir).*1 ims /\ sized d.1 d.2 im.
Proof.
  generalize (written_files dir). intros l Hall. induction Hall as [|im e ims l Hs Hall IH].
  - intros Hin. inversion Hin.
  - intros Hin. apply elem_of_cons in Hin. destruct Hin as [<-|Hin].
    + exists im. split; [apply list_elem_of_here|exact Hs].
    + destruct (IH Hin) as (im' & Hin' & Hs'). exists im'.
      split; [now apply list_elem_of_further|exact Hs'].
Qed.

(** C6, as the driver has it.  A run writes the eleven base sprites and,
    for each of the two factions, the eight tinted unit and building
    sprites, sixteen tinted files, every file under a path of its own;
    afterwards the directory holds these files beside what it held, each
    a well-formed raster of the dimensions its generator was called for. *)
Theorem driver_files covers dir w :
  wp (main covers dir) w (fun _ w' =>
    length (base_files dir) = 11%nat /\
    length (faction_files dir "continuity") = 8%nat /\
    length (faction_files dir "collegium") = 8%nat /\
    NoDup (written_files dir).*1 /\
    dom (files w') = list_to_set (written_files dir).*1 ∪ dom (files w) /\
    forall path d, (path, d) ∈ written_files dir ->
      exists im, files w' !! path = Some im /\ sized d.1 d.2 im).
Proof.
  eapply wp_mono; [apply main_writes|].
  intros u w' (ims & Hall & Hfiles). cbn beta.
  pose proof (written_paths_NoDup dir) as Hnd.
  assert (Hfst : (zip (written_files dir).*1 ims).*1 = (written_files dir).*1).
  { apply fst_zip. apply Forall2_length in Hall. rewrite length_fmap. lia. }
  repeat split; try reflexivity; try assumption.
  - now rewrite Hfiles, write_all_dom, Hfst.
  - intros path d Hin.
    destruct (written_file_found dir ims path d Hall Hin) as (im & Hzip & Hs).
    exists im. split; [|exact Hs]. rewrite Hfiles.
    apply write_all_lookup; [now rewrite Hfst|exact Hzip].
Qed.

(** A run does not leave 11 + 32 files: from an empty directory the driver
    run with the sample rasteriser leaves 27. *)
Lemma driver_files_not_43 :
  wp (main box_raster "sprites") empty_world (fun _ w' => size (files w') = 27%nat) /\
  ~ wp (main box_raster "sprites") empty_world
       (fun _ w' => size (files w') = (11 + 32)%nat).
Proof.
  pose proof (main_file_count box_raster "sprites" empty_world eq_refl) as H27.
  split; [exact H27|]. intros H43.
  destruct (wp_agree _ _ _ _ H27 H43) as (u & w' & _ & E27 & E43).
  rewrite E27 in E43. discriminate.
Qed.

(** * Repeated tints *)

(** The blend is float arithmetic: at 0.35 the product [180 * 0.35] is just
    below 63, and the blend of 0 toward 180 is 62. *)
Example blend_truncates_the_float : blend 0 180 (PyFloat f035) = Some 62.
Proof. vm_compute. reflexivity. Qed.

Lemma products_nth t z :
  0 <= z < 256 ->
  nth (Z.to_nat z) (products t) S754_nan =
    match float_of_int z with Some f => fmul f t | None => S754_nan end.
Proof.
  intros Hz. apply nth_lookup_Some with (d := S754_nan).
  unfold products. rewrite list_lookup_fmap.
  rewrite (lookup_seqZ_lt 0 256 (Z.to_nat z)) by lia.
  rewrite Z.add_0_l, Z2Nat.id by lia. reflexivity.
Qed.

Lemma blend_from_table r c :
  0 <= r <= 255 -> 0 <= c <= 255 ->
  blend r c (PyFloat f035) =
    blend_table (products (fsub float_one f035)) (products f035) r c.
Proof.
  intros Hr Hc. unfold blend_table. rewrite !products_nth by lia.
  unfold blend, sub, mul, add, arith. rewrite float_of_int_1.
  destruct (float_of_int r) as [R|], (float_of_int c) as [C|]; try reflexivity.
  cbn [int]. now destruct (fmul R (fsub float_one f035)).
Qed.

Lemma twice_checked :
  (let A := products (fsub float_one f035) in
   let B := products f035 in
   forallb (fun r => forallb (check_twice A B r) (seqZ 0 256)) (seqZ 0 256)) = true.
Proof. vm_compute. reflexivity. Qed.

Lemma blend_twice r c :
  0 <= r <= 255 -> 0 <= c <= 255 ->
  exists v v', blend r c (PyFloat f035) = Some v /\
    blend v c (PyFloat f035) = Some v' /\
    (far_from r c = true -> v' <> v) /\ (far_from r c = false -> v' = v).
Proof.
  intros Hr Hc.
  destruct (blend_range r c (PyFloat f035)) as (v & Ev & Hv); [lia|lia|exact f035_unit|].
  pose proof (check_range _ _ twice_checked r ltac:(lia)) as H. cbn beta in H.
  pose proof (check_range _ _ H c ltac:(lia)) as H'. unfold check_twice in H'.
  rewrite <- blend_from_table, Ev in H' by lia.
  rewrite <- blend_from_table in H' by lia.
  destruct (blend v c (PyFloat f035)) as [v'|] eqn:E'; [|discriminate].
  exists v, v'. split; [exact Ev|]. split; [exact E'|]. split.
  - intros Hfar. rewrite Hfar in H'. apply Bool.eqb_prop in H'.
    apply negb_true_iff, Z.eqb_neq in H'. exact H'.
  - intros Hfar. rewrite Hfar in H'. apply Bool.eqb_prop in H'.
    apply negb_false_iff, Z.eqb_eq in H'. exact H'.
Qed.

(** Two tints at 0.35 give another canvas than one, wherever the canvas
    holds an opaque pixel with a channel far from the target's. *)
Lemma tint_twice_differs w img im c x y r g b a :
  objects w !! img = Some im -> Image_wf im -> rgb_ok c = true ->
  pixel_at im x y = Some (r, g, b, a) -> 0 < a ->
  far_from r (c.1.1) || far_from g (c.1.2) || far_from b (c.2) = true ->
  wp (once <- apply_faction_tint img c (PyFloat f035) ;;
      twice <- apply_faction_tint once c (PyFloat f035) ;;
      ret (once, twice)) w
     (fun res w' => exists im1 im2,
        objects w' !! res.1 = Some im1 /\ objects w' !! res.2 = Some im2 /\
        pixel_at im1 x y <> pixel_at im2 x y).
Proof.
  intros Himg Hwf Hc Hp Ha Hfar.
  assert (Hu : unit_interval (PyFloat f035) = true) by exact f035_unit.
  apply wp_bind. eapply wp_mono; [now apply (tint_returns w img im c (PyFloat f035))|].
  intros once w1 (Honce & Hobj1 & _). cbn beta.
  set (im1 := tint_image c (PyFloat f035) im) in *.
  assert (H1 : objects w1 !! once = Some im1) by (rewrite Hobj1; apply lookup_insert_eq).
  assert (Hwf1 : Image_wf im1) by now apply tint_image_wf.
  apply wp_bind. eapply wp_mono; [now apply (tint_returns w1 once im1 c (PyFloat f035))|].
  intros twice w2 (Htwice & Hobj2 & _). cbn beta. apply wp_ret.
  exists im1, (tint_image c (PyFloat f035) im1). cbn [fst snd].
  split; [|split].
  - rewrite Hobj2, lookup_insert_ne; [exact H1|].
    rewrite Htwice. intros E. symmetry in E. revert E. eapply fresh_ne; eauto.
  - rewrite Hobj2. apply lookup_insert_eq.
  - rewrite pixel_at_tint_image. unfold im1 at 1 2. rewrite pixel_at_tint_image, Hp.
    cbn [fmap option_fmap option_map].
    assert (Hok : pixel_ok (r, g, b, a) = true).
    { destruct Hwf as (_ & _ & _ & Hpx). rewrite Forall_forall in Hpx.
      apply Hpx. eapply pixel_at_elem; eauto. }
    destruct c as [[cr cg] cb]. cbn [fst snd] in Hfar.
    unfold pixel_ok, rgb_ok, channel in Hok, Hc.
    rewrite !andb_true_iff, !Z.leb_le in Hok, Hc.
    destruct (blend_twice r cr) as (vr & vr' & Er & Er' & Dr & _); [lia|lia|].
    destruct (blend_twice g cg) as (vg & vg' & Eg & Eg' & Dg & _); [lia|lia|].
    destruct (blend_twice b cb) as (vb & vb' & Eb & Eb' & Db & _); [lia|lia|].
    assert (Hpos : (0 <? a) = true) by (apply Z.ltb_lt; lia).
    unfold tinted, tint_pixel. cbn [fst snd]. rewrite Hpos, Er, Eg, Eb.
    cbn [from_option id]. rewrite Hpos, Er', Eg', Eb'. cbn [from_option id].
    intros E. injection E as E1 E2 E3.
    rewrite !orb_true_iff in Hfar. destruct Hfar as [[Hf|Hf]|Hf].
    + now apply Dr.
    + now apply Dg.
    + now apply Db.
Qed.

(** An opaque pixel that differs from the target in every channel need not
    be one: (100, 100, 100) tinted toward (101, 101, 101) stays as it is. *)
Lemma tint_twice_same_near :
  tint_image (101, 101, 101) (PyFloat f035) near_image = near_image.
Proof. vm_compute. reflexivity. Qed.

(** * The blend between the channel and the target *)

(** X1. At an intensity in [[0, 1]] the blend of two 8-bit channels lies
    between the two, except that the truncation may take it one below the
    smaller of them (and never below 0). *)
Theorem blend_stays_between r c t :
  0 <= r <= 255 -> 0 <= c <= 255 -> unit_interval t = true ->
  exists v, blend r c t = Some v /\
    Z.max 0 (Z.min r c - 1) <= v <= Z.max r c.
Proof.
  intros Hr Hc Ht. destruct t as [z|f].
  - cbn in Ht. apply andb_true_iff in Ht. destruct Ht as [H0 H1].
    apply Z.leb_le in H0, H1. cbn.
    assert (Hz : z = 0 \/ z = 1) by lia.
    destruct Hz as [-> | ->]; eexists; (split; [reflexivity|lia]).
  - apply (blend_float_between 4096); [lia| | |]; assumption.
Qed.

(** One below does occur: at 0.001 the blend of 253 toward 253 is 252. *)
Example blend_toward_itself : blend 253 253 (PyFloat (literal 1 1000)) = Some 252.
Proof. vm_compute. reflexivity. Qed.

Lemma blend_stays_between_witness :
  exists v, blend 253 253 (PyFloat (literal 1 1000)) = Some v /\
    Z.max 0 (Z.min 253 253 - 1) <= v <= Z.max 253 253.
Proof.
  apply (blend_stays_between 253 253 (PyFloat (literal 1 1000))); [lia|lia|].
  vm_compute. reflexivity.
Defined.

(** * The blend against integer arithmetic *)

Lemma blend_from_products t r c :
  0 <= r <= 255 -> 0 <= c <= 255 ->
  blend r c (PyFloat t) = blend_table (products (fsub float_one t)) (products t) r c.
Proof.
  intros Hr Hc. unfold blend_table. rewrite !products_nth by lia.
  unfold blend, sub, mul, add, arith. rewrite float_of_int_1.
  destruct (float_of_int r) as [R|], (float_of_int c) as [C|]; try reflexivity.
  cbn [int]. now destruct (fmul R (fsub float_one t)).
Qed.

Lemma exact_035_checked :
  (let A := products (fsub float_one f035) in
   let B := products f035 in
   forallb (fun r => forallb (check_exact 35 100 A B r) (seqZ 0 256)) (seqZ 0 256)) = true.
Proof. vm_compute. reflexivity. Qed.

Lemma exact_04_checked :
  (let A := products (fsub float_one f04) in
   let B := products f04 in
   forallb (fun r => forallb (check_exact 4 10 A B r) (seqZ 0 256)) (seqZ 0 256)) = true.
Proof. vm_compute. reflexivity. Qed.

Lemma blend_exact_or_below n d t r c :
  (let A := products (fsub float_one t) in
   let B := products t in
   forallb (fun r => forallb (check_exact n d A B r) (seqZ 0 256)) (seqZ 0 256)) = true ->
  0 <= r <= 255 -> 0 <= c <= 255 ->
  exists v, blend r c (PyFloat t) = Some v /\
    (v = exact_blend n d r c \/
     v = exact_blend n d r c - 1 /\ ((d - n) * r + n * c) mod d = 0).
Proof.
  intros Hchk Hr Hc.
  pose proof (check_range _ _ Hchk r ltac:(lia)) as H. cbn beta in H.
  pose proof (check_range _ _ H c ltac:(lia)) as H'. unfold check_exact in H'.
  rewrite <- blend_from_products in H' by lia.
  destruct (blend r c (PyFloat t)) as [v|]; [|discriminate].
  exists v. split; [reflexivity|].
  apply orb_true_iff in H'. destruct H' as [H'|H'].
  - left. now apply Z.eqb_eq.
  - right. apply andb_true_iff in H'. destruct H' as [H1 H2].
    split; [now apply Z.eqb_eq|now apply Z.eqb_eq].
Qed.

(** X2. At the driver's intensity 0.35 the blend of 8-bit channels is the
    integer blend [(65 * r + 35 * c) // 100], or one below it; it is one
    below only where [65 * r + 35 * c] is a multiple of 100. *)
Theorem blend_035_integer r c :
  0 <= r <= 255 -> 0 <= c <= 255 ->
  exists v, blend r c (PyFloat f035) = Some v /\
    (v = (65 * r + 35 * c) / 100 \/
     v = (65 * r + 35 * c) / 100 - 1 /\ (65 * r + 35 * c) mod 100 = 0).
Proof.
  intros Hr Hc. exact (blend_exact_or_below 35 100 f035 r c exact_035_checked Hr Hc).
Qed.

Lemma blend_035_integer_witness :
  exists v, blend 0 180 (PyFloat f035) = Some v /\
    (v = (65 * 0 + 35 * 180) / 100 \/
     v = (65 * 0 + 35 * 180) / 100 - 1 /\ (65 * 0 + 35 * 180) mod 100 = 0).
Proof. apply (blend_035_integer 0 180); lia. Defined.

(** X3. At the default intensity 0.4 the blend of 8-bit channels is the
    integer blend [(6 * r + 4 * c) // 10], or one below it; it is one below
    only where [6 * r + 4 * c] is a multiple of 10. *)
Theorem blend_04_integer r c :
  0 <= r <= 255 -> 0 <= c <= 255 ->
  exists v, blend r c default_intensity = Some v /\
    (v = (6 * r + 4 * c) / 10 \/
     v = (6 * r + 4 * c) / 10 - 1 /\ (6 * r + 4 * c) mod 10 = 0).
Proof.
  intros Hr Hc. exact (blend_exact_or_below 4 10 f04 r c exact_04_checked Hr Hc).
Qed.

Lemma blend_04_integer_witness :
  exists v, blend 6 1 default_intensity = Some v /\
    (v = (6 * 6 + 4 * 1) / 10 \/
     v = (6 * 6 + 4 * 1) / 10 - 1 /\ (6 * 6 + 4 * 1) mod 10 = 0).
Proof. apply (blend_04_integer 6 1); lia. Defined.

(** the float blend keeps the order of the integer blend *)
Lemma blend_ordered n d t r c r' c' :
  0 < n < d ->
  (let A := products (fsub float_one t) in
   let B := products t in
   forallb (fun r => forallb (check_exact n d A B r) (seqZ 0 256)) (seqZ 0 256)) = true ->
  0 <= r <= r' -> r' <= 255 -> 0 <= c <= c' -> c' <= 255 ->
  exists v v', blend r c (PyFloat t) = Some v /\ blend r' c' (PyFloat t) = Some v' /\
    v <= v'.
Proof.
  intros Hnd Hchk Hr Hr' Hc Hc'.
  destruct (blend_exact_or_below n d t r c Hchk) as (v & Ev & Hv); [lia|lia|].
  destruct (blend_exact_or_below n d t r' c' Hchk) as (v' & Ev' & Hv'); [lia|lia|].
  exists v, v'. split; [exact Ev|]. split; [exact Ev'|].
  unfold exact_blend in Hv, Hv'.
  assert (Hnum : (d - n) * r + n * c <= (d - n) * r' + n * c') by nia.
  assert (Heq : (d - n) * r + n * c = (d - n) * r' + n * c' -> r = r' /\ c = c') by nia.
  set (a := (d - n) * r + n * c) in *. set (a' := (d - n) * r' + n * c') in *.
  assert (Hdiv : a / d <= a' / d) by (apply Z.div_le_mono; lia).
  destruct Hv' as [->|[-> Hz]]; [destruct Hv as [->|[-> _]]; lia|].
  destruct (Z.eq_dec a a') as [E|Hne].
  - destruct (Heq E) as [-> ->]. rewrite Ev in Ev'. injection Ev' as ->. lia.
  - assert (a / d < a' / d); [|destruct Hv as [->|[-> _]]; lia].
    pose proof (Z.div_mod a d ltac:(lia)) as Ha.
    pose proof (Z.div_mod a' d ltac:(lia)) as Ha'.
    pose proof (Z.mod_pos_bound a d ltac:(lia)). nia.
Qed.

(** X19. At the two intensities the program uses, 0.35 in the driver and
    the default 0.4, the blend keeps the order of 8-bit channels: a channel
    that is no darker, blended toward a target that is no darker, comes out
    no darker. *)
Theorem blend_keeps_order t r c r' c' :
  t = f035 \/ t = f04 ->
  0 <= r <= r' -> r' <= 255 -> 0 <= c <= c' -> c' <= 255 ->
  exists v v', blend r c (PyFloat t) = Some v /\ blend r' c' (PyFloat t) = Some v' /\
    v <= v'.
Proof.
  intros [-> | ->].
  - apply (blend_ordered 35 100); [lia|exact exact_035_checked].
  - apply (blend_ordered 4 10); [lia|exact exact_04_checked].
Qed.

Lemma blend_keeps_order_witness :
  exists v v', blend 0 180 (PyFloat f035) = Some v /\ blend 1 180 (PyFloat f035) = Some v' /\
    v <= v'.
Proof. apply (blend_keeps_order f035 0 180 1 180); [now left|lia..]. Defined.

(** * The second tint, pixel by pixel *)

Lemma far_from_false r c : far_from r c = false <-> -2 < c - r < 4.
Proof.
  unfold far_from. rewrite orb_false_iff, !Z.leb_gt. lia.
Qed.

(** X4. Two tints at 0.35 toward the same target: the second changes a
    pixel of alpha above 0 exactly when one of its channels, before the
    first tint, was at least 4 below or at least 2 above the target's. *)
Theorem tint_twice_pixel w img im c x y r g b a :
  objects w !! img = Some im -> Image_wf im -> rgb_ok c = true ->
  pixel_at im x y = Some (r, g, b, a) -> 0 < a ->
  wp (once <- apply_faction_tint img c (PyFloat f035) ;;
      twice <- apply_faction_tint once c (PyFloat f035) ;;
      ret (once, twice)) w
     (fun res w' => exists im1 im2,
        objects w' !! res.1 = Some im1 /\ objects w' !! res.2 = Some im2 /\
        (pixel_at im2 x y = pixel_at im1 x y <->
         -2 < c.1.1 - r < 4 /\ -2 < c.1.2 - g < 4 /\ -2 < c.2 - b < 4)).
Proof.
  intros Himg Hwf Hc Hp Ha.
  assert (Hu : unit_interval (PyFloat f035) = true) by exact f035_unit.
  apply wp_bind. eapply wp_mono; [now apply (tint_returns w img im c (PyFloat f035))|].
  intros once w1 (Honce & Hobj1 & _). cbn beta.
  set (im1 := tint_image c (PyFloat f035) im) in *.
  assert (H1 : objects w1 !! once = Some im1) by (rewrite Hobj1; apply lookup_insert_eq).
  assert (Hwf1 : Image_wf im1) by now apply tint_image_wf.
  apply wp_bind. eapply wp_mono; [now apply (tint_returns w1 once im1 c (PyFloat f035))|].
  intros twice w2 (Htwice & Hobj2 & _). cbn beta. apply wp_ret.
  exists im1, (tint_image c (PyFloat f035) im1). cbn [fst snd].
  split; [|split].
  - rewrite Hobj2, lookup_insert_ne; [exact H1|].
    rewrite Htwice. intros E. symmetry in E. revert E. eapply fresh_ne; eauto.
  - rewrite Hobj2. apply lookup_insert_eq.
  - rewrite pixel_at_tint_image. unfold im1 at 1 2. rewrite pixel_at_tint_image, Hp.
    cbn [fmap option_fmap option_map].
    assert (Hok : pixel_ok (r, g, b, a) = true).
    { destruct Hwf as (_ & _ & _ & Hpx). rewrite Forall_forall in Hpx.
      apply Hpx. eapply pixel_at_elem; eauto. }
    destruct c as [[cr cg] cb]. cbn [fst snd].
    unfold pixel_ok, rgb_ok, channel in Hok, Hc.
    rewrite !andb_true_iff, !Z.leb_le in Hok, Hc.
    destruct (blend_twice r cr) as (vr & vr' & Er & Er' & Dr & Sr); [lia|lia|].
    destruct (blend_twice g cg) as (vg & vg' & Eg & Eg' & Dg & Sg); [lia|lia|].
    destruct (blend_twice b cb) as (vb & vb' & Eb & Eb' & Db & Sb); [lia|lia|].
    assert (Hpos : (0 <? a) = true) by (apply Z.ltb_lt; lia).
    unfold tinted, tint_pixel. cbn [fst snd]. rewrite Hpos, Er, Eg, Eb.
    cbn [from_option id]. rewrite Hpos, Er', Eg', Eb'. cbn [from_option id].
    rewrite <- !far_from_false. split.
    + intros E. injection E as E1 E2 E3.
      destruct (far_from r cr) eqn:Fr; [now specialize (Dr eq_refl)|].
      destruct (far_from g cg) eqn:Fg; [now specialize (Dg eq_refl)|].
      destruct (far_from b cb) eqn:Fb; [now specialize (Db eq_refl)|].
      auto.
    + intros (Fr & Fg & Fb). now rewrite (Sr Fr), (Sg Fg), (Sb Fb).
Qed.

Lemma tint_twice_pixel_witness :
  wp (once <- apply_faction_tint 1 (51, 102, 204) (PyFloat f035) ;;
      twice <- apply_faction_tint once (51, 102, 204) (PyFloat f035) ;;
      ret (once, twice)) sample_world
     (fun res w' => exists im1 im2,
        objects w' !! res.1 = Some im1 /\ objects w' !! res.2 = Some im2 /\
        (pixel_at im2 0 0 = pixel_at im1 0 0 <->
         -2 < 51 - 200 < 4 /\ -2 < 102 - 100 < 4 /\ -2 < 204 - 0 < 4)).
Proof.
  apply (tint_twice_pixel sample_world 1 sample_image (51, 102, 204) 0 0 200 100 0 255).
  - reflexivity.
  - exact sample_image_wf.
  - reflexivity.
  - reflexivity.
  - lia.
Defined.

(** * The tint outside its contract *)

(** X6. A canvas without a pixel of alpha above 0 is copied as it is,
    whatever the target and the intensity are: no blend is computed. *)
Theorem tint_transparent_canvas w img im c t :
  objects w !! img = Some im -> Image_wf im ->
  (forall p, p ∈ data im -> p.2 = 0) ->
  wp (apply_faction_tint img c t) w (fun res w' =>
    objects w !! res = None /\ objects w' !! res = Some im).
Proof.
  intros Himg (Hw & Hh & Hlen & _) Ha. eapply wp_mono.
  - apply (tint_spec img c t id w im); try assumption.
    intros [[[r g] b] a] Hp. specialize (Ha _ Hp). cbn in Ha. subst a. reflexivity.
  - intros res w' (-> & Hobj & _). split; [apply fresh_object|].
    rewrite Hobj, lookup_insert_eq, list_fmap_id. now rewrite Image_eta.
Qed.

Lemma tint_transparent_canvas_witness :
  wp (apply_faction_tint 1 (51, 102, 204) (PyFloat S754_nan))
     {| objects := {[1%positive := {| width := 1; height := 2;
                                      data := [(0, 0, 0, 0); (9, 9, 9, 0)] |}]};
        files := ∅ |}
     (fun res w' =>
        objects w' !! res = Some {| width := 1; height := 2;
                                    data := [(0, 0, 0, 0); (9, 9, 9, 0)] |}).
Proof.
  eapply wp_mono.
  - apply (tint_transparent_canvas _ 1 {| width := 1; height := 2;
                                          data := [(0, 0, 0, 0); (9, 9, 9, 0)] |}).
    + reflexivity.
    + unfold Image_wf. cbn. repeat split; try lia. repeat constructor.
    + intros p Hp. cbn in Hp. rewrite !elem_of_cons in Hp.
      destruct Hp as [->|[->|Hp]]; [reflexivity|reflexivity|inversion Hp].
  - intros res w' [_ H]. exact H.
Defined.

(** a loop raises when an iteration does and the ones before it return *)
Lemma for_each_raises {A} (I : World -> Prop) (l : list A) body : forall j x w,
  l !! j = Some x -> I w ->
  (forall i y w', (i < j)%nat -> l !! i = Some y -> I w' ->
     wp (body y) w' (fun _ w'' => I w'')) ->
  (forall w', I w' -> (body x w').1 = None) ->
  (for_each l body w).1 = None.
Proof.
  induction l as [|z l IH]; intros j x w Hj HI Hbefore Hraise; [discriminate|].
  cbn [for_each]. unfold bind. destruct j as [|j].
  - injection Hj as ->. specialize (Hraise w HI).
    destruct (body x w) as [[u|] w1]; [discriminate|reflexivity].
  - destruct (Hbefore 0%nat z w ltac:(lia) eq_refl HI) as (u & w1 & -> & HI1).
    apply (IH j x w1 Hj HI1); [|exact Hraise].
    intros i y w' Hi Hy. apply (Hbefore (S i) y w'); [lia|exact Hy].
Qed.

Lemma float_of_int_finite z f : float_of_int z = Some f -> forall s, f <> S754_infinity s.
Proof.
  unfold float_of_int. intros H s ->.
  destruct (binary_normalize prec emax z 0 false); discriminate.
Qed.

Lemma fmul_nonfinite f t :
  (forall s, f <> S754_infinity s) -> nonfinite t = true -> nonfinite (fmul f t) = true.
Proof.
  intros Hf Ht. destruct t as [| s | |]; try discriminate;
    destruct f as [| s' | |]; try reflexivity; exfalso; now apply (Hf s').
Qed.

Lemma fadd_nonfinite a b :
  nonfinite a = true -> nonfinite b = true -> nonfinite (fadd a b) = true.
Proof.
  destruct a as [| sa | |], b as [| sb | |]; try discriminate; try reflexivity.
  intros _ _. destruct sa, sb; reflexivity.
Qed.

(** at an intensity that is not a number, no blend has a value *)
Lemma blend_nonfinite r c t : nonfinite t = true -> blend r c (PyFloat t) = None.
Proof.
  intros Ht. unfold blend, sub, mul, add, arith. rewrite float_of_int_1.
  assert (Hu : nonfinite (fsub float_one t) = true).
  { destruct t as [| s | |]; try discriminate; reflexivity. }
  destruct (float_of_int r) as [R|] eqn:HR; [|reflexivity].
  destruct (float_of_int c) as [C|] eqn:HC; [|reflexivity].
  pose proof (fmul_nonfinite R _ (float_of_int_finite _ _ HR) Hu) as Ha.
  pose proof (fmul_nonfinite C _ (float_of_int_finite _ _ HC) Ht) as Hb.
  pose proof (fadd_nonfinite _ _ Ha Hb) as Hs. cbn [int].
  destruct (fadd _ _); try discriminate; reflexivity.
Qed.

Section TintRaises.

Variables (faction_color : rgb) (intensity : number).
Variables (w1 : World) (res : positive) (im : Image).
Hypothesis Hres : objects w1 !! res = Some im.

Local Abbreviation pixel_body x y :=
  (p <- getpixel res x y ;;
   let '(r, g, b, a) := p in
   if 0 <? a then
     nr <- lift (blend r (faction_color.1.1) intensity) ;;
     ng <- lift (blend g (faction_color.1.2) intensity) ;;
     nb <- lift (blend b (faction_color.2) intensity) ;;
     putpixel res x y (nr, ng, nb, a)
   else ret tt).

Lemma getpixel_at x y p :
  0 <= x -> 0 <= y -> pixel_at im x y = Some p -> getpixel res x y w1 = (Some p, w1).
Proof.
  intros Hx Hy Hp. unfold getpixel, bind, read. rewrite Hres.
  rewrite !wrap_nonneg by lia. now rewrite Hp.
Qed.

(** a pixel of alpha 0 is passed over *)
Lemma pixel_body_skips x y p :
  0 <= x -> 0 <= y -> pixel_at im x y = Some p -> p.2 <= 0 ->
  pixel_body x y w1 = (Some tt, w1).
Proof.
  intros Hx Hy Hp Ha. unfold bind at 1. rewrite (getpixel_at x y p Hx Hy Hp).
  destruct p as [[[r g] b] a]. cbn in Ha.
  destruct (Z.ltb_spec 0 a); [lia|reflexivity].
Qed.

(** a pixel of alpha above 0 whose first blend has no value raises *)
Lemma pixel_body_raises x y r g b a :
  0 <= x -> 0 <= y -> pixel_at im x y = Some (r, g, b, a) -> 0 < a ->
  blend r (faction_color.1.1) intensity = None ->
  (pixel_body x y w1).1 = None.
Proof.
  intros Hx Hy Hp Ha Hb. unfold bind at 1. rewrite (getpixel_at x y _ Hx Hy Hp).
  destruct (Z.ltb_spec 0 a); [|lia]. unfold bind at 1. rewrite Hb. reflexivity.
Qed.

End TintRaises.

(** the first pixel of alpha above 0, in the order of the loops *)
Lemma first_visible im x y p :
  Image_wf im -> pixel_at im x y = Some p -> 0 < p.2 ->
  exists x0 y0 r g b a,
    0 <= x0 < width im /\ 0 <= y0 < height im /\
    pixel_at im x0 y0 = Some (r, g, b, a) /\ 0 < a /\
    forall x' y' q, 0 <= x' < width im -> 0 <= y' < height im ->
      (y' < y0 \/ y' = y0 /\ x' < x0) ->
      pixel_at im x' y' = Some q -> q.2 <= 0.
Proof.
  intros (Hw & Hh & Hlen & _) Hp Ha.
  destruct (list_find_elem_of (fun q : pixel => 0 < q.2) (data im) p
              (pixel_at_elem _ _ _ _ Hp) Ha) as [[i0 p0] Hfind].
  apply list_find_Some in Hfind. destruct Hfind as (Hi0 & Hp0 & Hfirst).
  pose proof (lookup_lt_Some _ _ _ Hi0) as Hlt. rewrite Hlen in Hlt.
  set (wd := width im) in *. set (ht := height im) in *.
  assert (Hwd : 0 < wd) by nia.
  set (k := Z.of_nat i0).
  assert (Hk : 0 <= k < wd * ht) by lia.
  assert (Hx0 : 0 <= k mod wd < wd) by (apply Z.mod_pos_bound; lia).
  assert (Hy0 : 0 <= k / wd < ht).
  { split; [apply Z.div_pos; lia|apply Z.div_lt_upper_bound; lia]. }
  assert (Hoff : offset im (k mod wd) (k / wd) = i0).
  { unfold offset. fold wd. rewrite Z.mul_comm, <- Z.div_mod by lia. unfold k. lia. }
  destruct p0 as [[[r g] b] a]. exists (k mod wd), (k / wd), r, g, b, a.
  split; [exact Hx0|]. split; [exact Hy0|]. split; [|split; [exact Hp0|]].
  - unfold pixel_at. rewrite in_bounds_true by assumption. now rewrite Hoff.
  - intros x' y' q Hx' Hy' Hbefore Hq.
    unfold pixel_at in Hq. rewrite in_bounds_true in Hq by assumption.
    assert (Hlt' : (offset im x' y' < i0)%nat).
    { unfold offset. fold wd.
      pose proof (Z.div_mod k wd ltac:(lia)) as Hdm.
      destruct Hbefore as [Hb|[-> Hb]]; [|lia].
      assert (y' * wd + wd <= k / wd * wd) by nia. lia. }
    specialize (Hfirst _ _ Hq Hlt'). lia.
Qed.

(** X5. At an intensity that is NaN or an infinity, the tint of a canvas
    with a pixel of alpha above 0 raises (the conversion to [int] fails at
    the first such pixel); the canvas and the files are as they were. *)
Theorem tint_nonfinite_raises w img im c t x y p :
  objects w !! img = Some im -> Image_wf im ->
  (t = S754_nan \/ exists s, t = S754_infinity s) ->
  pixel_at im x y = Some p -> 0 < p.2 ->
  (apply_faction_tint img c (PyFloat t) w).1 = None /\
  objects (apply_faction_tint img c (PyFloat t) w).2 !! img = Some im /\
  files (apply_faction_tint img c (PyFloat t) w).2 = files w.
Proof.
  intros Himg Hwf Ht Hp Ha.
  assert (Hnf : nonfinite t = true) by (destruct Ht as [->|[s ->]]; reflexivity).
  destruct (tint_frame img c (PyFloat t) w) as (Hfiles & Hsub & _).
  split; [|split; [|exact Hfiles]].
  2:{ eapply lookup_weaken; eauto. }
  destruct (first_visible im x y p Hwf Hp Ha)
    as (x0 & y0 & r & g & b & a & Hx0 & Hy0 & Hp0 & Ha0 & Hfirst).
  unfold apply_faction_tint, Image_copy. unfold bind at 1 2. unfold read at 1.
  rewrite Himg. cbn beta iota zeta. unfold alloc.
  set (res := fresh (dom (objects w))).
  set (w1 := {| objects := <[res := im]> (objects w); files := files w |}).
  assert (Hres : objects w1 !! res = Some im) by apply lookup_insert_eq.
  unfold bind at 1. unfold Image_height, bind at 1, read at 1. rewrite Hres.
  cbn beta iota zeta. unfold ret at 1. unfold bind at 1.
  match goal with |- (match ?m with _ => _ end).1 = None =>
    assert (Hloop : m.1 = None); [|destruct m as [[u|] w2]; [discriminate|reflexivity]]
  end.
  apply (for_each_raises (fun w' => w' = w1) _ _ (Z.to_nat y0) y0).
  - unfold range. rewrite lookup_seqZ. split; lia.
  - reflexivity.
  - intros i y' w' Hi Hy' ->. apply range_lookup in Hy'. destruct Hy' as [-> Hy'].
    apply wp_bind. unfold Image_width. apply wp_bind.
    eapply wp_read; [exact Hres|]. apply wp_ret.
    eapply wp_mono.
    + apply (wp_for_each (fun _ w' => w' = w1)); [reflexivity|].
      intros j x' w' Hx' ->. apply range_lookup in Hx'. destruct Hx' as [-> Hx'].
      destruct (pixel_at_in_bounds im (Z.of_nat j) (Z.of_nat i)) as (q & Hq & _).
      { apply Hwf. }
      { apply in_bounds_true; lia. }
      exists tt, w1. split; [|reflexivity].
      apply (pixel_body_skips c (PyFloat t) w1 res im Hres _ _ q); try lia; try exact Hq.
      apply (Hfirst (Z.of_nat j) (Z.of_nat i) q); try lia. exact Hq.
    + intros u w' H. exact H.
  - intros w' ->. unfold bind at 1. unfold Image_width, bind at 1, read at 1.
    rewrite Hres. cbn beta iota zeta. unfold ret at 1.
    apply (for_each_raises (fun w' => w' = w1) _ _ (Z.to_nat x0) x0).
    + unfold range. rewrite lookup_seqZ. split; lia.
    + reflexivity.
    + intros j x' w' Hj Hx' ->. apply range_lookup in Hx'. destruct Hx' as [-> Hx'].
      destruct (pixel_at_in_bounds im (Z.of_nat j) y0) as (q & Hq & _).
      { apply Hwf. }
      { apply in_bounds_true; lia. }
      exists tt, w1. split; [|reflexivity].
      apply (pixel_body_skips c (PyFloat t) w1 res im Hres _ _ q); try lia; try exact Hq.
      apply (Hfirst (Z.of_nat j) y0 q); try lia. exact Hq.
    + intros w' ->.
      apply (pixel_body_raises c (PyFloat t) w1 res im Hres x0 y0 r g b a);
        try lia; try assumption.
      now apply blend_nonfinite.
Qed.

Lemma tint_nonfinite_raises_witness :
  (apply_faction_tint 1 (51, 102, 204) (PyFloat S754_nan) sample_world).1 = None /\
  objects (apply_faction_tint 1 (51, 102, 204) (PyFloat S754_nan) sample_world).2 !! 1%positive
    = Some sample_image /\
  files (apply_faction_tint 1 (51, 102, 204) (PyFloat S754_nan) sample_world).2 = ∅.
Proof.
  apply (tint_nonfinite_raises sample_world 1 sample_image (51, 102, 204) S754_nan
           0 0 (200, 100, 0, 255)).
  - reflexivity.
  - exact sample_image_wf.
  - now left.
  - reflexivity.
  - cbn. lia.
Defined.

(** * More on the generators *)

(** X7. A negative size is refused by [Image.new]: every generator raises
    before anything is drawn, and leaves the store and the files as they
    were. *)
Theorem generators_negative_size covers size w :
  size < 0 ->
  create_infantry_sprite covers size w = (None, w) /\
  create_ranger_sprite covers size w = (None, w) /\
  create_harvester_sprite covers size w = (None, w) /\
  create_depot_sprite covers size w = (None, w) /\
  create_barracks_sprite covers size w = (None, w) /\
  create_supply_depot_sprite covers size w = (None, w) /\
  create_tech_lab_sprite covers size w = (None, w) /\
  create_turret_sprite covers size w = (None, w) /\
  (forall permanent, create_resource_node_sprite covers size permanent w = (None, w)) /\
  create_terrain_sprite covers size w = (None, w).
Proof.
  intros Hs.
  assert (Hnew : forall h, Image_new size h transparent w = (None, w)).
  { intros h. unfold Image_new. destruct (Z.ltb_spec size 0); [reflexivity|lia]. }
  unfold create_infantry_sprite, create_ranger_sprite, create_harvester_sprite,
    create_depot_sprite, create_barracks_sprite, create_supply_depot_sprite,
    create_tech_lab_sprite, create_turret_sprite, create_resource_node_sprite,
    create_terrain_sprite.
  repeat split; intros; unfold bind at 1; rewrite Hnew; reflexivity.
Qed.

Lemma generators_negative_size_witness :
  create_turret_sprite box_raster (-1) empty_world = (None, empty_world) /\
  create_terrain_sprite box_raster (-1) empty_world = (None, empty_world).
Proof.
  pose proof (generators_negative_size box_raster (-1) empty_world ltac:(lia)) as H.
  split; apply H.
Defined.

(** ** Below the least size *)

Section Refused.

Variable covers : shape -> Z -> Z -> bool.

Lemma never_shape_then {B} r s fill (k : unit -> M B) :
  never_returns r (k tt) -> never_returns r (bind (draw_shape covers r s fill) k).
Proof.
  intros H w [im Hr]. unfold draw_shape, bind, read, write. rewrite Hr.
  apply H. cbn. rewrite lookup_insert_eq. eauto.
Qed.

Lemma never_ellipse_then {B} r x0 y0 x1 y1 fill (k : unit -> M B) :
  (x0 <= x1 -> y0 <= y1 -> never_returns r (k tt)) ->
  never_returns r (bind (ellipse covers r x0 y0 x1 y1 fill) k).
Proof.
  intros H. unfold ellipse, ordered.
  destruct (Z.leb_spec x0 x1); destruct (Z.leb_spec y0 y1); cbn [andb];
    try (intros w _; reflexivity).
  apply never_shape_then. auto.
Qed.

Lemma never_rectangle_then {B} r x0 y0 x1 y1 fill (k : unit -> M B) :
  (x0 <= x1 -> y0 <= y1 -> never_returns r (k tt)) ->
  never_returns r (bind (rectangle covers r x0 y0 x1 y1 fill) k).
Proof.
  intros H. unfold rectangle, ordered.
  destruct (Z.leb_spec x0 x1); destruct (Z.leb_spec y0 y1); cbn [andb];
    try (intros w _; reflexivity).
  apply never_shape_then. auto.
Qed.

Lemma never_arc_then {B} r x0 y0 x1 y1 start stop fill wd (k : unit -> M B) :
  (x0 <= x1 -> y0 <= y1 -> never_returns r (k tt)) ->
  never_returns r (bind (arc covers r x0 y0 x1 y1 start stop fill wd) k).
Proof.
  intros H. unfold arc, ordered.
  destruct (Z.leb_spec x0 x1); destruct (Z.leb_spec y0 y1); cbn [andb];
    try (intros w _; reflexivity).
  apply never_shape_then. auto.
Qed.

Lemma never_assoc {A B C} r (m : M A) (f : A -> M B) (k : B -> M C) :
  never_returns r (bind m (fun a => bind (f a) k)) ->
  never_returns r (bind (bind m f) k).
Proof.
  intros H w Hr. specialize (H w Hr). unfold bind in *.
  destruct (m w) as [[a|] w1]; [|exact H].
  destruct (f a w1) as [[b|] w2]; exact H.
Qed.

Lemma never_let {A B} r (a : A) (k : A -> M B) :
  never_returns r (k a) -> never_returns r (bind (ret a) k).
Proof. intros H. exact H. Qed.

(** A generator whose drawing is refused: the canvas is made, or a
    negative size refused, and nothing is returned. *)
Lemma generator_refused wd ht (body : positive -> M positive) w :
  (0 <= wd -> 0 <= ht -> forall img, never_returns img (body img)) ->
  ((img <- Image_new wd ht transparent ;; body img) w).1 = None.
Proof.
  intros H. unfold bind at 1. unfold Image_new.
  destruct (Z.ltb_spec wd 0) as [|Hw]; [reflexivity|].
  destruct (Z.ltb_spec ht 0) as [|Hh]; [reflexivity|].
  cbn [orb]. unfold alloc. apply (H Hw Hh). cbn. rewrite lookup_insert_eq. eauto.
Qed.

End Refused.

(** a size below [n] is one of [0], ..., [n - 1] *)
Ltac each_size :=
  match goal with
  | Hlt : ?s < ?n, Hge : 0 <= ?s |- _ =>
      let Hc := fresh "Hc" in
      assert (Hc : s ∈ seqZ 0 n) by (apply elem_of_seqZ; lia);
      let l := eval vm_compute in (seqZ 0 n) in
      change (seqZ 0 n) with l in Hc;
      clear Hlt;
      repeat (apply elem_of_cons in Hc as [->|Hc]; [Z.div_mod_to_equations; lia|]);
      now apply elem_of_nil in Hc
  end.

(** follow the drawing past every box that is in order; no size below the
    least puts them all in order *)
Ltac out_of_order :=
  repeat first
    [ apply never_let
    | apply never_ellipse_then; intros ? ?
    | apply never_rectangle_then; intros ? ?
    | apply never_arc_then; intros ? ?
    | apply never_shape_then
    | apply never_assoc; cbn beta ];
  exfalso; each_size.

Ltac refused :=
  intros; apply generator_refused; intros ? ? img;
  unfold ImageDraw_Draw; cbn zeta; unroll; cbn beta; unfold polygon, line;
  out_of_order.

(** X20. The least sizes are exact: at every size below its least size a
    generator raises instead of returning a canvas, a negative size being
    refused by [Image.new] and any other leaving the box of a rectangle or
    of an ellipse out of order.  The least sizes are 20 for the infantry
    sprite, 32 for the harvester, 8 for the depot, 6 for the barracks, 19
    for the supply depot, 9 for the tech lab, 11 for the turret and 8 for
    the temporary resource node. *)
Theorem generators_least_sizes covers size w :
  (size < 20 -> (create_infantry_sprite covers size w).1 = None) /\
  (size < 32 -> (create_harvester_sprite covers size w).1 = None) /\
  (size < 8 -> (create_depot_sprite covers size w).1 = None) /\
  (size < 6 -> (create_barracks_sprite covers size w).1 = None) /\
  (size < 19 -> (create_supply_depot_sprite covers size w).1 = None) /\
  (size < 9 -> (create_tech_lab_sprite covers size w).1 = None) /\
  (size < 11 -> (create_turret_sprite covers size w).1 = None) /\
  (size < 8 -> (create_resource_node_sprite covers size false w).1 = None).
Proof.
  repeat match goal with |- _ /\ _ => split end.
  - unfold create_infantry_sprite. refused.
  - unfold create_harvester_sprite. refused.
  - unfold create_depot_sprite. refused.
  - unfold create_barracks_sprite. refused.
  - unfold create_supply_depot_sprite. refused.
  - unfold create_tech_lab_sprite. refused.
  - unfold create_turret_sprite. refused.
  - unfold create_resource_node_sprite. refused.
Qed.

Lemma generators_least_sizes_witness :
  (create_infantry_sprite box_raster 16 empty_world).1 = None /\
  (create_resource_node_sprite box_raster 7 false empty_world).1 = None.
Proof.
  pose proof (generators_least_sizes box_raster 16 empty_world) as H16.
  pose proof (generators_least_sizes box_raster 7 empty_world) as H7.
  split; [apply H16; lia|apply H7; lia].
Defined.

(** ** The inks of a sprite *)

Section Inks.

Variable covers : shape -> Z -> Z -> bool.

Lemma blank_inked inks wd ht :
  inked inks {| width := wd; height := ht;
                data := replicate (Z.to_nat (wd * ht)) transparent |}.
Proof. apply Forall_replicate. now left. Qed.

Lemma paint_inked inks im s fill :
  fill ∈ inks -> inked inks im -> inked inks (paint covers im s fill).
Proof.
  intros Hfill Him. unfold inked, paint in *. cbn [data].
  apply Forall_lookup. intros i p Hp. rewrite list_lookup_imap in Hp.
  destruct (data im !! i) as [q|] eqn:Hq; [|discriminate]. cbn in Hp.
  injection Hp as <-. destruct (covers s _ _); [now right|].
  rewrite Forall_lookup in Him. eapply Him; eauto.
Qed.

Lemma draws_pre {A} r (P P' : Image -> Prop) (Q : A -> Image -> Prop) m :
  (forall im, P im -> P' im) -> draws r P' Q m -> draws r P Q m.
Proof. intros HP Hm w im Hr Him. apply (Hm w im Hr). now apply HP. Qed.

(** A generator whose drawing keeps to the inks. *)
Lemma generator_painted wd ht inks (body : positive -> M positive) :
  0 <= wd -> 0 <= ht ->
  (forall img, draws img (inked inks) (fun a im => a = img /\ inked inks im) (body img)) ->
  painted_with inks (img <- Image_new wd ht transparent ;; body img).
Proof.
  intros Hw Hh Hbody w. eapply wp_mono.
  - apply (generator_draws wd ht body (inked inks) w Hw Hh).
    intros img. eapply draws_pre; [|apply Hbody]. intros im ->. apply blank_inked.
  - intros r w' (im & Hink & Hr). exists im. split; [exact Hr|].
    intros x y p Hp. apply pixel_at_elem in Hp.
    unfold inked in Hink. rewrite Forall_forall in Hink. now apply Hink.
Qed.

End Inks.

Ltac ink := solve [repeat first [apply list_elem_of_here | apply list_elem_of_further]].

Ltac draw_inked :=
  repeat first
    [ apply draws_ret; intros ? ?; split; [reflexivity|assumption]
    | apply draws_shape; intros ? ?; apply paint_inked; [ink|assumption]
    | apply draws_for_each; intros ?; shapes
    | apply draws_then; [|intros ?] ].

Ltac painted :=
  intros; apply generator_painted; [lia|lia|];
  intros img; unfold ImageDraw_Draw; apply draws_let; cbn zeta;
  shapes; draw_inked.

(** X8. From its least size on, each unit sprite is painted with the inks
    of its generator only: every pixel is transparent or one of the fill
    colours of the shapes drawn.  The infantry sprite needs a size of 20,
    the harvester a size of 32, below which a box is out of order; the
    ranger is drawn at every size. *)
Theorem unit_sprites_inks covers size :
  (20 <= size ->
   painted_with [(200, 200, 200, 255); (100, 100, 100, 255); (80, 80, 80, 255);
                 (60, 60, 60, 255)]
     (create_infantry_sprite covers size)) /\
  (0 <= size ->
   painted_with [(60, 80, 60, 255); (180, 160, 140, 255); (50, 70, 50, 255);
                 (40, 40, 40, 255); (100, 200, 255, 255)]
     (create_ranger_sprite covers size)) /\
  (32 <= size ->
   painted_with [(180, 140, 60, 255); (160, 120, 40, 255); (100, 180, 220, 255);
                 (120, 100, 40, 255); (40, 40, 40, 255); (140, 100, 40, 255)]
     (create_harvester_sprite covers size)).
Proof.
  split; [|split].
  - unfold create_infantry_sprite. painted.
  - unfold create_ranger_sprite. painted.
  - unfold create_harvester_sprite. painted.
Qed.

Lemma unit_sprites_inks_witness :
  painted_with [(200, 200, 200, 255); (100, 100, 100, 255); (80, 80, 80, 255);
                (60, 60, 60, 255)]
    (create_infantry_sprite box_raster 20).
Proof. apply (unit_sprites_inks box_raster 20). lia. Defined.

(** X9. From its least size on, each building sprite is painted with the
    inks of its generator only; the one ink that is not opaque is the
    turret's muzzle flash.  The least sizes are 8 for the depot, 6 for the
    barracks, 19 for the supply depot, 9 for the tech lab and 11 for the
    turret, below which a box is out of order. *)
Theorem building_sprites_inks covers size :
  (8 <= size ->
   painted_with [(100, 110, 130, 255); (70, 80, 100, 255); (80, 160, 200, 255);
                 (60, 50, 40, 255); (80, 80, 80, 255); (255, 100, 100, 255)]
     (create_depot_sprite covers size)) /\
  (6 <= size ->
   painted_with [(90, 85, 80, 255); (70, 65, 60, 255); (40, 60, 80, 255);
                 (50, 50, 50, 255); (40, 40, 40, 255); (180, 50, 50, 255)]
     (create_barracks_sprite covers size)) /\
  (19 <= size ->
   painted_with [(140, 130, 110, 255); (120, 80, 60, 255); (100, 90, 70, 255);
                 (180, 140, 80, 255); (160, 120, 60, 255); (170, 130, 70, 255)]
     (create_supply_depot_sprite covers size)) /\
  (9 <= size ->
   painted_with [(80, 70, 120, 255); (100, 90, 150, 255); (100, 200, 255, 255);
                 (150, 100, 255, 255); (150, 150, 150, 255); (100, 100, 100, 255)]
     (create_tech_lab_sprite covers size)) /\
  (11 <= size ->
   painted_with [(80, 80, 80, 255); (100, 100, 100, 255); (120, 120, 120, 255);
                 (60, 60, 60, 255); (255, 200, 100, 200)]
     (create_turret_sprite covers size)).
Proof.
  split; [|split; [|split; [|split]]].
  - unfold create_depot_sprite. painted.
  - unfold create_barracks_sprite. painted.
  - unfold create_supply_depot_sprite. painted.
  - unfold create_tech_lab_sprite. painted.
  - unfold create_turret_sprite. painted.
Qed.

Lemma building_sprites_inks_witness :
  painted_with [(140, 130, 110, 255); (120, 80, 60, 255); (100, 90, 70, 255);
                (180, 140, 80, 255); (160, 120, 60, 255); (170, 130, 70, 255)]
    (create_supply_depot_sprite box_raster 19) /\
  painted_with [(80, 80, 80, 255); (100, 100, 100, 255); (120, 120, 120, 255);
                (60, 60, 60, 255); (255, 200, 100, 200)]
    (create_turret_sprite box_raster 11).
Proof.
  pose proof (building_sprites_inks box_raster 19) as H19.
  pose proof (building_sprites_inks box_raster 11) as H11.
  split; [apply H19; lia|apply H11; lia].
Defined.

(** X10. The resource nodes and the terrain are painted with the inks of
    their generators only: the permanent node with its three crystal
    colours and the translucent glow, the temporary node with four opaque
    ore colours, the terrain with three opaque rock colours.  The temporary
    node needs a size of 8, below which the box of an ore pile is out of
    order; the permanent node and the terrain are drawn at every size. *)
Theorem neutral_sprites_inks covers size :
  (0 <= size ->
   painted_with [(60, 200, 100, 255); (80, 220, 120, 255); (50, 180, 90, 255);
                 (100, 255, 150, 100)]
     (create_resource_node_sprite covers size true)) /\
  (8 <= size ->
   painted_with [(180, 140, 40, 255); (220, 180, 60, 255); (255, 240, 180, 255);
                 (255, 230, 160, 255)]
     (create_resource_node_sprite covers size false)) /\
  (0 <= size ->
   painted_with [(100, 95, 85, 255); (120, 115, 105, 255); (80, 75, 65, 255)]
     (create_terrain_sprite covers size)).
Proof.
  split; [|split].
  - unfold create_resource_node_sprite. painted.
  - unfold create_resource_node_sprite. painted.
  - unfold create_terrain_sprite. painted.
Qed.

Lemma neutral_sprites_inks_witness :
  painted_with [(180, 140, 40, 255); (220, 180, 60, 255); (255, 240, 180, 255);
                (255, 230, 160, 255)]
    (create_resource_node_sprite box_raster 8 false) /\
  painted_with [(100, 95, 85, 255); (120, 115, 105, 255); (80, 75, 65, 255)]
    (create_terrain_sprite box_raster 80).
Proof.
  pose proof (neutral_sprites_inks box_raster 8) as H8.
  pose proof (neutral_sprites_inks box_raster 80) as H80.
  split; [apply H8; lia|apply H80; lia].
Defined.

(** ** The terrain does not scale *)

Lemma terrain_pixels covers size w :
  0 <= size ->
  wp (create_terrain_sprite covers size) w (fun r w' =>
    exists im,
      (sized size 60 im /\
       forall x y, 0 <= x < size -> 0 <= y < 60 ->
         pixel_at im x y = Some (terrain_pixel covers x y)) /\
      objects w' !! r = Some im).
Proof.
  intros Hs. unfold create_terrain_sprite.
  apply generator_draws; [lia|lia|]. intros img.
  unfold ImageDraw_Draw. apply draws_let. unfold polygon.
  set (P1 := Polygon [(10, 55); (5, 35); (15, 15); (35, 8); (55, 12); (70, 20);
                      (75, 40); (70, 55)]).
  set (P2 := Polygon [(20, 45); (18, 30); (30, 18); (45, 20); (48, 35)]).
  set (P3 := Polygon [(50, 50); (55, 25); (68, 30); (70, 50)]).
  set (Q1 := fun im => sized size 60 im /\
     forall x y, 0 <= x < size -> 0 <= y < 60 ->
       pixel_at im x y = Some (if covers P1 x y then (100, 95, 85, 255) else transparent)).
  set (Q2 := fun im => sized size 60 im /\
     forall x y, 0 <= x < size -> 0 <= y < 60 ->
       pixel_at im x y = Some (if covers P2 x y then (120, 115, 105, 255)
                               else if covers P1 x y then (100, 95, 85, 255)
                               else transparent)).
  assert (Hpaint : forall im s fill x y, sized size 60 im ->
            0 <= x < size -> 0 <= y < 60 ->
            pixel_at (paint covers im s fill) x y =
              if covers s x y then Some fill else pixel_at im x y).
  { intros im s fill x y (Hw & Hh & Hwf) Hx Hy. apply pixel_at_paint; [exact Hwf|].
    apply in_bounds_true; lia. }
  apply draws_shape_then with (Q := Q1).
  { intros im ->. pose proof (blank_sized size 60 Hs ltac:(lia)) as Hb. split.
    - apply paint_sized; [reflexivity|exact Hb].
    - intros x y Hx Hy. rewrite Hpaint by assumption.
      rewrite pixel_at_blank by assumption. now destruct (covers P1 x y). }
  apply draws_shape_then with (Q := Q2).
  { intros im [Hsz Hpx]. split.
    - apply paint_sized; [reflexivity|exact Hsz].
    - intros x y Hx Hy. rewrite Hpaint, Hpx by assumption.
      now destruct (covers P2 x y). }
  apply draws_shape_then with
    (Q := fun im => sized size 60 im /\
       forall x y, 0 <= x < size -> 0 <= y < 60 ->
         pixel_at im x y = Some (terrain_pixel covers x y)).
  { intros im [Hsz Hpx]. split.
    - apply paint_sized; [reflexivity|exact Hsz].
    - intros x y Hx Hy. rewrite Hpaint, Hpx by assumption.
      unfold terrain_pixel. fold P1 P2 P3. now destruct (covers P3 x y). }
  apply draws_ret. auto.
Qed.

(** X11. The terrain generator draws at fixed coordinates: [size] only sets
    the width of the canvas.  Two terrains of different sizes agree on
    every pixel they both have, so that a narrower terrain is the wider one
    cut off at its right edge. *)
Theorem terrain_ignores_size covers s1 s2 w :
  0 <= s1 -> 0 <= s2 ->
  wp (a <- create_terrain_sprite covers s1 ;;
      b <- create_terrain_sprite covers s2 ;;
      ret (a, b)) w
     (fun r w' => exists im1 im2,
        objects w' !! r.1 = Some im1 /\ objects w' !! r.2 = Some im2 /\
        width im1 = s1 /\ width im2 = s2 /\ height im1 = 60 /\ height im2 = 60 /\
        forall x y, 0 <= x < s1 -> x < s2 -> 0 <= y < 60 ->
          is_Some (pixel_at im1 x y) /\ pixel_at im1 x y = pixel_at im2 x y).
Proof.
  intros H1 H2. apply wp_bind.
  eapply wp_mono; [apply (terrain_pixels covers s1 w H1)|].
  intros a w1 (im1 & [Hsz1 Hpx1] & Ha). cbn beta. apply wp_bind.
  eapply wp_mono.
  { apply wp_agree; [apply (terrain_pixels covers s2 w1 H2)|].
    apply (terrain_returns covers s2 H2 w1). }
  intros b w2 [(im2 & [Hsz2 Hpx2] & Hb) (Hfresh & im2' & _ & Hobj & _)]. cbn beta.
  apply wp_ret. exists im1, im2. cbn [fst snd].
  split; [|split; [exact Hb|]].
  - rewrite Hobj, lookup_insert_ne; [exact Ha|].
    rewrite Hfresh. intros E. symmetry in E. revert E. eapply fresh_ne; eauto.
  - destruct Hsz1 as (Hw1 & Hh1 & _), Hsz2 as (Hw2 & Hh2 & _).
    repeat (split; [assumption|]).
    intros x y Hx Hx' Hy. rewrite Hpx1, Hpx2 by lia. split; [eauto|reflexivity].
Qed.

Lemma terrain_ignores_size_witness :
  wp (a <- create_terrain_sprite box_raster 40 ;;
      b <- create_terrain_sprite box_raster 80 ;;
      ret (a, b)) empty_world
     (fun r w' => exists im1 im2,
        objects w' !! r.1 = Some im1 /\ objects w' !! r.2 = Some im2 /\
        width im1 = 40 /\ width im2 = 80 /\ height im1 = 60 /\ height im2 = 60 /\
        forall x y, 0 <= x < 40 -> x < 80 -> 0 <= y < 60 ->
          is_Some (pixel_at im1 x y) /\ pixel_at im1 x y = pixel_at im2 x y).
Proof. apply (terrain_ignores_size box_raster 40 80 empty_world); lia. Defined.

(** ** The turret and the resource nodes at any size *)

Lemma centre_covered covers x0 y0 x1 y1 x y :
  covers_centre covers -> x0 + 2 <= x1 -> y0 + 2 <= y1 ->
  x = (x0 + x1) / 2 -> y = (y0 + y1) / 2 ->
  covers (Ellipse x0 y0 x1 y1) x y = true.
Proof. intros Hc Hx Hy -> ->. now apply Hc. Qed.

Ltac centre :=
  apply centre_covered; [assumption|..]; Z.div_mod_to_equations; lia.

(** X12. At every size from 11 on, the turret has a fully transparent
    corner (0, 0) and the opaque grey (120, 120, 120, 255) of its head at
    (size // 2, size // 2 + 2), the centre of the head's box. *)
Theorem turret_any_size covers size w :
  11 <= size -> stays_in_box covers -> covers_centre covers ->
  wp (create_turret_sprite covers size) w (fun r w' =>
    exists im, (sized size size im /\
                pixel_at im 0 0 = Some (0, 0, 0, 0) /\
                pixel_at im (size / 2) (size / 2 + 2) = Some (120, 120, 120, 255)) /\
               objects w' !! r = Some im).
Proof.
  intros Hsize Hbox Hcentre. unfold create_turret_sprite.
  apply generator_draws; [lia|lia|]. intros img.
  unfold ImageDraw_Draw. apply draws_let. cbn zeta. shapes.
  set (I0 := fun im => sized size size im /\ pixel_at im 0 0 = Some transparent).
  set (I1 := fun im => I0 im /\
                pixel_at im (size / 2) (size / 2 + 2) = Some (120, 120, 120, 255)).
  assert (Hc : 0 <= size / 2 < size) by (Z.div_mod_to_equations; lia).
  assert (Hc2 : 0 <= size / 2 + 2 < size) by (Z.div_mod_to_equations; lia).
  apply draws_shape_then with (Q := I0).
  { intros im ->. pose proof (blank_sized size size ltac:(lia) ltac:(lia)) as Hs. split.
    - apply paint_sized; [reflexivity|exact Hs].
    - eapply paint_keeps; [exact Hs|lia|lia|elsewhere|apply pixel_at_blank; lia]. }
  apply draws_shape_then with (Q := I0).
  { intros im [Hs H0]. split.
    - apply paint_sized; [reflexivity|exact Hs].
    - eapply paint_keeps; [exact Hs|lia|lia|elsewhere|exact H0]. }
  apply draws_shape_then with (Q := I1).
  { intros im [Hs H0]. split; [split|].
    - apply paint_sized; [reflexivity|exact Hs].
    - eapply paint_keeps; [exact Hs|lia|lia|elsewhere|exact H0].
    - eapply paint_sets; [exact Hs|lia|lia|].
      centre. }
  apply draws_shape_then with (Q := I1).
  { intros im [[Hs H0] H1]. split; [split|].
    - apply paint_sized; [reflexivity|exact Hs].
    - eapply paint_keeps; [exact Hs|lia|lia|elsewhere|exact H0].
    - eapply paint_keeps; [exact Hs|lia|lia|elsewhere|exact H1]. }
  apply draws_shape_then with (Q := I1).
  { intros im [[Hs H0] H1]. split; [split|].
    - apply paint_sized; [reflexivity|exact Hs].
    - eapply paint_keeps; [exact Hs|lia|lia|elsewhere|exact H0].
    - eapply paint_keeps; [exact Hs|lia|lia|elsewhere|exact H1]. }
  apply draws_ret. intros im [[Hs H0] H1]. auto.
Qed.

Lemma turret_any_size_witness :
  wp (create_turret_sprite box_raster 48) empty_world (fun r w' =>
    exists im, (sized 48 48 im /\
                pixel_at im 0 0 = Some (0, 0, 0, 0) /\
                pixel_at im (48 / 2) (48 / 2 + 2) = Some (120, 120, 120, 255)) /\
               objects w' !! r = Some im).
Proof.
  apply (turret_any_size box_raster 48 empty_world).
  - lia.
  - exact box_raster_stays_in_box.
  - exact box_raster_covers_centre.
Defined.

(** X13. At every size from 8 on, the two kinds of resource node differ:
    the permanent node has the translucent glow (100, 255, 150, 100) at
    (size // 2, size // 2 + 3); the temporary node has the opaque glint
    (255, 240, 180, 255) at (size // 2, size // 2 - 2) and no pixel of an
    alpha other than 0 or 255. *)
Theorem resource_node_any_size covers size w :
  8 <= size -> stays_in_box covers -> covers_centre covers ->
  wp (create_resource_node_sprite covers size true) w (fun r w' =>
    exists im, (sized size size im /\
                pixel_at im (size / 2) (size / 2 + 3) = Some (100, 255, 150, 100)) /\
               objects w' !! r = Some im) /\
  wp (create_resource_node_sprite covers size false) w (fun r w' =>
    exists im, (sized size size im /\
                pixel_at im (size / 2) (size / 2 - 2) = Some (255, 240, 180, 255) /\
                (forall x y p, pixel_at im x y = Some p -> p.2 = 0 \/ p.2 = 255)) /\
               objects w' !! r = Some im).
Proof.
  intros Hsize Hbox Hcentre. unfold create_resource_node_sprite.
  assert (Hc : 0 <= size / 2 < size) by (Z.div_mod_to_equations; lia).
  assert (Hc3 : 0 <= size / 2 + 3 < size) by (Z.div_mod_to_equations; lia).
  assert (Hc2 : 0 <= size / 2 - 2 < size) by (Z.div_mod_to_equations; lia).
  split.
  - apply generator_draws; [lia|lia|]. intros img.
    unfold ImageDraw_Draw. apply draws_let. cbn zeta. shapes.
    eapply draws_bind with
      (Q := fun _ im => sized size size im /\
              pixel_at im (size / 2) (size / 2 + 3) = Some (100, 255, 150, 100)).
    2:{ intros u. apply draws_ret. auto. }
    apply draws_shape_then with (Q := sized size size).
    { intros im ->. apply paint_sized; [reflexivity|apply blank_sized; lia]. }
    apply draws_shape_then with (Q := sized size size).
    { intros im Hs. now apply paint_sized. }
    apply draws_shape_then with (Q := sized size size).
    { intros im Hs. now apply paint_sized. }
    apply draws_shape. intros im Hs. split; [now apply paint_sized|].
    eapply paint_sets; [exact Hs|lia|lia|].
    centre.
  - apply generator_draws; [lia|lia|]. intros img.
    unfold ImageDraw_Draw. apply draws_let. cbn zeta. shapes.
    set (J0 := fun im => sized size size im /\ alpha_binary im).
    set (J1 := fun im => J0 im /\
                 pixel_at im (size / 2) (size / 2 - 2) = Some (255, 240, 180, 255)).
    eapply draws_bind with (Q := fun _ => J1).
    2:{ intros u. apply draws_ret. intros im [[Hs Hb] Hg].
        split; [reflexivity|]. split; [exact Hs|]. split; [exact Hg|].
        intros x y p. now apply alpha_binary_pixel. }
    apply draws_shape_then with (Q := J0).
    { intros im ->. split.
      - apply paint_sized; [reflexivity|apply blank_sized; lia].
      - apply paint_alpha_binary; [reflexivity|apply blank_alpha_binary]. }
    eapply draws_bind with (Q := fun _ => J0).
    { apply draws_for_each. intros i. shapes. apply draws_shape. intros im [Hs Hb]. split.
      - now apply paint_sized.
      - now apply paint_alpha_binary. }
    intros u.
    apply draws_shape_then with (Q := J1).
    { intros im [Hs Hb]. split; [split|].
      - now apply paint_sized.
      - now apply paint_alpha_binary.
      - eapply paint_sets; [exact Hs|lia|lia|].
        centre. }
    apply draws_shape. intros im [[Hs Hb] Hg]. split; [split|].
    + now apply paint_sized.
    + now apply paint_alpha_binary.
    + eapply paint_keeps; [exact Hs|lia|lia|elsewhere|exact Hg].
Qed.

Lemma resource_node_any_size_witness :
  wp (create_resource_node_sprite box_raster 16 true) empty_world (fun r w' =>
    exists im, (sized 16 16 im /\
                pixel_at im (16 / 2) (16 / 2 + 3) = Some (100, 255, 150, 100)) /\
               objects w' !! r = Some im).
Proof.
  apply (resource_node_any_size box_raster 16 empty_world).
  - lia.
  - exact box_raster_stays_in_box.
  - exact box_raster_covers_centre.
Defined.

(** * More on the driver *)

(** X14. In the directory a run leaves, the tinted file of a faction and a
    unit or building sprite holds the tint of what the base file of that
    sprite holds, toward the faction's colour at intensity 0.35. *)
Theorem main_tints_base_files covers dir w :
  wp (main covers dir) w (fun _ w' =>
    forall faction c name,
      (faction, c) ∈ [("continuity", CONTINUITY_BLUE); ("collegium", COLLEGIUM_GOLD)]%string ->
      name ∈ ["infantry"; "ranger"; "harvester"; "depot"; "barracks"; "supply_depot";
              "tech_lab"; "turret"]%string ->
      exists base,
        files w' !! path_join dir (name +:+ ".png") = Some base /\
        files w' !! path_join (path_join dir faction) (name +:+ ".png")
          = Some (tint_image c (PyFloat f035) base)).
Proof.
  eapply wp_mono; [apply main_files|].
  intros u w' (base & Hbase & Hfiles). cbn beta.
  pose proof (written_paths_NoDup dir) as Hnd.
  unfold catalog in Hbase.
  repeat match type of Hbase with
  | Forall2 _ _ (_ :: _) =>
      apply Forall2_cons_inv_r in Hbase;
      let im := fresh "im" in
      destruct Hbase as (im & ? & _ & Hbase & ->)
  end.
  apply Forall2_nil_inv_r in Hbase. subst.
  assert (Hfst : forall ims : list Image, length ims = 27%nat ->
            (zip (written_files dir).*1 ims).*1 = (written_files dir).*1).
  { intros ims Hl. apply fst_zip. rewrite length_fmap. cbn. lia. }
  intros faction c name Hf Hn.
  rewrite !elem_of_cons, elem_of_nil in Hf. rewrite !elem_of_cons, elem_of_nil in Hn.
  match type of Hfiles with _ = write_all _ (zip _ ?l) => set (ims := l) in * end.
  assert (Hlook : forall p i, (p, i) ∈ zip (written_files dir).*1 ims ->
            files w' !! p = Some i).
  { intros p i Hin. rewrite Hfiles. apply write_all_lookup; [|exact Hin].
    rewrite Hfst by reflexivity. exact Hnd. }
  destruct Hf as [Hf|[Hf|[]]]; injection Hf as -> ->;
    destruct Hn as [->|[->|[->|[->|[->|[->|[->|[->|[]]]]]]]]];
    eexists; (split; apply Hlook; unfold ims; cbn;
      solve [repeat first [apply list_elem_of_here | apply list_elem_of_further]]).
Qed.

(** X15. A run touches no other file: a path that is none of the 27 keeps
    what it held; in particular no tinted file is written for the resource
    nodes and the terrain. *)
Theorem main_touches_only_its_files covers dir w :
  wp (main covers dir) w (fun _ w' =>
    (forall path, path ∉ (written_files dir).*1 -> files w' !! path = files w !! path) /\
    forall faction name,
      faction ∈ ["continuity"; "collegium"]%string ->
      name ∈ ["resource_temp"; "resource_perm"; "terrain"]%string ->
      files w' !! path_join (path_join dir faction) (name +:+ ".png")
        = files w !! path_join (path_join dir faction) (name +:+ ".png")).
Proof.
  eapply wp_mono; [apply main_files|].
  intros u w' (base & Hbase & Hfiles). cbn beta.
  assert (Hother : forall path, path ∉ (written_files dir).*1 ->
            files w' !! path = files w !! path).
  { intros path Hout. rewrite Hfiles. apply write_all_other.
    rewrite fst_zip; [exact Hout|].
    apply Forall2_length in Hbase. rewrite length_fmap, !length_app, !length_fmap.
    rewrite length_take, Hbase. cbn. lia. }
  split; [exact Hother|].
  intros faction name Hf Hn. apply Hother.
  rewrite written_paths. unfold path_join. rewrite !string_app_assoc.
  intros Hin. apply list_elem_of_fmap_inj_2 in Hin; [|apply _].
  rewrite !elem_of_cons, elem_of_nil in Hf. rewrite !elem_of_cons, elem_of_nil in Hn.
  destruct Hf as [->|[->|[]]]; destruct Hn as [->|[->|[->|[]]]];
    revert Hin; apply (bool_decide_unpack (_ ∉ written_suffixes)); vm_compute; exact I.
Qed.

Lemma write_all_again l : forall m : gmap string Image,
  NoDup l.*1 -> write_all (write_all m l) l = write_all m l.
Proof.
  intros m Hnd. apply map_eq. intros p.
  destruct (decide (p ∈ l.*1)) as [Hin|Hout].
  - apply list_elem_of_fmap in Hin. destruct Hin as ([q im] & -> & Hin). cbn.
    now rewrite !(write_all_lookup l _ q im Hnd Hin).
  - now rewrite !write_all_other by exact Hout.
Qed.

(** X16. What a run writes does not depend on where it starts: two runs,
    from any two stores and directories, leave the same image under each of
    the 27 paths. *)
Theorem main_reproducible covers dir w1 w2 :
  wp (main covers dir) w1 (fun _ w1' =>
    wp (main covers dir) w2 (fun _ w2' =>
      forall path, path ∈ (written_files dir).*1 ->
        is_Some (files w1' !! path) /\ files w1' !! path = files w2' !! path)).
Proof.
  destruct (main_images covers dir) as (base & Hbase & _ & Hrun).
  eapply wp_mono; [apply Hrun|]. intros u1 w1' F1. cbn beta.
  eapply wp_mono; [apply Hrun|]. intros u2 w2' F2. cbn beta.
  intros path Hin.
  set (ims := base ++ (tint_image CONTINUITY_BLUE (PyFloat f035) <$> take 8 base)
                   ++ (tint_image COLLEGIUM_GOLD (PyFloat f035) <$> take 8 base)) in *.
  assert (Hlen : length (written_files dir).*1 = length ims).
  { unfold ims. apply Forall2_length in Hbase.
    rewrite length_fmap, !length_app, !length_fmap, length_take, Hbase. reflexivity. }
  assert (Hfst : (zip (written_files dir).*1 ims).*1 = (written_files dir).*1).
  { apply fst_zip. lia. }
  rewrite <- Hfst in Hin. apply list_elem_of_fmap in Hin.
  destruct Hin as ([q im] & -> & Hin). cbn [fst].
  pose proof (written_paths_NoDup dir) as Hnd. rewrite <- Hfst in Hnd.
  rewrite F1, F2, !(write_all_lookup _ _ q im Hnd Hin). eauto.
Qed.

(** X17. Running the driver again changes nothing: after two runs the
    directory holds what it holds after one. *)
Theorem main_rerun covers dir w :
  wp (main covers dir ;;; main covers dir) w (fun _ w2 =>
    wp (main covers dir) w (fun _ w1 => files w2 = files w1)).
Proof.
  destruct (main_images covers dir) as (base & Hbase & _ & Hrun).
  apply wp_bind. eapply wp_mono; [apply Hrun|]. intros u1 w1 F1. cbn beta.
  eapply wp_mono; [apply Hrun|]. intros u2 w2 F2. cbn beta.
  eapply wp_mono; [apply Hrun|]. intros u3 w1' F1'. cbn beta.
  rewrite F2, F1, F1'. apply write_all_again.
  rewrite fst_zip; [apply written_paths_NoDup|].
  apply Forall2_length in Hbase.
  rewrite length_fmap, !length_app, !length_fmap, length_take, Hbase. cbn. lia.
Qed.

(** X18. Each base file of a run holds the image of its generator at the
    driver's size: [infantry.png] what [create_infantry_sprite(32)]
    returns, and so on through [terrain.png] and
    [create_terrain_sprite(80)]; [resource_temp.png] is the node with
    [permanent=False], [resource_perm.png] the one with [permanent=True]. *)
Theorem main_saves_generated covers dir w :
  wp (main covers dir) w (fun _ w' =>
    forall name gen, (name, gen) ∈ sprite_calls covers ->
      exists im, produces gen im /\
        files w' !! path_join dir (name +:+ ".png") = Some im).
Proof.
  destruct (main_images covers dir) as (base & Hbase & Hcalls & Hrun).
  eapply wp_mono; [apply Hrun|]. intros u w' Hfiles. cbn beta.
  pose proof (written_paths_NoDup dir) as Hnd.
  unfold sprite_calls in Hcalls.
  repeat match type of Hcalls with
  | Forall2 _ _ (_ :: _) =>
      apply Forall2_cons_inv_r in Hcalls;
      let im := fresh "im" in let H := fresh "Hp" in
      destruct Hcalls as (im & ? & H & Hcalls & ->); cbn [fst snd] in H
  end.
  apply Forall2_nil_inv_r in Hcalls. subst.
  match type of Hfiles with _ = write_all _ (zip _ ?l) => set (ims := l) in * end.
  assert (Hlook : forall p i, (p, i) ∈ zip (written_files dir).*1 ims ->
            files w' !! p = Some i).
  { intros p i Hin. rewrite Hfiles. apply write_all_lookup; [|exact Hin].
    rewrite fst_zip by (rewrite length_fmap; cbn; lia). exact Hnd. }
  intros name gen Hin. unfold sprite_calls in Hin.
  rewrite !elem_of_cons, elem_of_nil in Hin.
  repeat (destruct Hin as [Hin|Hin];
          [injection Hin as -> ->; eexists; split; [eassumption|];
           apply Hlook; unfold ims; cbn;
           solve [repeat first [apply list_elem_of_here | apply list_elem_of_further]]|]).
  destruct Hin.
Qed.
